(** * Theme analyzer: a shallow embedding of [theme_analyzer_mcp.py]

    The development follows the source function by function:
    [skip_metadata], [extract_terms], [extract_contexts],
    [find_cooccurrences], [generate_insights], [analyze_themes] and
    [analyze_themes_batch].

    Python strings are lists of Unicode code points.  The three places
    where the interpreter consults the Unicode character database
    ([str.lower], the regular-expression class [\w], [str.isspace]) are
    collected in the class [Unicode]; the instance [Latin] fixes them
    for the code points below U+0180 and is used for evaluation.
    [Counter] and [defaultdict] are association lists in insertion
    order, because [most_common] and [items] depend on that order.
    Counts and indices are natural numbers; the importance score is
    the binary64 number that the interpreter computes, as a rational
    number. *)

From Stdlib Require Import String Ascii.
From Stdlib Require Import List Arith ZArith QArith Qround Qpower Lqa Lia Bool.
From Stdlib Require Import Sorted Permutation.
Import ListNotations.

Close Scope Q_scope.
Close Scope Z_scope.
Open Scope nat_scope.
Open Scope list_scope.
Open Scope bool_scope.

(** ** Strings *)

Definition char := Z.
Definition str := list char.

(** ASCII literals for the examples. *)
Definition cps (s : string) : str :=
  map (fun a => Z.of_nat (nat_of_ascii a)) (list_ascii_of_string s).

Fixpoint str_eqb (s t : str) : bool :=
  match s, t with
  | [], [] => true
  | c :: s', d :: t' => Z.eqb c d && str_eqb s' t'
  | _, _ => false
  end.

Definition str_mem (s : str) (l : list str) : bool := existsb (str_eqb s) l.

(** [s[a:b]] for non-negative [a] and [b]. *)
Definition slice (s : str) (a b : nat) : str := firstn (b - a) (skipn a s).

(** [s.startswith(p)]. *)
Fixpoint starts_with (p s : str) : bool :=
  match p, s with
  | [], _ => true
  | c :: p', d :: s' => Z.eqb c d && starts_with p' s'
  | _ :: _, [] => false
  end.

(** [s.find(sub, pos)]: the scan below walks the suffix [s[i:]]. *)
Fixpoint find_from (sub s : str) (i : nat) : option nat :=
  if starts_with sub s then Some i
  else match s with
       | [] => None
       | _ :: s' => find_from sub s' (S i)
       end.

Definition find (s sub : str) (pos : nat) : option nat :=
  if length s <? pos then None else find_from sub (skipn pos s) pos.

(** [sub in s]. *)
Definition contains (sub s : str) : bool :=
  match find_from sub s 0 with Some _ => true | None => false end.

(** ** The Unicode tables used by the interpreter *)

(** The character class [[a-záäčďéíľňóôŕšťúýž]] of [extract_terms]. *)
Definition accented : list char :=
  [225; 228; 269; 271; 233; 237; 318; 328; 243; 244; 341; 353; 357; 250;
   253; 382]%Z.

Definition in_alphabet (c : char) : bool :=
  ((97 <=? c) && (c <=? 122))%Z || existsb (Z.eqb c) accented.

Class Unicode := {
  (** [str.lower()] *)
  str_lower : str -> str;
  (** the class [\w] of [re] on [str] patterns *)
  is_word : char -> bool;
  (** [str.isspace()] on one character, as used by [str.strip()] *)
  is_space : char -> bool
}.

(** What the development uses of these tables: the empty string has
    no case, every letter of the alphabet above is a word character,
    and these letters are lowercase. *)
Class UnicodeFacts (U : Unicode) : Prop := {
  lower_nil : str_lower [] = [];
  alphabet_is_word : forall c, in_alphabet c = true -> is_word c = true;
  lower_letters :
    forall s, forallb in_alphabet s = true -> str_lower s = s
}.

(** The tables for U+0000..U+017F. Above that range [Latin] treats a
    character as caseless, non-word and non-space. *)
Module LatinTables.

Definition lower_char (c : char) : str :=
  (if (65 <=? c) && (c <=? 90) then [c + 32]
   else if (192 <=? c) && (c <=? 222) && negb (c =? 215) then [c + 32]
   else if c =? 304 then [105; 775]
   else if c =? 376 then [255]
   else if (256 <=? c) && (c <=? 311) && Z.even c then [c + 1]
   else if (313 <=? c) && (c <=? 328) && Z.odd c then [c + 1]
   else if (330 <=? c) && (c <=? 375) && Z.even c then [c + 1]
   else if (377 <=? c) && (c <=? 382) && Z.odd c then [c + 1]
   else [c])%Z.

Definition lower (s : str) : str := flat_map lower_char s.

Definition word (c : char) : bool :=
  ((48 <=? c) && (c <=? 57) || (65 <=? c) && (c <=? 90) || (c =? 95)
   || (97 <=? c) && (c <=? 122) || (c =? 170) || (178 <=? c) && (c <=? 179)
   || (c =? 181) || (185 <=? c) && (c <=? 186) || (188 <=? c) && (c <=? 190)
   || (192 <=? c) && (c <=? 214) || (216 <=? c) && (c <=? 246)
   || (248 <=? c) && (c <=? 383))%Z.

Definition space (c : char) : bool :=
  ((9 <=? c) && (c <=? 13) || (28 <=? c) && (c <=? 32) || (c =? 133)
   || (c =? 160))%Z.

End LatinTables.

#[export] Instance Latin : Unicode := {|
  str_lower := LatinTables.lower;
  is_word := LatinTables.word;
  is_space := LatinTables.space
|}.

(** ** The regular expressions of the source *)

Section Regex.
Context {U : Unicode}.

Definition word_opt (o : option char) : bool :=
  match o with Some c => is_word c | None => false end.

(** The scanners below walk a suffix [rest] of the subject string and
    remember in [prev] the character just before it ([None] at the
    start of the string).  [char_before prev rest k] is the character
    before offset [k] of [rest]. *)
Definition char_before (prev : option char) (rest : str) (k : nat)
  : option char :=
  match k with 0 => prev | S j => nth_error rest j end.

(** [\b] at offset [k] of [rest]: exactly one of the two neighbours
    is a word character; outside the string counts as non-word. *)
Definition boundary (prev : option char) (rest : str) (k : nat) : bool :=
  xorb (word_opt (char_before prev rest k)) (word_opt (nth_error rest k)).

(** *** [\b[a-záäčďéíľňóôŕšťúýž]+\b] with [re.findall] *)

Fixpoint run_length (s : str) : nat :=
  match s with
  | c :: s' => if in_alphabet c then S (run_length s') else 0
  | [] => 0
  end.

(** The greedy [+] takes the whole run and gives letters back one at
    a time until [\b] holds behind it. *)
Fixpoint backtrack (prev : option char) (rest : str) (k : nat)
  : option nat :=
  match k with
  | 0 => None
  | S k' => if boundary prev rest k then Some k else backtrack prev rest k'
  end.

Definition match_letters (prev : option char) (rest : str) : option nat :=
  if boundary prev rest 0 then backtrack prev rest (run_length rest)
  else None.

Fixpoint findall_letters (fuel : nat) (prev : option char) (rest : str)
  : list str :=
  match fuel with
  | 0 => []
  | S fuel' =>
      match match_letters prev rest with
      | Some k =>
          firstn k rest
            :: findall_letters fuel' (char_before prev rest k) (skipn k rest)
      | None =>
          match rest with
          | [] => []
          | c :: rest' => findall_letters fuel' (Some c) rest'
          end
      end
  end.

Definition findall_words (s : str) : list str :=
  findall_letters (S (length s)) None s.

(** *** [\b + re.escape(term) + \b] with [re.finditer], match starts *)

Definition match_term (term : str) (prev : option char) (rest : str)
  : bool :=
  boundary prev rest 0 && starts_with term rest
  && boundary prev rest (length term).

(** After a match the scan resumes behind it; an empty match is
    followed by a scan from the next character. *)
Fixpoint finditer_term (fuel : nat) (term : str) (prev : option char)
         (i : nat) (rest : str) : list nat :=
  match fuel with
  | 0 => []
  | S fuel' =>
      let next :=
        match rest with
        | [] => []
        | c :: rest' => finditer_term fuel' term (Some c) (S i) rest'
        end in
      if match_term term prev rest then
        i :: match length term with
             | 0 => next
             | n =>
                 finditer_term fuel' term (char_before prev rest n)
                   (i + n) (skipn n rest)
             end
      else next
  end.

Definition word_positions (term s : str) : list nat :=
  finditer_term (S (length s)) term None 0 s.

End Regex.

(** ** [Counter] and [defaultdict] *)

Section AList.
Context {V : Type}.

Fixpoint alist_mem (k : str) (m : list (str * V)) : bool :=
  match m with
  | [] => false
  | (k', _) :: m' => str_eqb k k' || alist_mem k m'
  end.

Fixpoint alist_get (d : V) (k : str) (m : list (str * V)) : V :=
  match m with
  | [] => d
  | (k', v) :: m' => if str_eqb k k' then v else alist_get d k m'
  end.

(** [m[k] = f(m[k])] where a missing key reads as [d] and is
    inserted at the end. *)
Fixpoint alist_update (d : V) (f : V -> V) (k : str) (m : list (str * V))
  : list (str * V) :=
  match m with
  | [] => [(k, f d)]
  | (k', v) :: m' =>
      if str_eqb k k' then (k', f v) :: m'
      else (k', v) :: alist_update d f k m'
  end.

End AList.

(** A stable sort in descending order: [sorted(l, key, reverse=True)].
    [lt x y] compares the keys. *)
Section StableSort.
Context {A : Type} (lt : A -> A -> bool).

Fixpoint insert_desc (x : A) (l : list A) : list A :=
  match l with
  | [] => [x]
  | y :: l' => if lt x y then y :: insert_desc x l' else x :: l
  end.

Definition sort_desc (l : list A) : list A := fold_right insert_desc [] l.

End StableSort.

Definition Counter := list (str * nat).

Definition counter_get (c : Counter) (k : str) : nat := alist_get 0 k c.

(** [c[k] += n] *)
Definition counter_add (c : Counter) (k : str) (n : nat) : Counter :=
  alist_update 0 (fun v => v + n) k c.

Definition count_lt (x y : str * nat) : bool := snd x <? snd y.

(** [c.most_common(n)] *)
Definition most_common (n : nat) (c : Counter) : list (str * nat) :=
  firstn n (sort_desc count_lt c).

(** [defaultdict(Counter)] *)
Definition Graph := list (str * Counter).

Definition graph_get (g : Graph) (a b : str) : nat :=
  counter_get (alist_get [] a g) b.

(** [g[a][b] += 1] *)
Definition graph_incr (g : Graph) (a b : str) : Graph :=
  alist_update [] (fun c => counter_add c b 1) a g.

(** ** The analysis functions *)

Definition stop_words : list str :=
  map cps
    ["the"; "a"; "an"; "and"; "or"; "but"; "in"; "on"; "at"; "to"; "for";
     "of"; "with"; "by"; "from"; "as"; "is"; "was"; "are"; "were"; "been";
     "be"; "have"; "has"; "had"; "do"; "does"; "did"; "will"; "would";
     "should"; "could"; "may"; "might"; "must"; "can"; "this"; "that";
     "these"; "those"; "i"; "you"; "he"; "she"; "it"; "we"; "they";
     "what"; "which"; "who"; "when"; "where"; "why"; "how"]%string.

Definition marker : str := cps "## Extracted Text".

(** [content.split(marker, 1)]: the text behind the first marker. *)
Definition skip_metadata (content : str) : str :=
  match find_from marker content 0 with
  | Some i => skipn (i + length marker) content
  | None => content
  end.

Section Analysis.
Context {U : Unicode}.

Definition keep_term (w : str) : bool :=
  negb (str_mem w stop_words) && (3 <=? length w).

Definition extract_terms (text : str) : list str :=
  let text := str_lower text in
  let words := findall_words text in
  filter keep_term words.

Fixpoint lstrip (s : str) : str :=
  match s with
  | c :: s' => if is_space c then lstrip s' else s
  | [] => []
  end.

Definition strip (s : str) : str := rev (lstrip (rev (lstrip s))).

(** The [while True] loop of [extract_contexts]; [None] when the
    fuel runs out. *)
Fixpoint contexts_loop (fuel : nat) (window : nat)
         (text text_lower term term_lower : str)
         (pos : nat) (contexts : list str) : option (list str) :=
  match fuel with
  | 0 => None
  | S fuel' =>
      match find text_lower term_lower pos with
      | None => Some contexts
      | Some pos =>
          let start := pos - window in
          let end_ := Nat.min (length text) (pos + length term + window) in
          let context := strip (slice text start end_) in
          contexts_loop fuel' window text text_lower term term_lower
            (pos + length term) (contexts ++ [context])
      end
  end.

Definition extract_contexts_in (window : nat) (text term : str)
  : option (list str) :=
  let text_lower := str_lower text in
  let term_lower := str_lower term in
  option_map (firstn 3)
    (contexts_loop (length text_lower + 2) window text text_lower
       term term_lower 0 []).

Definition extract_contexts : str -> str -> option (list str) :=
  extract_contexts_in 50.

(** The body of the loop over [positions]: [term2] ranges over
    [terms[i+1:]], here [later]. *)
Definition scan_window (window : nat) (text text_lower term1 : str)
           (later : list str) (g : Graph) (pos : nat) : Graph :=
  let window_start := pos - window in
  let window_end := Nat.min (length text) (pos + window) in
  let window_text := slice text_lower window_start window_end in
  fold_left
    (fun g term2 =>
       if contains term2 window_text
       then graph_incr (graph_incr g term1 term2) term2 term1
       else g)
    later g.

(** The loop [for i, term1 in enumerate(terms)], by recursion on the
    list: the tail is [terms[i+1:]]. *)
Fixpoint cooccurrences_loop (window : nat) (text text_lower : str)
         (terms : list str) (g : Graph) : Graph :=
  match terms with
  | [] => g
  | term1 :: later =>
      let positions := word_positions term1 text_lower in
      cooccurrences_loop window text text_lower later
        (fold_left (scan_window window text text_lower term1 later)
           positions g)
  end.

Definition find_cooccurrences_in (window : nat) (text : str)
           (terms : list str) (cooccurrences : Graph) : Graph :=
  cooccurrences_loop window text (str_lower text) terms cooccurrences.

Definition find_cooccurrences : str -> list str -> Graph -> Graph :=
  find_cooccurrences_in 100.

End Analysis.

(** ** Insights *)

Record Related := { related_term : str; strength : nat }.

Record Theme := {
  term : str;
  frequency : nat;
  importance : Q;
  related_terms : list Related;
  sample_contexts : list str
}.

Record Cluster := {
  central_term : str;
  cluster_related_terms : list str;
  cohesion : nat;
  total_mentions : nat
}.

Record Gaps := { count : nat; examples : list str }.

Record Statistics := { unique_terms : nat; total_terms : nat }.

Record Insights := {
  source_file : str;
  dominant_themes : list Theme;
  emerging_themes : list Theme;
  concept_clusters : list Cluster;
  potential_gaps : Gaps;
  corpus_statistics : Statistics
}.

(** The formula [frequency * (1 + 1 / (1 + frequency))] in exact
    rational arithmetic, for comparison; what the code computes and
    stores is [importance_binary64] below. *)
Definition importance_score (frequency : nat) : Q :=
  let f := inject_Z (Z.of_nat frequency) in
  (f * (1 + 1 / (1 + f)))%Q.

(** Rounding to the nearest integer, halves to the even neighbour. *)
Definition round_half_even (x : Q) : Z :=
  let n := Qfloor x in
  match Qcompare (x - inject_Z n) (1 # 2) with
  | Lt => n
  | Gt => (n + 1)%Z
  | Eq => if Z.even n then n else (n + 1)%Z
  end.

(** [round(x, 2)] *)
Definition round2 (x : Q) : Q := Qmake (round_half_even (x * 100)) 100.

(** ** Binary64 *)

(** The nearest binary64 number to a non-negative rational (53
    significant bits, ties to even; the exponent range is not
    modelled, so this is the float of the interpreter below 2^1023). *)
Definition binary64 (x : Q) : Q :=
  match Qnum x with
  | Zpos n =>
      let e1 := (Z.log2 (Zpos n) - Z.log2 (Zpos (Qden x)) - 53)%Z in
      let e :=
        if Qle_bool (Qpower 2 53) (x / Qpower 2 e1) then (e1 + 1)%Z
        else e1 in
      Qred (inject_Z (round_half_even (x / Qpower 2 e)) * Qpower 2 e)
  | _ => 0%Q
  end.

(** [frequency * (1 + (1.0 / (1.0 + frequency)))] as the interpreter
    computes it: the integer is converted to binary64 and every
    operation rounds. *)
Definition importance_binary64 (frequency : nat) : Q :=
  let f := binary64 (inject_Z (Z.of_nat frequency)) in
  binary64 (f * binary64 (1 + binary64 (1 / binary64 (1 + f)))).

(** [round(x, 2)] on a binary64 number: the decimal nearest to the
    exact value of [x], then the binary64 number nearest to it. *)
Definition round2_binary64 (x : Q) : Q :=
  binary64 (Qmake (round_half_even (x * 100)) 100).

Definition importance_lt (x y : Theme) : bool :=
  negb (Qle_bool (importance y) (importance x)).

Section Insights.

Variable term_frequencies : Counter.
Variable term_contexts : list (str * list str).
Variable cooccurrences : Graph.

(** The body of the loop over [term_frequencies.most_common(30)]. *)
Definition theme_of (entry : str * nat) : Theme :=
  let (term, frequency) := entry in
  let related :=
    if alist_mem term cooccurrences then
      map (fun tc => {| related_term := fst tc; strength := snd tc |})
        (most_common 5 (alist_get [] term cooccurrences))
    else [] in
  let contexts := firstn 3 (alist_get [] term term_contexts) in
  let importance := importance_binary64 frequency in
  {| term := term;
     frequency := frequency;
     importance := round2_binary64 importance;
     related_terms := related;
     sample_contexts := contexts |}.

(** [dominant] after [dominant.sort(key=importance, reverse=True)]. *)
Definition ranked_themes : list Theme :=
  sort_desc importance_lt (map theme_of (most_common 30 term_frequencies)).

Definition is_emerging (t : Theme) : bool :=
  (3 <=? frequency t) && (frequency t <=? 10).

(** One round of the loop over [dominant[:20]]; the state is
    [(clusters, processed)]. *)
Definition cluster_step (state : list Cluster * list str) (theme : Theme)
  : list Cluster * list str :=
  let (clusters, processed) := state in
  let term := term theme in
  if str_mem term processed then state
  else
    match related_terms theme with
    | [] => state
    | _ :: _ =>
        let cluster_terms :=
          map related_term (firstn 3 (related_terms theme)) in
        if 0 <? length cluster_terms then
          (clusters
             ++ [{| central_term := term;
                    cluster_related_terms := cluster_terms;
                    cohesion := length cluster_terms + 1;
                    total_mentions :=
                      counter_get term_frequencies term
                      + list_sum
                          (map (counter_get term_frequencies) cluster_terms)
                 |}],
           term :: processed)
        else state
    end.

Definition build_clusters (dominant : list Theme) : list Cluster :=
  fst (fold_left cluster_step (firstn 20 dominant) ([], [])).

Definition single_mentions : list str :=
  map fst (filter (fun tc => snd tc =? 1) term_frequencies).

Definition generate_insights (source_filename : str) : Insights :=
  let dominant := ranked_themes in
  let emerging := firstn 5 (filter is_emerging dominant) in
  let clusters := build_clusters dominant in
  {| source_file := source_filename;
     dominant_themes := firstn 5 dominant;
     emerging_themes := emerging;
     concept_clusters := firstn 5 clusters;
     potential_gaps :=
       {| count := length single_mentions;
          examples := firstn 10 single_mentions |};
     corpus_statistics :=
       {| unique_terms := length term_frequencies;
          total_terms := list_sum (map snd term_frequencies) |} |}.

End Insights.

(** ** The pipeline of [analyze_themes] on the text of one file *)

Section Pipeline.
Context {U : Unicode}.

(** [for term in terms: term_frequencies[term] += 1] *)
Definition count_terms (terms : list str) : Counter :=
  fold_left (fun c t => counter_add c t 1) terms [].

(** [for term in significant_terms:
       term_contexts[term].extend(extract_contexts(content, term))] *)
Fixpoint collect_contexts (content : str) (significant_terms : list str)
         (term_contexts : list (str * list str))
  : option (list (str * list str)) :=
  match significant_terms with
  | [] => Some term_contexts
  | term :: rest =>
      match extract_contexts content term with
      | None => None
      | Some contexts =>
          collect_contexts content rest
            (alist_update [] (fun l => l ++ contexts) term term_contexts)
      end
  end.

Definition significant_terms_of (term_frequencies : Counter) : list str :=
  map fst (most_common 50 term_frequencies).

(** Lines 55 to 85 of the source; [None] stands for a run that does
    not return. *)
Definition analyze_content (content name : str) : option Insights :=
  let content := skip_metadata content in
  let terms := extract_terms content in
  let term_frequencies := count_terms terms in
  let significant_terms := significant_terms_of term_frequencies in
  match collect_contexts content significant_terms [] with
  | None => None
  | Some term_contexts =>
      let cooccurrences :=
        find_cooccurrences content significant_terms [] in
      Some (generate_insights term_frequencies term_contexts cooccurrences
              name)
  end.

End Pipeline.

(** ** The file system and the clock *)

(** A path is its list of components. *)
Definition Path := list str.

Fixpoint path_eqb (p q : Path) : bool :=
  match p, q with
  | [], [] => true
  | a :: p', b :: q' => str_eqb a b && path_eqb p' q'
  | _, _ => false
  end.

(** [p.name] *)
Definition path_name (p : Path) : str := last p [].

(** [p / name] for a [name] without separator *)
Definition path_join (p : Path) (name : str) : Path := p ++ [name].

(** [name.rfind('.')] *)
Fixpoint rfind_dot (s : str) (i : nat) : option nat :=
  match s with
  | [] => None
  | c :: s' =>
      match rfind_dot s' (S i) with
      | Some j => Some j
      | None => if Z.eqb c 46 then Some i else None
      end
  end.

(** [p.stem] *)
Definition path_stem (p : Path) : str :=
  let name := path_name p in
  match rfind_dot name 0 with
  | Some i => if (0 <? i) && (i <? length name - 1) then firstn i name else name
  | None => name
  end.

Definition Time := Z.

Inductive Exception :=
| OSError (message : str)
| UnicodeDecodeError (message : str)
| IsADirectoryError (p : Path)
| FileExistsError (p : Path).

Inductive Node :=
| Missing
| Directory
| Undecodable (message : str)
| Text (content : str).

Record World := {
  nodes : Path -> Node;
  (** [input_dir.glob('*.md')], in the order of the listing *)
  glob_md : Path -> list Path;
  (** the error, if any, that the system raises when this path is
      created or opened for writing: missing access rights, a
      component of the path that is not a directory, a full disk *)
  os_error : Path -> option str;
  (** successive values of [datetime.now()] *)
  clock : nat -> Time;
  ticks : nat
}.

Definition set_node (p : Path) (n : Node) (w : World) : World :=
  {| nodes := fun q => if path_eqb q p then n else nodes w q;
     glob_md := glob_md w;
     os_error := os_error w;
     clock := clock w;
     ticks := ticks w |}.

(** [p.exists()] *)
Definition path_exists (w : World) (p : Path) : bool :=
  match nodes w p with Missing => false | _ => true end.

(** The proper ancestors of a path, from the top: [a/b/c] has [a]
    and [a/b]. *)
Definition ancestors (p : Path) : list Path :=
  map (fun n => firstn n p) (seq 1 (length p - 1)).

(** One step of [parents=True]: a missing ancestor is created. *)
Definition make_directory (w : World) (q : Path) : World :=
  match nodes w q with
  | Missing => set_node q Directory w
  | _ => w
  end.

(** [p.mkdir(parents=True, exist_ok=True)]: a directory that exists is
    left alone; a missing one is created together with its missing
    ancestors. *)
Definition mkdir (p : Path) (w : World) : Exception + World :=
  match os_error w p with
  | Some e => inl (OSError e)
  | None =>
      match nodes w p with
      | Missing =>
          inr (set_node p Directory
                 (fold_left make_directory (ancestors p) w))
      | Directory => inr w
      | _ => inl (FileExistsError p)
      end
  end.

(** [open(p, 'r', encoding='utf-8').read()] on an existing path *)
Definition read_text (p : Path) (w : World) : Exception + str :=
  match nodes w p with
  | Text content => inr content
  | Undecodable e => inl (UnicodeDecodeError e)
  | Directory => inl (IsADirectoryError p)
  | Missing => inl (OSError [])
  end.

(** [open(p, 'w', encoding='utf-8')] followed by the writes *)
Definition write_text (p : Path) (content : str) (w : World)
  : Exception + World :=
  match os_error w p with
  | Some e => inl (OSError e)
  | None =>
      match nodes w p with
      | Directory => inl (IsADirectoryError p)
      | _ => inr (set_node p (Text content) w)
      end
  end.

(** [datetime.now()] *)
Definition now (w : World) : Time * World :=
  (clock w (ticks w),
   {| nodes := nodes w; glob_md := glob_md w; os_error := os_error w;
      clock := clock w; ticks := S (ticks w) |}).

(** ** The two tools *)

Inductive Error :=
| MarkdownNotFound (p : Path)
| DirectoryNotFound (p : Path)
| NoMarkdownFiles (p : Path)
| Raised (e : Exception).

Inductive Response :=
| Failure (error : Error)
| Success (insights : Insights) (json_path markdown_path : Path).

Record Processed := { filename : str; document_insights : Insights }.

Record Failed := { failed_filename : str; failed_error : Error }.

Record Combined := {
  total_documents : nat;
  successful_analyses : nat;
  top_themes_across_corpus : list (str * nat)
}.

Record BatchStats := {
  total_files : nat;
  successful : nat;
  failed_count : nat
}.

Inductive BatchResponse :=
| BatchFailure (error : Error)
| BatchSuccess (processed : list Processed) (failed : list Failed)
    (combined_insights : Combined) (stats : BatchStats).

Section Tools.
Context {U : Unicode}.

(** [json.dump(insights, f, indent=2, ensure_ascii=False)] and the
    text that [generate_markdown_report] writes for a given value of
    [datetime.now()]: the layout of the two files plays no role in
    the analysis and is left open. *)
Variable json_dump : Insights -> str.
Variable markdown_report : Time -> Insights -> str.

Definition generate_markdown_report (insights : Insights)
           (output_path : Path) (w : World) : Exception + World :=
  match os_error w output_path, nodes w output_path with
  | Some e, _ => inl (OSError e)
  | None, Directory => inl (IsADirectoryError output_path)
  | None, _ =>
      let (generated, w) := now w in
      write_text output_path (markdown_report generated insights) w
  end.

(** [None] stands for a run that does not return. *)
Definition analyze_themes (markdown_file output_dir : Path) (w : World)
  : option (Response * World) :=
  match mkdir output_dir w with
  | inl e => Some (Failure (Raised e), w)
  | inr w =>
      if negb (path_exists w markdown_file) then
        Some (Failure (MarkdownNotFound markdown_file), w)
      else
        match read_text markdown_file w with
        | inl e => Some (Failure (Raised e), w)
        | inr content =>
            match analyze_content content (path_name markdown_file) with
            | None => None
            | Some insights =>
                let base_name := path_stem markdown_file in
                let json_path :=
                  path_join output_dir (base_name ++ cps "_themes.json") in
                match write_text json_path (json_dump insights) w with
                | inl e => Some (Failure (Raised e), w)
                | inr w =>
                    let md_path :=
                      path_join output_dir
                        (base_name ++ cps "_report.md") in
                    match generate_markdown_report insights md_path w with
                    | inl e => Some (Failure (Raised e), w)
                    | inr w => Some (Success insights json_path md_path, w)
                    end
                end
            end
        end
  end.

(** [for theme in insights.get('dominant_themes', []):
       all_term_frequencies[theme['term']] += theme['frequency']] *)
Definition accumulate (all_term_frequencies : Counter) (insights : Insights)
  : Counter :=
  fold_left
    (fun c theme => counter_add c (term theme) (frequency theme))
    (dominant_themes insights) all_term_frequencies.

Record BatchState := {
  st_world : World;
  st_processed : list Processed;
  st_failed : list Failed;
  st_frequencies : Counter
}.

(** The loop over [md_files]. *)
Fixpoint batch_loop (md_files : list Path) (output_dir : Path)
         (st : BatchState) : option BatchState :=
  match md_files with
  | [] => Some st
  | md_file :: rest =>
      match analyze_themes md_file output_dir (st_world st) with
      | None => None
      | Some (Success insights _ _, w) =>
          batch_loop rest output_dir
            {| st_world := w;
               st_processed :=
                 st_processed st
                   ++ [{| filename := path_name md_file;
                          document_insights := insights |}];
               st_failed := st_failed st;
               st_frequencies := accumulate (st_frequencies st) insights |}
      | Some (Failure error, w) =>
          batch_loop rest output_dir
            {| st_world := w;
               st_processed := st_processed st;
               st_failed :=
                 st_failed st
                   ++ [{| failed_filename := path_name md_file;
                          failed_error := error |}];
               st_frequencies := st_frequencies st |}
      end
  end.

Definition analyze_themes_batch (input_dir output_dir : Path) (w : World)
  : option (BatchResponse * World) :=
  match mkdir output_dir w with
  | inl e => Some (BatchFailure (Raised e), w)
  | inr w =>
      if negb (path_exists w input_dir) then
        Some (BatchFailure (DirectoryNotFound input_dir), w)
      else
        let md_files := glob_md w input_dir in
        match md_files with
        | [] => Some (BatchFailure (NoMarkdownFiles input_dir), w)
        | _ :: _ =>
            match
              batch_loop md_files output_dir
                {| st_world := w; st_processed := []; st_failed := [];
                   st_frequencies := [] |}
            with
            | None => None
            | Some st =>
                Some
                  (BatchSuccess (st_processed st) (st_failed st)
                     {| total_documents := length md_files;
                        successful_analyses := length (st_processed st);
                        top_themes_across_corpus :=
                          most_common 20 (st_frequencies st) |}
                     {| total_files := length md_files;
                        successful := length (st_processed st);
                        failed_count := length (st_failed st) |},
                   st_world st)
            end
        end
  end.

End Tools.

(** * Notions used in the statements *)

Definition symmetric (g : Graph) : Prop :=
  forall a b, graph_get g a b = graph_get g b a.

Section CooccurrenceNotions.
Context {U : Unicode}.

(** [text_lower[window_start:window_end]] around [pos]. *)
Definition window_text (window : nat) (text text_lower : str) (pos : nat)
  : str :=
  slice text_lower (pos - window) (Nat.min (length text) (pos + window)).

(** [\b] at index [i] of [s], told from the indices alone. *)
Definition boundary_at (s : str) (i : nat) : bool :=
  xorb
    (word_opt (match i with 0 => None | S j => nth_error s j end))
    (word_opt (nth_error s i)).

(** [term] stands at index [i] of [s] as a whole word. *)
Definition whole_word_at (s term : str) (i : nat) : bool :=
  boundary_at s i && starts_with term (skipn i s)
  && boundary_at s (i + length term).

Definition whole_word_occurrences (term s : str) : list nat :=
  filter (whole_word_at s term) (seq 0 (S (length s))).

(** The pairs [(term1, term2)] in the order in which the loops of
    [find_cooccurrences] reach the two increments. *)
Fixpoint pair_events (window : nat) (text text_lower : str)
         (terms : list str) : list (str * str) :=
  match terms with
  | [] => []
  | term1 :: later =>
      flat_map
        (fun pos =>
           map (pair term1)
             (filter
                (fun term2 =>
                   contains term2 (window_text window text text_lower pos))
                later))
        (word_positions term1 text_lower)
      ++ pair_events window text text_lower later
  end.

Definition is_pair (a b : str) (e : str * str) : bool :=
  str_eqb (fst e) a && str_eqb (snd e) b.

(** The reading of the specification: around every whole-word
    occurrence of every term, every other term found in the window
    counts once for the pair. *)
Definition claimed_events (window : nat) (text : str) (terms : list str)
  : list (str * str) :=
  let text_lower := str_lower text in
  flat_map
    (fun term1 =>
       flat_map
         (fun pos =>
            map (pair term1)
              (filter
                 (fun term2 =>
                    negb (str_eqb term2 term1)
                    && contains term2
                         (window_text window text text_lower pos))
                 terms))
         (whole_word_occurrences term1 text_lower))
    terms.

Definition claimed_count (window : nat) (text : str) (terms : list str)
           (a b : str) : nat :=
  let events := claimed_events window text terms in
  length (filter (is_pair a b) events) + length (filter (is_pair b a) events).

End CooccurrenceNotions.

(** The character before index [i] of [s]. *)
Definition prev_at (s : str) (i : nat) : option char :=
  match i with 0 => None | S j => nth_error s j end.

Section TermNotions.
Context {U : Unicode}.

Definition add_run (run : str) (runs : list str) : list str :=
  match run with [] => runs | _ :: _ => run :: runs end.

(** [split_runs p s] is the run of [p]-characters at the head of [s]
    (possibly empty) and the maximal runs after it. *)
Fixpoint split_runs (p : char -> bool) (s : str) : str * list str :=
  match s with
  | [] => ([], [])
  | c :: s' =>
      let (run, runs) := split_runs p s' in
      if p c then (c :: run, runs) else ([], add_run run runs)
  end.

(** The maximal runs of [p]-characters of [s], in the order of [s]. *)
Definition maximal_runs (p : char -> bool) (s : str) : list str :=
  let (run, runs) := split_runs p s in add_run run runs.

(** The words of [s] (maximal runs of word characters) that consist
    of letters of the alphabet only. *)
Definition letter_words (s : str) : list str :=
  filter (forallb in_alphabet) (maximal_runs is_word s).

(** The reading of the specification: the maximal runs of letters of
    the alphabet, without the short ones and the stop words. *)
Definition claimed_terms (text : str) : list str :=
  filter keep_term (maximal_runs in_alphabet (str_lower text)).

End TermNotions.

(** The distinct elements of [l] in the order of their first
    occurrence. *)
Fixpoint first_occurrences (l : list str) : list str :=
  match l with
  | [] => []
  | x :: l' => x :: filter (fun y => negb (str_eqb y x)) (first_occurrences l')
  end.

(** How often [t] occurs in [l]. *)
Definition occurrences (t : str) (l : list str) : nat :=
  length (filter (str_eqb t) l).

Definition add_one (c : Counter) (t : str) : Counter := counter_add c t 1.

Definition incr_pair (g : Graph) (e : str * str) : Graph :=
  graph_incr (graph_incr g (fst e) (snd e)) (snd e) (fst e).

(** [not_lt lt x y]: the key of [x] is not below the key of [y]. *)
Definition not_lt {A : Type} (lt : A -> A -> bool) (x y : A) : Prop :=
  lt x y = false.

(** The shape of a cluster record for a given frequency table. *)
Definition well_formed_cluster (term_frequencies : Counter) (c : Cluster)
  : Prop :=
  1 <= length (cluster_related_terms c) <= 3
  /\ cohesion c = length (cluster_related_terms c) + 1
  /\ total_mentions c
     = counter_get term_frequencies (central_term c)
       + list_sum
           (map (counter_get term_frequencies) (cluster_related_terms c)).

(** The invariant of the loop that builds the clusters: the central
    terms are the processed terms, each once. *)
Definition cluster_invariant (term_frequencies : Counter)
           (state : list Cluster * list str) : Prop :=
  map central_term (fst state) = rev (snd state)
  /\ NoDup (snd state)
  /\ Forall (well_formed_cluster term_frequencies) (fst state).

Definition empty_insights (source_filename : str) : Insights :=
  {| source_file := source_filename;
     dominant_themes := [];
     emerging_themes := [];
     concept_clusters := [];
     potential_gaps := {| count := 0; examples := [] |};
     corpus_statistics := {| unique_terms := 0; total_terms := 0 |} |}.

(** A text in which "cat" stands once as a word and once inside
    "concatenate", more than 50 characters further on. *)
Definition cat_text : str :=
  cps "cat " ++ concat (repeat (cps ". ") 30) ++ cps "concatenate".

(** ** Small worlds for the examples *)

Fixpoint lookup_path {V : Type} (p : Path) (m : list (Path * V)) : option V :=
  match m with
  | [] => None
  | (q, v) :: m' => if path_eqb p q then Some v else lookup_path p m'
  end.

(** [name.endswith(".md")] *)
Definition is_markdown (name : str) : bool :=
  str_eqb (skipn (length name - 3) name) (cps ".md").

(** A world with the given directories and text files, in which no
    operation raises, and with the given clock. *)
Definition world_of (dirs : list Path) (files : list (Path * str))
           (time : nat -> Time) : World :=
  {| nodes :=
       fun p =>
         match lookup_path p files with
         | Some content => Text content
         | None => if existsb (path_eqb p) dirs then Directory else Missing
         end;
     glob_md :=
       fun d =>
         filter
           (fun p => path_eqb (removelast p) d && is_markdown (path_name p))
           (map fst files);
     os_error := fun _ => None;
     clock := time;
     ticks := 0 |}.

(** Stand-ins for the two renderings in the examples: the JSON file
    holds the name of the source, the report its time stamp. *)
Definition no_json (i : Insights) : str := source_file i.
Definition no_report (generated : Time) (_ : Insights) : str := [generated].

Definition empty_world (time : nat -> Time) : World :=
  world_of [[cps "in"]] [([cps "in"; cps "empty.md"], [])] time.

Definition democracy_5 : str :=
  cps "Democracy needs debate. Democracy, democracy, DEMOCRACY and democracy!".

Definition democracy_3 : str :=
  cps "A democracy votes; democracy counts votes, democracy wins elections fairly.".

Definition corpus_world : World :=
  world_of [[cps "in"]]
    [([cps "in"; cps "a.md"], democracy_5);
     ([cps "in"; cps "b.md"], democracy_3);
     ([cps "in"; cps "notes.txt"], cps "democracy democracy")]
    (fun n => Z.of_nat n).

(** The combined ranking of a batch response. *)
Definition corpus_ranking (r : option (BatchResponse * World))
  : option (list (str * nat)) :=
  match r with
  | Some (BatchSuccess _ _ combined _, _) =>
      Some (top_themes_across_corpus combined)
  | _ => None
  end.

(** Two worlds agree except on the nodes of the paths in [ps]. *)
Definition same_but (ps : list Path) (w w' : World) : Prop :=
  os_error w' = os_error w
  /\ forall q, ~ In q ps -> nodes w' q = nodes w q.

(** A second world with the same file [in/a.md], another clock and
    other files around it. *)
Definition other_world : World :=
  world_of [[cps "in"]; [cps "out"]]
    [([cps "in"; cps "a.md"], democracy_5);
     ([cps "out"; cps "a_report.md"], cps "an older report")]
    (fun _ => 1000%Z).

(** ** Notions for the corpus ranking *)

(** The frequency that the dominant themes of one document record for
    [t] (0 when [t] is not among them). *)
Definition theme_frequency (t : str) (insights : Insights) : nat :=
  list_sum
    (map frequency
       (filter (fun theme => str_eqb (term theme) t)
          (dominant_themes insights))).

(** Its sum over the documents analysed with success. *)
Definition summed_frequency (t : str) (processed : list Processed) : nat :=
  list_sum
    (map (fun d => theme_frequency t (document_insights d)) processed).

(** [t] is a dominant theme of one of the documents. *)
Definition is_dominant_in (processed : list Processed) (t : str) : Prop :=
  exists d theme,
    In d processed /\ In theme (dominant_themes (document_insights d))
    /\ term theme = t.

Definition add_theme (c : Counter) (theme : Theme) : Counter :=
  counter_add c (term theme) (frequency theme).

Definition add_document (c : Counter) (d : Processed) : Counter :=
  fold_left add_theme (dominant_themes (document_insights d)) c.

(** The table [all_term_frequencies] after the documents in
    [processed]. *)
Definition corpus_frequencies (processed : list Processed) : Counter :=
  fold_left add_document processed [].



(** ** Notions for the bounds on binary64 *)

(** [2^k] and half the spacing of binary64 numbers near 1. *)
Definition pow2 (k : Z) : Q := Qpower 2 k.

Definition ulp_half : Q := Qmake 1 9007199254740992.

(** ** Notions used for the context snippets *)

Section SnippetNotions.
Context {U : Unicode}.

(** A string with no white space at either end. *)
Definition stripped (s : str) : Prop :=
  (forall c r, s = c :: r -> is_space c = false)
  /\ (forall c r, s = r ++ [c] -> is_space c = false).

(** The snippet that [extract_contexts] cuts around position [pos]. *)
Definition snippet_at (window : nat) (text term : str) (pos : nat) : str :=
  strip (slice text (pos - window)
           (Nat.min (length text) (pos + length term + window))).

End SnippetNotions.

(** ** Notions used for the batch *)

Section BatchNotions.
Context {U : Unicode}.

(** The entry [p] of [processed] records the analysis of the text of
    one of the files [md_files], as it stands in the world [w]. *)
Definition analysis_of (w : World) (md_files : list Path) (p : Processed)
  : Prop :=
  exists md_file content,
    In md_file md_files
    /\ filename p = path_name md_file
    /\ nodes w md_file = Text content
    /\ analyze_content content (path_name md_file)
       = Some (document_insights p).

End BatchNotions.

(** ** Notions used for related terms and clusters *)

(** [cooccurrences[t]]: the terms counted with [t] and their counts. *)
Definition neighbours (g : Graph) (t : str) : Counter := alist_get [] t g.

Definition has_neighbours (g : Graph) (t : str) : bool :=
  match neighbours g t with [] => false | _ :: _ => true end.

(** A counter with distinct keys and no count of 0. *)
Definition positive_counter (c : Counter) : Prop :=
  NoDup (map fst c) /\ Forall (fun e => 1 <= snd e) c.

Definition graph_invariant (g : Graph) : Prop :=
  NoDup (map fst g) /\ Forall (fun e => positive_counter (snd e)) g.

Definition has_related (theme : Theme) : bool :=
  match related_terms theme with [] => false | _ :: _ => true end.

(** The cluster that [cluster_step] appends for a theme. *)
Definition cluster_of (term_frequencies : Counter) (theme : Theme)
  : Cluster :=
  let cluster_terms := map related_term (firstn 3 (related_terms theme)) in
  {| central_term := term theme;
     cluster_related_terms := cluster_terms;
     cohesion := length cluster_terms + 1;
     total_mentions :=
       counter_get term_frequencies (term theme)
       + list_sum (map (counter_get term_frequencies) cluster_terms) |}.

Definition related_of (entry : str * nat) : Related :=
  {| related_term := fst entry; strength := snd entry |}.

(** ** Notions for the ranking *)

(** The frequencies up to which the binary64 scores are shown to
    keep the order of the frequencies. *)
Definition frequency_bound : Z := (2 ^ 40)%Z.

(** A table all of whose counts are at most [frequency_bound]. *)
Definition bounded (c : Counter) : Prop :=
  Forall (fun e => (Z.of_nat (snd e) <= frequency_bound)%Z) c.

(** [x] is not ranked below [y]: its stored score is at least that of
    [y]. *)
Definition importance_ge (x y : Theme) : Prop :=
  (importance y <= importance x)%Q.

(** ** Notions for the directories that [mkdir] makes *)

(** [q] is [p] or one of its proper ancestors. *)
Definition on_the_way (p q : Path) : Prop := In q (ancestors p) \/ q = p.

(** The node of a path after a [mkdir] that passed over it. *)
Definition made (n : Node) : Node :=
  match n with Missing => Directory | _ => n end.

(** * Properties *)

(** ** Strings and association lists *)

Lemma str_eqb_eq (s t : str) : str_eqb s t = true <-> s = t.
Proof.
  revert t. induction s as [|c s IH]; intros [|d t]; simpl; split;
    try congruence; try easy.
  - rewrite andb_true_iff, Z.eqb_eq, IH. intros [-> ->]. reflexivity.
  - intros [= -> ->]. rewrite Z.eqb_refl. apply IH. reflexivity.
Qed.

Lemma str_eqb_refl (s : str) : str_eqb s s = true.
Proof. apply str_eqb_eq. reflexivity. Qed.

Lemma str_eqb_neq (s t : str) : str_eqb s t = false <-> s <> t.
Proof.
  rewrite <- str_eqb_eq. destruct (str_eqb s t); split; congruence.
Qed.

Lemma str_eqb_sym (s t : str) : str_eqb s t = str_eqb t s.
Proof.
  destruct (str_eqb s t) eqn:E; symmetry.
  - apply str_eqb_eq. symmetry. apply str_eqb_eq. exact E.
  - apply str_eqb_neq. intros ->. apply str_eqb_neq in E. congruence.
Qed.

Lemma str_eq_dec (s t : str) : {s = t} + {s <> t}.
Proof. apply list_eq_dec, Z.eq_dec. Qed.

Lemma str_mem_In (s : str) (l : list str) : str_mem s l = true <-> In s l.
Proof.
  unfold str_mem. rewrite existsb_exists. split.
  - intros [x [Hx E]]. apply str_eqb_eq in E. congruence.
  - intros H. exists s. split; [exact H | apply str_eqb_refl].
Qed.

Section AListFacts.
Context {V : Type}.
Implicit Types (m : list (str * V)) (k : str).

Lemma alist_get_update d f k k' m :
  alist_get d k' (alist_update d f k m)
  = if str_eqb k' k then f (alist_get d k m) else alist_get d k' m.
Proof.
  induction m as [|[k0 v] m IH]; simpl.
  - destruct (str_eqb k' k); reflexivity.
  - destruct (str_eqb k k0) eqn:E; simpl.
    + apply str_eqb_eq in E. subst k0.
      destruct (str_eqb k' k); reflexivity.
    + rewrite IH. destruct (str_eqb k' k) eqn:E'; [|reflexivity].
      apply str_eqb_eq in E'. subst k'. rewrite E. reflexivity.
Qed.

Lemma alist_mem_In k m : alist_mem k m = true <-> In k (map fst m).
Proof.
  induction m as [|[k0 v] m IH]; simpl; [easy|].
  rewrite orb_true_iff, IH, str_eqb_eq. intuition congruence.
Qed.

Lemma alist_update_keys d f k m :
  map fst (alist_update d f k m)
  = if alist_mem k m then map fst m else map fst m ++ [k].
Proof.
  induction m as [|[k0 v] m IH]; simpl; [reflexivity|].
  destruct (str_eqb k k0); simpl; [reflexivity|].
  rewrite IH. destruct (alist_mem k m); reflexivity.
Qed.

End AListFacts.

Lemma counter_get_add c k n k' :
  counter_get (counter_add c k n) k'
  = counter_get c k' + (if str_eqb k' k then n else 0).
Proof.
  unfold counter_get, counter_add. rewrite alist_get_update.
  destruct (str_eqb k' k) eqn:E; [|lia].
  apply str_eqb_eq in E. subst. reflexivity.
Qed.

Lemma graph_get_incr g a b x y :
  graph_get (graph_incr g a b) x y
  = graph_get g x y + (if str_eqb x a && str_eqb y b then 1 else 0).
Proof.
  unfold graph_get, graph_incr. rewrite alist_get_update.
  destruct (str_eqb x a) eqn:E; simpl; [|lia].
  apply str_eqb_eq in E. subst. apply counter_get_add.
Qed.

(** ** The co-occurrence graph *)

Lemma symmetric_nil : symmetric [].
Proof. intros a b. reflexivity. Qed.

Lemma symmetric_incr2 g a b :
  symmetric g -> symmetric (graph_incr (graph_incr g a b) b a).
Proof.
  intros H x y. rewrite !graph_get_incr, (H x y).
  destruct (str_eqb x a), (str_eqb y b), (str_eqb x b), (str_eqb y a);
    simpl; lia.
Qed.

Section Cooccurrence.
Context {U : Unicode}.

Lemma symmetric_scan_window window text text_lower term1 later pos g :
  symmetric g ->
  symmetric (scan_window window text text_lower term1 later g pos).
Proof.
  unfold scan_window. revert g.
  induction later as [|term2 later IH]; intros g H; simpl; [exact H|].
  apply IH. destruct (contains term2 _); [apply symmetric_incr2|]; exact H.
Qed.

Lemma symmetric_positions window text text_lower term1 later positions g :
  symmetric g ->
  symmetric
    (fold_left (scan_window window text text_lower term1 later) positions g).
Proof.
  revert g. induction positions as [|pos positions IH]; intros g H; simpl.
  - exact H.
  - apply IH, symmetric_scan_window, H.
Qed.

Lemma symmetric_loop window text text_lower terms g :
  symmetric g ->
  symmetric (cooccurrences_loop window text text_lower terms g).
Proof.
  revert g. induction terms as [|term1 later IH]; intros g H; simpl.
  - exact H.
  - apply IH, symmetric_positions, H.
Qed.

(** C1. The graph that [find_cooccurrences] builds from the empty
    graph is symmetric: for all terms [a] and [b] the count stored
    under [graph[a][b]] equals the one under [graph[b][a]], where a
    missing entry reads as 0. *)
Theorem find_cooccurrences_symmetric (text : str) (terms : list str)
        (a b : str) :
  graph_get (find_cooccurrences text terms []) a b
  = graph_get (find_cooccurrences text terms []) b a.
Proof.
  apply symmetric_loop, symmetric_nil.
Qed.

End Cooccurrence.

(** *** What the loops count *)

Lemma graph_get_events (events : list (str * str)) (g : Graph) (x y : str) :
  graph_get (fold_left incr_pair events g) x y
  = graph_get g x y
    + length (filter (is_pair x y) events)
    + length (filter (is_pair y x) events).
Proof.
  revert g. induction events as [|[a b] events IH]; intros g; simpl.
  - lia.
  - rewrite IH. unfold incr_pair, is_pair. simpl.
    rewrite !graph_get_incr.
    destruct (str_eqb a x) eqn:E1, (str_eqb b y) eqn:E2,
             (str_eqb a y) eqn:E3, (str_eqb b x) eqn:E4;
      rewrite ?(str_eqb_sym x a), ?(str_eqb_sym y b), ?(str_eqb_sym x b),
        ?(str_eqb_sym y a), ?E1, ?E2, ?E3, ?E4; simpl; lia.
Qed.

Section CooccurrenceCount.
Context {U : Unicode}.

Lemma scan_window_events window text text_lower term1 later g pos :
  scan_window window text text_lower term1 later g pos
  = fold_left incr_pair
      (map (pair term1)
         (filter
            (fun term2 =>
               contains term2 (window_text window text text_lower pos))
            later))
      g.
Proof.
  unfold scan_window, window_text. revert g.
  induction later as [|term2 later IH]; intros g; simpl; [reflexivity|].
  rewrite IH. destruct (contains term2 _); reflexivity.
Qed.

Lemma loop_events window text text_lower terms g :
  cooccurrences_loop window text text_lower terms g
  = fold_left incr_pair (pair_events window text text_lower terms) g.
Proof.
  revert g. induction terms as [|term1 later IH]; intros g; simpl.
  - reflexivity.
  - rewrite IH, fold_left_app. f_equal.
    generalize (word_positions term1 text_lower) as positions.
    intros positions. revert g.
    induction positions as [|pos positions IHp]; intros g; simpl.
    + reflexivity.
    + rewrite fold_left_app, <- scan_window_events. apply IHp.
Qed.

End CooccurrenceCount.

Lemma filter_nil_iff {A : Type} (p : A -> bool) (l : list A) :
  (forall x, In x l -> p x = false) -> filter p l = [].
Proof.
  induction l as [|x l IH]; intros H; simpl; [reflexivity|].
  rewrite (H x (or_introl eq_refl)). apply IH. intros y Hy. apply H. now right.
Qed.

Lemma filter_length_app {A : Type} (p : A -> bool) (l1 l2 : list A) :
  length (filter p (l1 ++ l2)) = length (filter p l1) + length (filter p l2).
Proof. rewrite filter_app, length_app. reflexivity. Qed.

Lemma count_pair_once (q : str -> bool) (a b : str) (later : list str) :
  NoDup later -> In b later ->
  length (filter (is_pair a b) (map (pair a) (filter q later)))
  = if q b then 1 else 0.
Proof.
  induction later as [|t later IH]; intros Hnd Hin; [easy|].
  inversion Hnd as [|? ? Hnotin Hnd']; subst.
  assert (Hrest : ~ In b later ->
                  filter (is_pair a b) (map (pair a) (filter q later)) = []).
  { intros Hb. apply filter_nil_iff. intros [x y] Hxy.
    apply in_map_iff in Hxy. destruct Hxy as [t' [[= <- <-] Ht']].
    apply filter_In in Ht'. unfold is_pair. simpl.
    apply andb_false_iff. right. apply str_eqb_neq. intros ->. tauto. }
  destruct Hin as [-> | Hin].
  - simpl. destruct (q b); simpl.
    + unfold is_pair at 1. simpl. rewrite !str_eqb_refl. simpl.
      rewrite Hrest by exact Hnotin. reflexivity.
    + rewrite Hrest by exact Hnotin. reflexivity.
  - simpl. destruct (q t); simpl.
    + unfold is_pair at 1. simpl.
      assert (E : str_eqb t b = false).
      { apply str_eqb_neq. intros ->. tauto. }
      rewrite E, andb_false_r. apply IH; assumption.
    + apply IH; assumption.
Qed.

Section CooccurrenceOrder.
Context {U : Unicode}.
Variables (window : nat) (text text_lower : str).

Lemma pair_events_fst x y terms :
  In (x, y) (pair_events window text text_lower terms) -> In x terms.
Proof.
  induction terms as [|term1 later IH]; simpl; [easy|].
  rewrite in_app_iff, in_flat_map. intros [[pos [_ H]] | H].
  - apply in_map_iff in H. destruct H as [t [[= <- <-] _]]. now left.
  - right. apply IH, H.
Qed.

Lemma pair_events_snd x y terms :
  In (x, y) (pair_events window text text_lower terms) -> In y terms.
Proof.
  induction terms as [|term1 later IH]; simpl; [easy|].
  rewrite in_app_iff, in_flat_map. intros [[pos [_ H]] | H].
  - apply in_map_iff in H. destruct H as [t [[= <- <-] Ht]].
    apply filter_In in Ht. right. tauto.
  - right. apply IH, H.
Qed.

Lemma no_events x y terms :
  ~ In x terms \/ ~ In y terms ->
  filter (is_pair x y) (pair_events window text text_lower terms) = [].
Proof.
  intros H. apply filter_nil_iff. intros [x' y'] Hin. unfold is_pair. simpl.
  destruct (str_eqb x' x) eqn:Ex, (str_eqb y' y) eqn:Ey; try reflexivity.
  apply str_eqb_eq in Ex, Ey. subst. exfalso.
  destruct H as [H | H]; apply H.
  - eapply pair_events_fst, Hin.
  - eapply pair_events_snd, Hin.
Qed.

Lemma no_events_from c x y (f : nat -> list str) positions :
  c <> x ->
  filter (is_pair x y) (flat_map (fun pos => map (pair c) (f pos)) positions)
  = [].
Proof.
  intros Hc. apply filter_nil_iff. intros [x' y'] Hin.
  apply in_flat_map in Hin. destruct Hin as [pos [_ Hin]].
  apply in_map_iff in Hin. destruct Hin as [t [[= <- <-] _]].
  unfold is_pair. simpl. apply andb_false_iff. left.
  apply str_eqb_neq, Hc.
Qed.

Lemma count_events_head a b later :
  NoDup later -> In b later ->
  length
    (filter (is_pair a b)
       (flat_map
          (fun pos =>
             map (pair a)
               (filter
                  (fun term2 =>
                     contains term2
                       (window_text window text text_lower pos))
                  later))
          (word_positions a text_lower)))
  = length
      (filter
         (fun pos => contains b (window_text window text text_lower pos))
         (word_positions a text_lower)).
Proof.
  intros Hnd Hin.
  induction (word_positions a text_lower) as [|pos positions IH]; simpl.
  - reflexivity.
  - rewrite filter_length_app, IH, count_pair_once by assumption.
    destruct (contains b _); reflexivity.
Qed.

Lemma count_events_ordered l1 a l2 b :
  NoDup (l1 ++ a :: l2) -> In b l2 ->
  length
    (filter (is_pair a b)
       (pair_events window text text_lower (l1 ++ a :: l2)))
  = length
      (filter
         (fun pos => contains b (window_text window text text_lower pos))
         (word_positions a text_lower))
  /\ filter (is_pair b a)
       (pair_events window text text_lower (l1 ++ a :: l2)) = [].
Proof.
  induction l1 as [|c l1 IH]; intros Hnd Hin; simpl in *.
  - inversion Hnd as [|? ? Hnotin Hnd']; subst.
    assert (Hab : a <> b) by (intros ->; tauto).
    split.
    + rewrite filter_length_app, count_events_head by assumption.
      rewrite no_events by (left; exact Hnotin). simpl. lia.
    + rewrite filter_app, no_events_from by exact Hab.
      rewrite no_events by (right; exact Hnotin). reflexivity.
  - inversion Hnd as [|? ? Hnotin Hnd']; subst.
    destruct (IH Hnd' Hin) as [IH1 IH2].
    assert (Hca : c <> a).
    { intros ->. apply Hnotin, in_or_app. right. now left. }
    assert (Hcb : c <> b).
    { intros ->. apply Hnotin, in_or_app. right. now right. }
    split.
    + rewrite filter_length_app, no_events_from by exact Hca. exact IH1.
    + rewrite filter_app, no_events_from by exact Hcb. exact IH2.
Qed.

End CooccurrenceOrder.

(** *** The scanner for a term finds the whole-word occurrences *)

Lemma skipn_cons_inv {A : Type} (i : nat) (s : list A) (c : A) (rest : list A) :
  skipn i s = c :: rest ->
  nth_error s i = Some c /\ skipn (S i) s = rest /\ i < length s.
Proof.
  intros H. split; [|split].
  - rewrite <- hd_error_skipn, H. reflexivity.
  - replace (S i) with (1 + i) by lia. rewrite <- skipn_skipn, H. reflexivity.
  - destruct (Nat.lt_ge_cases i (length s)) as [Hlt | Hge]; [exact Hlt|].
    rewrite skipn_all2 in H by exact Hge. discriminate.
Qed.

Lemma starts_with_length (p s : str) :
  starts_with p s = true -> length p <= length s.
Proof.
  revert s. induction p as [|c p IH]; intros [|d s]; simpl; try lia; try easy.
  rewrite andb_true_iff. intros [_ H]. apply IH in H. lia.
Qed.

Lemma starts_with_nth (p s : str) (j : nat) (c : char) :
  starts_with p s = true -> nth_error p j = Some c -> nth_error s j = Some c.
Proof.
  revert s j. induction p as [|d p IH]; intros [|e s] [|j]; simpl; try easy.
  - rewrite andb_true_iff, Z.eqb_eq. intros [-> _] H. exact H.
  - rewrite andb_true_iff. intros [_ H]. apply IH, H.
Qed.

Section Scanner.
Context {U : Unicode}.

Lemma char_before_at (s : str) (i k : nat) :
  char_before (prev_at s i) (skipn i s) k = prev_at s (i + k).
Proof.
  destruct k as [|j]; simpl.
  - rewrite Nat.add_0_r. reflexivity.
  - rewrite nth_error_skipn, Nat.add_succ_r. reflexivity.
Qed.

Lemma boundary_at_suffix (s : str) (i k : nat) :
  boundary (prev_at s i) (skipn i s) k = boundary_at s (i + k).
Proof.
  unfold boundary. rewrite char_before_at, nth_error_skipn.
  reflexivity.
Qed.

Lemma match_term_at (s term : str) (i : nat) :
  match_term term (prev_at s i) (skipn i s) = whole_word_at s term i.
Proof.
  unfold match_term, whole_word_at.
  rewrite !boundary_at_suffix, Nat.add_0_r. reflexivity.
Qed.

(** No word boundary falls inside an occurrence of a term made of
    word characters. *)
Lemma no_boundary_inside (s term : str) (i j : nat) :
  forallb is_word term = true ->
  starts_with term (skipn i s) = true ->
  0 < j < length term ->
  boundary_at s (i + j) = false.
Proof.
  intros Hw Hs Hj. unfold boundary_at.
  assert (Hnth : forall m, m < length term ->
                   word_opt (nth_error s (i + m)) = true).
  { intros m Hm.
    destruct (nth_error term m) as [c|] eqn:E.
    - rewrite <- nth_error_skipn, (starts_with_nth _ _ _ _ Hs E). simpl.
      rewrite forallb_forall in Hw. apply Hw. eapply nth_error_In, E.
    - apply nth_error_None in E. lia. }
  destruct j as [|j]; [lia|].
  assert (H1 := Hnth j). assert (H2 := Hnth (S j)).
  rewrite Nat.add_succ_r in *. cbn [prev_at].
  rewrite H1, H2 by lia. reflexivity.
Qed.

Lemma finditer_term_complete (s term : str) :
  term <> [] -> forallb is_word term = true ->
  forall fuel i,
    i <= length s -> length s - i < fuel ->
    finditer_term fuel term (prev_at s i) i (skipn i s)
    = filter (whole_word_at s term) (seq i (S (length s) - i)).
Proof.
  intros Hne Hw. induction fuel as [|fuel IH]; intros i Hi Hf; [lia|].
  replace (S (length s) - i) with (S (length s - i)) by lia.
  cbn [finditer_term seq filter].
  rewrite match_term_at.
  assert (Hnext :
            match skipn i s with
            | [] => []
            | c :: rest' => finditer_term fuel term (Some c) (S i) rest'
            end
            = filter (whole_word_at s term) (seq (S i) (length s - i))).
  { destruct (skipn i s) as [|c rest'] eqn:Es.
    - assert (length s <= i).
      { rewrite <- (firstn_skipn i s), Es, app_nil_r.
        rewrite length_firstn. lia. }
      replace (length s - i) with 0 by lia. reflexivity.
    - apply skipn_cons_inv in Es. destruct Es as [Hc [Hr Hlt]].
      specialize (IH (S i)). simpl prev_at in IH. rewrite Hc, Hr in IH.
      rewrite IH by lia. replace (S (length s) - S i) with (length s - i) by lia.
      reflexivity. }
  destruct (whole_word_at s term i) eqn:Em; [|exact Hnext].
  f_equal. destruct term as [|c term']; [congruence|].
  cbn [length].
  set (n := S (length term')).
  assert (Hs : starts_with (c :: term') (skipn i s) = true).
  { unfold whole_word_at in Em. rewrite !andb_true_iff in Em. tauto. }
  assert (Hlen : i + n <= length s).
  { apply starts_with_length in Hs. rewrite length_skipn in Hs.
    cbn [length] in Hs. unfold n. lia. }
  rewrite char_before_at, skipn_skipn, (Nat.add_comm n i).
  rewrite IH by lia.
  replace (length s - i) with ((n - 1) + (S (length s) - (i + n))) by lia.
  rewrite seq_app, filter_app.
  replace (S i + (n - 1)) with (i + n) by lia.
  rewrite (filter_nil_iff _ (seq (S i) (n - 1))); [reflexivity|].
  intros j Hj. apply in_seq in Hj. unfold whole_word_at.
  replace j with (i + (j - i)) by lia.
  rewrite (no_boundary_inside s (c :: term') i (j - i) Hw Hs).
  - reflexivity.
  - cbn [length]. fold n. lia.
Qed.

Lemma word_positions_complete (s term : str) :
  term <> [] -> forallb is_word term = true ->
  word_positions term s = whole_word_occurrences term s.
Proof.
  intros Hne Hw. unfold word_positions, whole_word_occurrences.
  assert (H := finditer_term_complete s term Hne Hw (S (length s)) 0).
  cbn [prev_at skipn] in H. rewrite H by lia.
  rewrite Nat.sub_0_r. reflexivity.
Qed.

End Scanner.

Section CooccurrenceClaim.
Context {U : Unicode}.

(** C2, as amended.  Let [a] stand before [b] in a list of distinct
    terms, [a] being a non-empty string of word characters.  Then
    [graph[a][b]] and [graph[b][a]] both equal the number of
    whole-word occurrences [pos] of [a] in the lowercased text whose
    window [text_lower[max(0, pos-100) : min(len(text), pos+100)]]
    contains [b] as a substring: every such occurrence counts once,
    with no deduplication, and the occurrences of [b] add nothing. *)
Theorem cooccurrence_counts_later_terms
        (text : str) (before : list str) (a : str) (after : list str)
        (b : str) :
  NoDup (before ++ a :: after) -> In b after ->
  a <> [] -> forallb is_word a = true ->
  let graph := find_cooccurrences text (before ++ a :: after) [] in
  let n :=
    length
      (filter
         (fun pos => contains b (window_text 100 text (str_lower text) pos))
         (whole_word_occurrences a (str_lower text))) in
  graph_get graph a b = n /\ graph_get graph b a = n.
Proof.
  intros Hnd Hin Hne Hw graph n. subst graph n.
  unfold find_cooccurrences, find_cooccurrences_in.
  rewrite loop_events, !graph_get_events.
  destruct (count_events_ordered 100 text (str_lower text) before a after b
              Hnd Hin) as [H1 H2].
  rewrite H1, H2, word_positions_complete by assumption.
  unfold graph_get, counter_get. simpl. lia.
Qed.

End CooccurrenceClaim.

Lemma cooccurrence_counts_later_terms_witness :
  NoDup ([] ++ cps "foo" :: [cps "bar"])
  /\ graph_get
       (find_cooccurrences (cps "foo bar") [cps "foo"; cps "bar"] [])
       (cps "foo") (cps "bar") = 1.
Proof.
  assert (Hnd : NoDup ([] ++ cps "foo" :: [cps "bar"])).
  { repeat constructor; simpl; intuition discriminate. }
  split; [exact Hnd|].
  apply (cooccurrence_counts_later_terms (U := Latin) (cps "foo bar") []
           (cps "foo") [cps "bar"] (cps "bar")).
  - exact Hnd.
  - simpl. left. reflexivity.
  - discriminate.
  - reflexivity.
Defined.

(** C2, as stated, fails on the text "foo bar" with the terms "foo"
    and "bar": the occurrence of "bar" sees "foo" in its window, which
    the claim counts and the source does not. *)
Lemma cooccurrence_claim_counterexample :
  graph_get
    (find_cooccurrences (cps "foo bar") [cps "foo"; cps "bar"] [])
    (cps "foo") (cps "bar") = 1
  /\ claimed_count 100 (cps "foo bar") [cps "foo"; cps "bar"]
       (cps "foo") (cps "bar") = 2.
Proof. split; vm_compute; reflexivity. Qed.

(** ** Terms *)

Section Terms.
Context {U : Unicode} {F : UnicodeFacts U}.

Lemma not_word_not_letter c : is_word c = false -> in_alphabet c = false.
Proof.
  intros H. destruct (in_alphabet c) eqn:E; [|reflexivity].
  apply alphabet_is_word in E. congruence.
Qed.

Lemma run_length_nth (s : str) (j : nat) :
  j < run_length s ->
  exists c, nth_error s j = Some c /\ in_alphabet c = true.
Proof.
  revert j. induction s as [|c s IH]; intros j; simpl; [lia|].
  destruct (in_alphabet c) eqn:E; [|lia].
  destruct j as [|j]; intros Hj.
  - exists c. split; [reflexivity | exact E].
  - apply IH. lia.
Qed.

Lemma run_length_word (s : str) (j : nat) :
  j < run_length s -> word_opt (nth_error s j) = true.
Proof.
  intros Hj. destruct (run_length_nth s j Hj) as [c [-> Hc]].
  simpl. apply alphabet_is_word, Hc.
Qed.

Lemma backtrack_inside (prev : option char) (rest : str) (m : nat) :
  m < run_length rest -> backtrack prev rest m = None.
Proof.
  induction m as [|m IH]; intros Hm; [reflexivity|].
  cbn [backtrack]. unfold boundary. cbn [char_before].
  rewrite !run_length_word by lia. cbn [xorb]. apply IH. lia.
Qed.

Lemma backtrack_run (prev : option char) (rest : str) :
  backtrack prev rest (run_length rest)
  = if word_opt (nth_error rest (run_length rest)) then None
    else match run_length rest with 0 => None | S _ => Some (run_length rest) end.
Proof.
  destruct (run_length rest) as [|m] eqn:E; cbn [backtrack].
  - destruct (word_opt _); reflexivity.
  - unfold boundary. cbn [char_before].
    rewrite (run_length_word rest m), xorb_true_l by lia.
    destruct (word_opt (nth_error rest (S m))); cbn [negb]; [|reflexivity].
    apply backtrack_inside. lia.
Qed.

End Terms.

Section Runs.
Variable p : char -> bool.

Lemma split_runs_cons_true c r :
  p c = true ->
  split_runs p (c :: r)
  = (c :: fst (split_runs p r), snd (split_runs p r)).
Proof.
  intros H. simpl. destruct (split_runs p r). rewrite H. reflexivity.
Qed.

Lemma split_runs_cons_false c r :
  p c = false -> split_runs p (c :: r) = ([], maximal_runs p r).
Proof.
  intros H. unfold maximal_runs. simpl. destruct (split_runs p r).
  rewrite H. reflexivity.
Qed.

Lemma maximal_runs_cons_true c r :
  p c = true ->
  maximal_runs p (c :: r)
  = (c :: fst (split_runs p r)) :: snd (split_runs p r).
Proof.
  intros H. unfold maximal_runs. rewrite split_runs_cons_true by exact H.
  reflexivity.
Qed.

Lemma maximal_runs_cons_false c r :
  p c = false -> maximal_runs p (c :: r) = maximal_runs p r.
Proof.
  intros H. unfold maximal_runs at 1.
  rewrite split_runs_cons_false by exact H. reflexivity.
Qed.

(** The head run is a prefix, it is followed by no [p]-character,
    and the runs behind it are the remaining runs. *)
Lemma split_runs_facts (s : str) :
  let run := fst (split_runs p s) in
  firstn (length run) s = run
  /\ match nth_error s (length run) with
     | Some c => p c = false
     | None => True
     end
  /\ snd (split_runs p (skipn (length run) s)) = snd (split_runs p s)
  /\ forallb p run = true.
Proof.
  induction s as [|c r IH]; [simpl; auto|].
  destruct (p c) eqn:E.
  - rewrite split_runs_cons_true by exact E. cbn [fst snd length].
    destruct IH as [H1 [H2 [H3 H4]]].
    cbn [firstn nth_error skipn forallb]. rewrite H1, E, H4. auto.
  - rewrite split_runs_cons_false by exact E. cbn [fst snd length].
    cbn [firstn nth_error skipn forallb].
    rewrite split_runs_cons_false by exact E. auto.
Qed.

End Runs.

Section FindAll.
Context {U : Unicode} {F : UnicodeFacts U}.

Lemma split_runs_letters (s : str) :
  let run := fst (split_runs is_word s) in
  if forallb in_alphabet run then run_length s = length run
  else word_opt (nth_error s (run_length s)) = true.
Proof.
  induction s as [|c r IH]; [reflexivity|].
  destruct (is_word c) eqn:Ew.
  - rewrite split_runs_cons_true by exact Ew. cbn [fst forallb run_length].
    destruct (in_alphabet c) eqn:Ea; cbn [andb].
    + cbv zeta in IH.
      destruct (forallb in_alphabet (fst (split_runs is_word r))).
      * cbn [length]. rewrite IH. reflexivity.
      * exact IH.
    + simpl. exact Ew.
  - rewrite split_runs_cons_false by exact Ew. cbn [fst forallb run_length].
    rewrite (not_word_not_letter c Ew). reflexivity.
Qed.

Lemma findall_letters_runs (fuel : nat) :
  forall prev rest,
    length rest < fuel ->
    findall_letters fuel prev rest
    = filter (forallb in_alphabet)
        (if word_opt prev then snd (split_runs is_word rest)
         else maximal_runs is_word rest).
Proof.
  induction fuel as [|fuel IH]; intros prev rest Hf; [lia|].
  cbn [findall_letters]. unfold match_letters.
  destruct rest as [|c rest'].
  - unfold boundary. simpl. destruct (word_opt prev); reflexivity.
  - cbn [length] in Hf. unfold boundary at 1.
    cbn [char_before nth_error word_opt].
    destruct (word_opt prev) eqn:Ep, (is_word c) eqn:Ec; cbn [xorb].
    + rewrite IH by lia. simpl word_opt. rewrite Ec.
      rewrite split_runs_cons_true by exact Ec. reflexivity.
    + cbn [run_length]. rewrite (not_word_not_letter c Ec).
      cbn [backtrack]. rewrite IH by lia. simpl word_opt. rewrite Ec.
      rewrite split_runs_cons_false by exact Ec. reflexivity.
    + rewrite backtrack_run.
      assert (Hl := split_runs_letters (c :: rest')).
      destruct (split_runs_facts is_word (c :: rest'))
        as [H1 [H2 [H3 H4]]].
      rewrite maximal_runs_cons_true by exact Ec.
      rewrite split_runs_cons_true in Hl, H1, H2, H3 by exact Ec.
      cbn [fst snd] in Hl, H1, H2, H3. cbv zeta in Hl.
      set (run := c :: fst (split_runs is_word rest')) in *.
      cbn [filter].
      destruct (forallb in_alphabet run) eqn:Ea.
      * rewrite Hl.
        assert (Hnw : word_opt (nth_error (c :: rest') (length run)) = false).
        { destruct (nth_error (c :: rest') (length run)); simpl; auto. }
        rewrite Hnw. subst run. cbn [length] in *.
        rewrite H1. f_equal.
        rewrite IH.
        -- cbn [char_before].
           rewrite (run_length_word (c :: rest')) by (rewrite Hl; lia).
           rewrite H3. reflexivity.
        -- rewrite length_skipn. cbn [length]. lia.
      * rewrite Hl.
        rewrite IH by lia. simpl word_opt. rewrite Ec. reflexivity.
    + rewrite IH by lia. simpl word_opt. rewrite Ec.
      rewrite maximal_runs_cons_false by exact Ec. reflexivity.
Qed.

Lemma findall_words_letter_words (s : str) :
  findall_words s = letter_words s.
Proof.
  unfold findall_words, letter_words.
  rewrite findall_letters_runs by lia. reflexivity.
Qed.

End FindAll.

(** The tables of [Latin] have the three properties. *)
Lemma in_alphabet_cases (c : char) :
  in_alphabet c = true ->
  In c (map Z.of_nat (seq 97 26)) \/ In c accented.
Proof.
  unfold in_alphabet. rewrite orb_true_iff, andb_true_iff, !Z.leb_le.
  intros [[H1 H2] | H].
  - left. apply in_map_iff. exists (Z.to_nat c). split; [lia|].
    apply in_seq. lia.
  - right. apply existsb_exists in H. destruct H as [x [Hx E]].
    apply Z.eqb_eq in E. subst. exact Hx.
Qed.

#[export] Instance Latin_facts : UnicodeFacts Latin.
Proof.
  split.
  - reflexivity.
  - intros c H. apply in_alphabet_cases in H.
    destruct H as [H | H]; simpl in H;
      repeat (destruct H as [H | H]; [subst c; reflexivity|]);
      contradiction.
  - intros s. induction s as [|c s IH]; [reflexivity|].
    cbn [forallb]. rewrite andb_true_iff. intros [Hc Hs].
    change (str_lower (c :: s)) with (LatinTables.lower_char c ++ str_lower s).
    rewrite (IH Hs).
    apply in_alphabet_cases in Hc.
    destruct Hc as [Hc | Hc]; simpl in Hc;
      repeat (destruct Hc as [Hc | Hc]; [subst c; reflexivity|]);
      contradiction.
Qed.

Section TermsClaim.
Context {U : Unicode} {F : UnicodeFacts U}.

Lemma keep_term_spec (w : str) :
  keep_term w = true <-> ~ In w stop_words /\ 3 <= length w.
Proof.
  unfold keep_term. rewrite andb_true_iff, negb_true_iff, Nat.leb_le.
  rewrite <- str_mem_In. destruct (str_mem w stop_words); intuition congruence.
Qed.

Lemma extract_terms_filter (text : str) :
  extract_terms text = filter keep_term (letter_words (str_lower text)).
Proof.
  unfold extract_terms. rewrite findall_words_letter_words. reflexivity.
Qed.

Lemma extract_terms_letters (text t : str) :
  In t (extract_terms text) -> forallb in_alphabet t = true.
Proof.
  rewrite extract_terms_filter. intros Ht.
  apply filter_In in Ht. destruct Ht as [Ht _].
  apply filter_In in Ht. tauto.
Qed.

(** C3, as amended.  [extract_terms] lowercases the text and returns,
    in the order of the text, exactly its words (the maximal runs of
    word characters) that consist of letters of the fixed alphabet
    only, have at least 3 letters and are no stop words.  Every term
    returned is a lowercase string of letters of the alphabet, of
    length 3 or more, outside the stop words. *)
Theorem extract_terms_letter_words (text : str) :
  extract_terms text = filter keep_term (letter_words (str_lower text))
  /\ Forall
       (fun t =>
          forallb in_alphabet t = true /\ str_lower t = t
          /\ 3 <= length t /\ ~ In t stop_words)
       (extract_terms text).
Proof.
  split; [apply extract_terms_filter|].
  apply Forall_forall. intros t Ht.
  assert (Ha := extract_terms_letters text t Ht).
  rewrite extract_terms_filter in Ht.
  apply filter_In in Ht. destruct Ht as [_ Hk].
  apply keep_term_spec in Hk.
  repeat split; try tauto. apply lower_letters, Ha.
Qed.

End TermsClaim.

Lemma extract_terms_letter_words_witness :
  extract_terms (cps "The Cat sat; cat1 and a dog_")
  = filter keep_term
      (letter_words (str_lower (cps "The Cat sat; cat1 and a dog_"))).
Proof.
  apply (extract_terms_letter_words (F := Latin_facts)).
Defined.

(** C3, as stated, fails on "abc1def": the two runs of letters are not
    words of the text, and the source returns no term. *)
Lemma extract_terms_claim_counterexample :
  extract_terms (cps "abc1def") = []
  /\ claimed_terms (cps "abc1def") = [cps "abc"; cps "def"].
Proof. split; vm_compute; reflexivity. Qed.

(** ** The frequency table *)

Lemma filter_filter_and {A : Type} (p q : A -> bool) (l : list A) :
  filter p (filter q l) = filter (fun y => q y && p y) l.
Proof.
  induction l as [|x l IH]; simpl; [reflexivity|].
  destruct (q x); simpl; [destruct (p x)|]; rewrite IH; reflexivity.
Qed.

Lemma str_mem_app (y : str) (l1 l2 : list str) :
  str_mem y (l1 ++ l2) = str_mem y l1 || str_mem y l2.
Proof. unfold str_mem. apply existsb_app. Qed.

Lemma first_occurrences_In (l : list str) (t : str) :
  In t (first_occurrences l) <-> In t l.
Proof.
  induction l as [|x l IH]; simpl; [tauto|].
  rewrite filter_In, IH, negb_true_iff, str_eqb_neq.
  destruct (str_eq_dec x t); intuition congruence.
Qed.

Lemma first_occurrences_NoDup (l : list str) : NoDup (first_occurrences l).
Proof.
  induction l as [|x l IH]; simpl; constructor.
  - rewrite filter_In, negb_true_iff, str_eqb_neq. tauto.
  - apply NoDup_filter, IH.
Qed.

Lemma counter_add_keys (c : Counter) (k : str) (n : nat) :
  map fst (counter_add c k n)
  = map fst c ++ (if str_mem k (map fst c) then [] else [k]).
Proof.
  unfold counter_add. rewrite alist_update_keys.
  replace (str_mem k (map fst c)) with (alist_mem k c).
  - destruct (alist_mem k c); [rewrite app_nil_r|]; reflexivity.
  - destruct (alist_mem k c) eqn:E, (str_mem k (map fst c)) eqn:E';
      try reflexivity.
    + apply alist_mem_In, str_mem_In in E. congruence.
    + apply str_mem_In, alist_mem_In in E'. congruence.
Qed.

Lemma count_terms_keys_from (terms : list str) (c : Counter) :
  map fst (fold_left add_one terms c)
  = map fst c
    ++ filter (fun y => negb (str_mem y (map fst c))) (first_occurrences terms).
Proof.
  revert c. induction terms as [|x l IH]; intros c; simpl.
  - rewrite app_nil_r. reflexivity.
  - rewrite IH. unfold add_one. rewrite !counter_add_keys, <- app_assoc.
    f_equal. cbn [filter]. rewrite filter_filter_and.
    destruct (str_mem x (map fst c)) eqn:E; simpl.
    + rewrite app_nil_r. apply filter_ext. intros y.
      destruct (str_eqb y x) eqn:Ey; simpl; [|reflexivity].
      apply str_eqb_eq in Ey. subst. rewrite E. reflexivity.
    + f_equal. apply filter_ext. intros y.
      rewrite str_mem_app. simpl. rewrite orb_false_r, negb_orb.
      apply andb_comm.
Qed.

Lemma count_terms_keys (terms : list str) :
  map fst (count_terms terms) = first_occurrences terms.
Proof.
  unfold count_terms. change (fun c t => counter_add c t 1) with add_one.
  rewrite count_terms_keys_from. simpl.
  induction (first_occurrences terms); simpl; congruence.
Qed.

Lemma count_terms_get_from (terms : list str) (c : Counter) (t : str) :
  counter_get (fold_left add_one terms c) t
  = counter_get c t + occurrences t terms.
Proof.
  revert c. induction terms as [|x l IH]; intros c; simpl.
  - unfold occurrences. simpl. lia.
  - rewrite IH. unfold add_one. rewrite counter_get_add.
    unfold occurrences. simpl. destruct (str_eqb t x); simpl; lia.
Qed.

Lemma count_terms_get (terms : list str) (t : str) :
  counter_get (count_terms terms) t = occurrences t terms.
Proof.
  unfold count_terms. change (fun c t => counter_add c t 1) with add_one.
  rewrite count_terms_get_from. reflexivity.
Qed.

Section AListNoDup.
Context {V : Type}.

Lemma alist_get_notin (d : V) (k : str) (m : list (str * V)) :
  ~ In k (map fst m) -> alist_get d k m = d.
Proof.
  induction m as [|[k0 v] m IH]; simpl; [reflexivity|].
  intros H. destruct (str_eqb k k0) eqn:E.
  - apply str_eqb_eq in E. subst. tauto.
  - apply IH. tauto.
Qed.

Lemma alist_get_In (d : V) (k : str) (v : V) (m : list (str * V)) :
  NoDup (map fst m) -> In (k, v) m -> alist_get d k m = v.
Proof.
  induction m as [|[k0 v0] m IH]; simpl; [easy|].
  intros Hnd [[= -> ->] | Hin].
  - rewrite str_eqb_refl. reflexivity.
  - inversion Hnd as [|? ? Hnotin Hnd']; subst.
    destruct (str_eqb k k0) eqn:E.
    + apply str_eqb_eq in E. subst. exfalso. apply Hnotin.
      apply in_map_iff. exists (k0, v). auto.
    + apply IH; assumption.
Qed.

(** Selecting entries by value is selecting keys by lookup. *)
Lemma filter_values_keys (d : V) (q : V -> bool) (m : list (str * V)) :
  NoDup (map fst m) ->
  map fst (filter (fun e => q (snd e)) m)
  = filter (fun k => q (alist_get d k m)) (map fst m).
Proof.
  induction m as [|[k v] m IH]; intros Hnd; [reflexivity|].
  inversion Hnd as [|? ? Hnotin Hnd']; subst.
  cbn [filter map fst snd alist_get]. rewrite str_eqb_refl.
  assert (E : filter
                (fun k0 => q (if str_eqb k0 k then v else alist_get d k0 m))
                (map fst m)
              = filter (fun k0 => q (alist_get d k0 m)) (map fst m)).
  { apply filter_ext_in. intros k0 Hk0.
    destruct (str_eqb k0 k) eqn:E; [|reflexivity].
    apply str_eqb_eq in E. subst. tauto. }
  rewrite E. destruct (q v); cbn [map fst]; rewrite IH by exact Hnd';
    reflexivity.
Qed.

End AListNoDup.

(** The single mentions of a table with distinct keys are its keys of
    count 1, in the order of the table. *)
Lemma single_mentions_keys (c : Counter) :
  NoDup (map fst c) ->
  single_mentions c
  = filter (fun t => counter_get c t =? 1) (map fst c).
Proof.
  intros Hnd. unfold single_mentions, counter_get.
  apply (filter_values_keys 0 (fun n => n =? 1)), Hnd.
Qed.

Lemma single_mentions_count_terms (terms : list str) :
  single_mentions (count_terms terms)
  = filter (fun t => occurrences t terms =? 1) (first_occurrences terms).
Proof.
  rewrite single_mentions_keys.
  - rewrite count_terms_keys. apply filter_ext. intros t.
    rewrite count_terms_get. reflexivity.
  - rewrite count_terms_keys. apply first_occurrences_NoDup.
Qed.

(** ** Sorting and prefixes *)

Lemma In_firstn {A : Type} (n : nat) (l : list A) (x : A) :
  In x (firstn n l) -> In x l.
Proof.
  intros H. rewrite <- (firstn_skipn n l). apply in_or_app. now left.
Qed.

Lemma NoDup_firstn {A : Type} (n : nat) (l : list A) :
  NoDup l -> NoDup (firstn n l).
Proof.
  intros H. rewrite <- (firstn_skipn n l) in H.
  eapply NoDup_app_remove_r, H.
Qed.

Section SortFacts.
Context {A : Type} (lt : A -> A -> bool).

Lemma insert_desc_perm (x : A) (l : list A) :
  Permutation (insert_desc lt x l) (x :: l).
Proof.
  induction l as [|y l IH]; simpl; [reflexivity|].
  destruct (lt x y); [|reflexivity].
  rewrite IH. apply perm_swap.
Qed.

Lemma sort_desc_perm (l : list A) : Permutation (sort_desc lt l) l.
Proof.
  induction l as [|x l IH]; simpl; [reflexivity|].
  rewrite insert_desc_perm, IH. reflexivity.
Qed.

Lemma sort_desc_In (l : list A) (x : A) : In x (sort_desc lt l) <-> In x l.
Proof.
  split; apply Permutation_in;
    [|symmetry]; apply sort_desc_perm.
Qed.

(** A list that is already in descending order is left as it is. *)
Lemma insert_desc_head (x : A) (l : list A) :
  match l with [] => True | y :: _ => lt x y = false end ->
  insert_desc lt x l = x :: l.
Proof.
  destruct l as [|y l]; simpl; [reflexivity|]. intros ->. reflexivity.
Qed.

Lemma sort_desc_sorted_id (l : list A) :
  Sorted (not_lt lt) l -> sort_desc lt l = l.
Proof.
  induction 1 as [|x l Hl IH Hx]; [reflexivity|].
  cbn [sort_desc fold_right].
  change (fold_right (insert_desc lt) [] l) with (sort_desc lt l).
  rewrite IH. apply insert_desc_head. destruct Hx; [exact I | assumption].
Qed.

Hypothesis lt_asym : forall x y, lt x y = true -> lt y x = false.

Lemma insert_desc_sorted (x : A) (l : list A) :
  Sorted (not_lt lt) l -> Sorted (not_lt lt) (insert_desc lt x l).
Proof.
  induction 1 as [|y l Hl IH Hy]; simpl.
  - repeat constructor.
  - destruct (lt x y) eqn:E.
    + constructor; [exact IH|].
      destruct Hy as [|z l Hz]; simpl.
      * constructor. apply lt_asym, E.
      * destruct (lt x z); constructor; [exact Hz | apply lt_asym, E].
    + constructor; [constructor; assumption|]. constructor. exact E.
Qed.

Lemma sort_desc_sorted (l : list A) : Sorted (not_lt lt) (sort_desc lt l).
Proof.
  induction l as [|x l IH]; simpl; [constructor|].
  apply insert_desc_sorted, IH.
Qed.

End SortFacts.

Lemma most_common_In (n : nat) (c : Counter) (e : str * nat) :
  In e (most_common n c) -> In e c.
Proof.
  unfold most_common. intros H. apply In_firstn in H.
  apply sort_desc_In in H. exact H.
Qed.

Lemma most_common_NoDup (n : nat) (c : Counter) :
  NoDup (map fst c) -> NoDup (map fst (most_common n c)).
Proof.
  intros H. unfold most_common. rewrite <- firstn_map.
  apply NoDup_firstn.
  eapply Permutation_NoDup; [|exact H].
  symmetry. apply Permutation_map, sort_desc_perm.
Qed.

(** ** The pipeline returns *)

Lemma find_from_bounds (sub s : str) (i p : nat) :
  find_from sub s i = Some p -> i <= p <= i + length s.
Proof.
  revert i. induction s as [|c s IH]; intros i; simpl.
  - destruct (starts_with sub []); [|discriminate]. intros [= <-]. lia.
  - destruct (starts_with sub (c :: s)).
    + intros [= <-]. lia.
    + intros H. apply IH in H. lia.
Qed.

Lemma find_bounds (s sub : str) (pos p : nat) :
  find s sub pos = Some p -> pos <= p <= length s.
Proof.
  unfold find. destruct (length s <? pos) eqn:E; [discriminate|].
  apply Nat.ltb_ge in E. intros H. apply find_from_bounds in H.
  rewrite length_skipn in H. lia.
Qed.

Section Totality.
Context {U : Unicode}.

Lemma contexts_loop_returns window text text_lower term term_lower :
  term <> [] ->
  forall fuel pos contexts,
    length text_lower + 1 - pos < fuel ->
    exists r,
      contexts_loop fuel window text text_lower term term_lower pos contexts
      = Some r.
Proof.
  intros Hne. assert (Hlen : 1 <= length term).
  { destruct term; [congruence | simpl; lia]. }
  induction fuel as [|fuel IH]; intros pos contexts Hf; [lia|].
  cbn [contexts_loop].
  destruct (find text_lower term_lower pos) as [p|] eqn:E.
  - apply find_bounds in E. apply IH. lia.
  - exists contexts. reflexivity.
Qed.

Lemma extract_contexts_returns (text term : str) :
  term <> [] -> exists r, extract_contexts text term = Some r.
Proof.
  intros Hne. unfold extract_contexts, extract_contexts_in.
  destruct (contexts_loop_returns 50 text (str_lower text) term
              (str_lower term) Hne (length (str_lower text) + 2) 0 [])
    as [r Hr]; [lia|].
  rewrite Hr. exists (firstn 3 r). reflexivity.
Qed.

Lemma collect_contexts_returns (content : str) (terms : list str) :
  Forall (fun t => t <> []) terms ->
  forall acc, exists r, collect_contexts content terms acc = Some r.
Proof.
  induction 1 as [|t terms Ht _ IH]; intros acc; simpl.
  - exists acc. reflexivity.
  - destruct (extract_contexts_returns content t Ht) as [r Hr].
    rewrite Hr. apply IH.
Qed.

Lemma extract_terms_keep (text : str) (t : str) :
  In t (extract_terms text) -> keep_term t = true.
Proof.
  unfold extract_terms. intros H. apply filter_In in H. tauto.
Qed.

Lemma significant_terms_In (terms : list str) (t : str) :
  In t (significant_terms_of (count_terms terms)) -> In t terms.
Proof.
  unfold significant_terms_of. intros H.
  apply in_map_iff in H. destruct H as [[t' n] [<- H]].
  apply most_common_In in H.
  apply first_occurrences_In. rewrite <- count_terms_keys.
  apply in_map_iff. exists (t', n). auto.
Qed.

Lemma analyze_content_returns (content name : str) :
  exists term_contexts,
    collect_contexts (skip_metadata content)
      (significant_terms_of
         (count_terms (extract_terms (skip_metadata content)))) []
    = Some term_contexts
    /\ analyze_content content name
       = Some
           (generate_insights
              (count_terms (extract_terms (skip_metadata content)))
              term_contexts
              (find_cooccurrences (skip_metadata content)
                 (significant_terms_of
                    (count_terms (extract_terms (skip_metadata content))))
                 [])
              name).
Proof.
  destruct (collect_contexts_returns (skip_metadata content)
              (significant_terms_of
                 (count_terms (extract_terms (skip_metadata content)))))
    with (acc := @nil (str * list str)) as [r Hr].
  - apply Forall_forall. intros t Ht. apply significant_terms_In in Ht.
    apply extract_terms_keep in Ht. unfold keep_term in Ht.
    apply andb_true_iff in Ht. destruct Ht as [_ Ht].
    apply Nat.leb_le in Ht. intros ->. simpl in Ht. lia.
  - exists r. split; [exact Hr|]. unfold analyze_content. rewrite Hr.
    reflexivity.
Qed.

(** C7. The analysis of a text returns, and in its insights
    [potential_gaps.count] is the number of distinct terms whose count
    in the frequency table is exactly 1, while
    [potential_gaps.examples] lists the first 10 of them in the order
    in which the terms were first met in the text (the insertion order
    of the table). *)
Theorem potential_gaps_single_mentions (content name : str) :
  exists insights,
    analyze_content content name = Some insights
    /\ let terms := extract_terms (skip_metadata content) in
       let singles :=
         filter (fun t => occurrences t terms =? 1)
           (first_occurrences terms) in
       count (potential_gaps insights) = length singles
       /\ examples (potential_gaps insights) = firstn 10 singles
       /\ NoDup singles
       /\ forall t,
            In t singles <-> counter_get (count_terms terms) t = 1.
Proof.
  destruct (analyze_content_returns content name) as [tc [_ H]].
  eexists. split; [exact H|].
  cbv zeta. cbn [generate_insights potential_gaps count examples].
  rewrite single_mentions_count_terms.
  repeat split.
  - apply NoDup_filter, first_occurrences_NoDup.
  - intros Ht. apply filter_In in Ht. destruct Ht as [_ Ht].
    apply Nat.eqb_eq in Ht. rewrite count_terms_get. exact Ht.
  - intros Ht. rewrite count_terms_get in Ht. apply filter_In.
    split; [|apply Nat.eqb_eq, Ht].
    apply first_occurrences_In. unfold occurrences in Ht.
    destruct (filter (str_eqb t) (extract_terms (skip_metadata content)))
      as [|x l] eqn:E; [discriminate|].
    assert (Hx : In x (x :: l)) by now left.
    rewrite <- E in Hx. apply filter_In in Hx. destruct Hx as [Hx Ex].
    apply str_eqb_eq in Ex. subst. exact Hx.
Qed.

End Totality.

(** The significant terms of a text meet the conditions under which
    the co-occurrence counts are described above: they are distinct,
    non-empty and made of word characters. *)
Lemma significant_terms_well_formed {U : Unicode} {F : UnicodeFacts U}
      (text : str) :
  let terms := significant_terms_of (count_terms (extract_terms text)) in
  NoDup terms
  /\ Forall (fun t => t <> [] /\ forallb is_word t = true) terms.
Proof.
  intros terms. subst terms. split.
  - unfold significant_terms_of. apply most_common_NoDup.
    rewrite count_terms_keys. apply first_occurrences_NoDup.
  - apply Forall_forall. intros t Ht. apply significant_terms_In in Ht.
    assert (Ha := extract_terms_letters text t Ht).
    apply extract_terms_keep, keep_term_spec in Ht. destruct Ht as [_ Hl].
    split.
    + intros ->. simpl in Hl. lia.
    + apply forallb_forall. intros c Hc. apply alphabet_is_word.
      rewrite forallb_forall in Ha. apply Ha, Hc.
Qed.

Lemma Sorted_firstn {A : Type} (R : A -> A -> Prop) (n : nat) (l : list A) :
  Sorted R l -> Sorted R (firstn n l).
Proof.
  intros H. revert n. induction H as [|x l Hl IH Hx]; intros [|n]; simpl;
    try constructor.
  - apply IH.
  - destruct Hx; destruct n; simpl; constructor. assumption.
Qed.

Lemma Sorted_map {A B : Type} (R : A -> A -> Prop) (R' : B -> B -> Prop)
      (f : A -> B) (l : list A) :
  (forall x y, R x y -> R' (f x) (f y)) ->
  Sorted R l -> Sorted R' (map f l).
Proof.
  intros Hf. induction 1 as [|x l Hl IH Hx]; simpl; constructor.
  - exact IH.
  - destruct Hx; simpl; constructor. apply Hf. assumption.
Qed.

Lemma count_lt_asym (x y : str * nat) :
  count_lt x y = true -> count_lt y x = false.
Proof.
  unfold count_lt. rewrite Nat.ltb_lt, Nat.ltb_ge. lia.
Qed.

Lemma most_common_sorted (n : nat) (c : Counter) :
  Sorted (not_lt count_lt) (most_common n c).
Proof.
  apply Sorted_firstn, sort_desc_sorted, count_lt_asym.
Qed.

(** ** The importance score *)

Section Importance.
Local Open Scope Q_scope.

Lemma round_half_even_floor (x : Q) :
  (Qfloor x <= round_half_even x <= Qfloor x + 1)%Z.
Proof.
  unfold round_half_even.
  destruct (Qcompare _ _); [destruct (Z.even _)| |]; lia.
Qed.

Lemma round_half_even_ge (x : Q) (a : Z) :
  inject_Z a <= x -> (a <= round_half_even x)%Z.
Proof.
  intros H. apply Qfloor_resp_le in H. rewrite Qfloor_Z in H.
  pose proof (round_half_even_floor x). lia.
Qed.

Lemma round_half_even_le (x : Q) (b : Z) :
  x <= inject_Z b -> (round_half_even x <= b)%Z.
Proof.
  intros H. pose proof (Qfloor_resp_le _ _ H) as Hf. rewrite Qfloor_Z in Hf.
  pose proof (round_half_even_floor x) as Hr.
  destruct (Z.eq_dec (Qfloor x) b) as [E | E]; [|lia].
  unfold round_half_even.
  destruct (Qcompare_spec (x - inject_Z (Qfloor x)) (1 # 2)) as [C | C | C].
  - rewrite E in C. lra.
  - lia.
  - rewrite E in C. lra.
Qed.

Lemma importance_score_bounds (f : nat) :
  let z := inject_Z (Z.of_nat f) in
  z <= importance_score f
  /\ importance_score f <= z + 1
  /\ ((1 <= f)%nat -> z + (1 # 2) <= importance_score f).
Proof.
  intros z. unfold importance_score. fold z.
  assert (Hz : 0 <= z).
  { unfold z. rewrite <- (Zle_Qle 0). lia. }
  assert (E : z * (1 + 1 / (1 + z)) == z + z / (1 + z)).
  { unfold Qdiv. ring. }
  assert (H0 : 0 <= z / (1 + z)).
  { apply Qle_shift_div_l; lra. }
  assert (H1 : z / (1 + z) <= 1).
  { apply Qle_shift_div_r; lra. }
  rewrite E. repeat split; try lra.
  intros Hf.
  assert (Hz1 : 1 <= z).
  { unfold z. rewrite <- (Zle_Qle 1). lia. }
  assert (H2 : (1 # 2) <= z / (1 + z)).
  { apply Qle_shift_div_l; lra. }
  lra.
Qed.

Lemma key_upper (f : nat) :
  (round_half_even (importance_score f * 100) <= 100 * Z.of_nat f + 100)%Z.
Proof.
  apply round_half_even_le.
  rewrite inject_Z_plus, inject_Z_mult.
  destruct (importance_score_bounds f) as [_ [H _]].
  change (inject_Z 100) with 100. lra.
Qed.

Lemma key_lower (f : nat) :
  (1 <= f)%nat ->
  (100 * Z.of_nat f + 50 <= round_half_even (importance_score f * 100))%Z.
Proof.
  intros Hf. apply round_half_even_ge.
  rewrite inject_Z_plus, inject_Z_mult.
  destruct (importance_score_bounds f) as [_ [_ H]]. specialize (H Hf).
  change (inject_Z 100) with 100. change (inject_Z 50) with 50. lra.
Qed.

Lemma round2_lt_iff (x y : Q) :
  round2 x < round2 y
  <-> (round_half_even (x * 100) < round_half_even (y * 100))%Z.
Proof. unfold round2, Qlt. simpl. lia. Qed.

(** The stored score grows strictly with the frequency. *)
Lemma stored_importance_increasing (f g : nat) :
  (f < g)%nat ->
  round2 (importance_score f) < round2 (importance_score g).
Proof.
  intros H. apply round2_lt_iff.
  pose proof (key_upper f). pose proof (key_lower g). lia.
Qed.

(** The exact scores of two frequencies lie at least one half apart. *)
Lemma importance_score_gap (f g : nat) :
  (f < g)%nat -> (1 # 2) <= importance_score g - importance_score f.
Proof.
  intros H.
  destruct (importance_score_bounds f) as [_ [Hf _]].
  destruct (importance_score_bounds g) as [_ [_ Hg]].
  assert (Hg' := Hg ltac:(lia)). clear Hg.
  assert (Hz : inject_Z (Z.of_nat f) + 1 <= inject_Z (Z.of_nat g)).
  { change 1 with (inject_Z 1). rewrite <- inject_Z_plus, <- Zle_Qle. lia. }
  cbv zeta in *. lra.
Qed.

End Importance.

(** ** The score in binary64 *)

Section Binary64.
Local Open Scope Q_scope.

Lemma round_half_even_error (y : Q) :
  y - (1 # 2) <= inject_Z (round_half_even y) <= y + (1 # 2).
Proof.
  unfold round_half_even.
  pose proof (Qfloor_le y) as H1. pose proof (Qlt_floor y) as H2.
  rewrite inject_Z_plus in H2. change (inject_Z 1) with 1 in H2.
  destruct (Qcompare_spec (y - inject_Z (Qfloor y)) (1 # 2)) as [C | C | C];
    [destruct (Z.even (Qfloor y))| |];
    rewrite ?inject_Z_plus; change (inject_Z 1) with 1; lra.
Qed.

Lemma pow2_pos k : 0 < pow2 k.
Proof. apply Qpower_0_lt. reflexivity. Qed.

Lemma pow2_add j k : pow2 (j + k) == pow2 j * pow2 k.
Proof. apply Qpower_plus. discriminate. Qed.

Lemma pow2_log2 (p : positive) :
  pow2 (Z.log2 (Zpos p)) <= inject_Z (Zpos p)
  /\ inject_Z (Zpos p) < pow2 (Z.log2 (Zpos p) + 1).
Proof.
  pose proof (Z.log2_spec (Zpos p) ltac:(lia)) as [H1 H2].
  pose proof (Z.log2_nonneg (Zpos p)) as H0.
  unfold pow2. change 2 with (inject_Z 2).
  rewrite <- !Zpower_Qpower by lia.
  rewrite <- Zle_Qle, <- Zlt_Qlt.
  replace (Z.log2 (Z.pos p) + 1)%Z with (Z.succ (Z.log2 (Z.pos p))) by lia.
  split; assumption.
Qed.

Lemma binary64_bounds (x : Q) :
  0 < x -> x * (1 - ulp_half) <= binary64 x <= x * (1 + ulp_half).
Proof.
  intros Hx. destruct x as [n d].
  assert (Hn : (0 < n)%Z) by (unfold Qlt in Hx; simpl in Hx; lia).
  destruct n as [|p|p]; try lia. clear Hn.
  unfold binary64. cbn [Qnum Qden].
  set (a := Z.log2 (Zpos p)). set (b := Z.log2 (Zpos d)).
  set (e1 := (a - b - 53)%Z).
  set (X := Zpos p # d) in *.
  destruct (pow2_log2 p) as [Ha1 Ha2]. destruct (pow2_log2 d) as [Hb1 Hb2].
  fold a in Ha1, Ha2. fold b in Hb1, Hb2.
  set (N := inject_Z (Zpos p)) in *. set (D := inject_Z (Zpos d)) in *.
  assert (HD : 0 < D) by (unfold D; rewrite <- (Zlt_Qlt 0); lia).
  assert (HX : X == N / D) by apply Qmake_Qdiv.
  assert (HXD : X * D == N) by (rewrite HX; field; lra).
  fold (pow2 e1). fold (pow2 53).
  assert (L1 : pow2 52 <= X / pow2 e1).
  { apply Qle_shift_div_l; [apply pow2_pos|]. rewrite <- pow2_add.
    replace (52 + e1)%Z with (a - b - 1)%Z by (unfold e1; lia).
    pose proof (pow2_pos (a - b - 1)) as Hp.
    assert (E : pow2 (a - b - 1) * pow2 (b + 1) == pow2 a).
    { rewrite <- pow2_add. replace (a - b - 1 + (b + 1))%Z with a by lia.
      reflexivity. }
    nra. }
  assert (U1 : X / pow2 e1 < pow2 54).
  { apply Qlt_shift_div_r; [apply pow2_pos|]. rewrite <- pow2_add.
    replace (54 + e1)%Z with (a - b + 1)%Z by (unfold e1; lia).
    pose proof (pow2_pos (a - b + 1)) as Hp.
    assert (E : pow2 (a - b + 1) * pow2 b == pow2 (a + 1)).
    { rewrite <- pow2_add. replace (a - b + 1 + b)%Z with (a + 1)%Z by lia.
      reflexivity. }
    nra. }
  assert (P52 : pow2 52 = 4503599627370496 # 1) by (vm_compute; reflexivity).
  assert (P53 : pow2 53 = 9007199254740992 # 1) by (vm_compute; reflexivity).
  assert (Hy : exists e,
             (if Qle_bool (pow2 53) (X / pow2 e1) then (e1 + 1)%Z else e1) = e
             /\ pow2 52 <= X / pow2 e).
  { destruct (Qle_bool (pow2 53) (X / pow2 e1)) eqn:E.
    - exists (e1 + 1)%Z. split; [reflexivity|].
      apply Qle_bool_iff in E.
      assert (E2 : X / pow2 (e1 + 1) == X / pow2 e1 * (1 # 2)).
      { rewrite pow2_add. change (pow2 1) with 2.
        pose proof (pow2_pos e1). field. lra. }
      rewrite E2, P52. rewrite P53 in E.
      set (z := X / pow2 e1) in *. lra.
    - exists e1. split; [reflexivity | exact L1]. }
  destruct Hy as [e [-> Hy]].
  set (y := X / pow2 e) in *.
  pose proof (round_half_even_error y) as Hm.
  set (m := inject_Z (round_half_even y)) in *.
  rewrite Qred_correct.
  pose proof (pow2_pos e) as He.
  assert (HXy : X == y * pow2 e) by (unfold y; field; lra).
  rewrite P52 in Hy. unfold ulp_half.
  change (2 ^ e) with (pow2 e).
  set (q := pow2 e) in *.
  assert (H1 : 0 <= (m - y * (1 - (1 # 9007199254740992))) * q).
  { apply Qmult_le_0_compat; lra. }
  assert (H2 : 0 <= (y * (1 + (1 # 9007199254740992)) - m) * q).
  { apply Qmult_le_0_compat; lra. }
  change (inject_Z (round_half_even (X / q))) with m.
  clearbody m y q. clear - HXy H1 H2.
  set (X' := X) in *. clearbody X'.
  split; lra.
Qed.

Lemma importance_binary64_bounds (f : nat) :
  (1 <= f)%nat -> (Z.of_nat f <= 2 ^ 40)%Z ->
  let F := inject_Z (Z.of_nat f) in
  F + (499 # 1000) <= importance_binary64 f <= F + (1001 # 1000).
Proof.
  intros Hf1 Hf2 F. unfold importance_binary64. fold F.
  assert (HF1 : 1 <= F) by (unfold F; rewrite <- (Zle_Qle 1); lia).
  assert (HF2 : F <= 1099511627776).
  { unfold F. change 1099511627776 with (inject_Z (2 ^ 40)).
    rewrite <- Zle_Qle. exact Hf2. }
  pose proof (binary64_bounds F ltac:(lra)) as Hfh.
  set (fh := binary64 F) in *.
  unfold ulp_half in *.
  pose proof (binary64_bounds (1 + fh) ltac:(lra)) as Hs.
  set (s := binary64 (1 + fh)) in *. unfold ulp_half in Hs.
  assert (Hs0 : 0 < s) by lra.
  assert (Hw0 : 0 < 1 / s) by (apply Qlt_shift_div_l; lra).
  pose proof (binary64_bounds (1 / s) Hw0) as Hd.
  set (d := binary64 (1 / s)) in *. unfold ulp_half in Hd.
  assert (Hws : (1 / s) * s == 1) by (field; lra).
  set (w := 1 / s) in *.
  pose proof (binary64_bounds (1 + d) ltac:(lra)) as Hy.
  set (y := binary64 (1 + d)) in *. unfold ulp_half in Hy.
  assert (Hp0 : 0 < fh * y).
  { apply Qmult_lt_0_compat; lra. }
  pose proof (binary64_bounds (fh * y) Hp0) as Hr.
  set (r := binary64 (fh * y)) in *. unfold ulp_half in Hr.
  clearbody r y d w s fh. clear Hp0 Hf1 Hf2. clearbody F.
  (* products *)
  assert (A1 : 0 <= w * ((1 + fh) * (1 + (1 # 9007199254740992)) - s)).
  { apply Qmult_le_0_compat; lra. }
  assert (A2 : 0 <= w * (s - (1 + fh) * (1 - (1 # 9007199254740992)))).
  { apply Qmult_le_0_compat; lra. }
  assert (A3 : 0 <= w * (s - (2 - 3 * (1 # 9007199254740992)))).
  { apply Qmult_le_0_compat; lra. }
  assert (A4 : 0 <= fh * (d - w * (1 - (1 # 9007199254740992)))).
  { apply Qmult_le_0_compat; lra. }
  assert (A5 : 0 <= fh * (w * (1 + (1 # 9007199254740992)) - d)).
  { apply Qmult_le_0_compat; lra. }
  assert (A6 : 0 <= fh * (y - (1 + d) * (1 - (1 # 9007199254740992)))).
  { apply Qmult_le_0_compat; lra. }
  assert (A7 : 0 <= fh * ((1 + d) * (1 + (1 # 9007199254740992)) - y)).
  { apply Qmult_le_0_compat; lra. }
  split; lra.
Qed.

Lemma stored_binary64_bounds (f : nat) :
  (1 <= f)%nat -> (Z.of_nat f <= 2 ^ 40)%Z ->
  let F := inject_Z (Z.of_nat f) in
  F + (49 # 100) <= round2_binary64 (importance_binary64 f)
  <= F + (101 # 100).
Proof.
  intros Hf1 Hf2 F.
  pose proof (importance_binary64_bounds f Hf1 Hf2) as Hr. cbv zeta in Hr.
  fold F in Hr. unfold round2_binary64.
  assert (HF1 : 1 <= F) by (unfold F; rewrite <- (Zle_Qle 1); lia).
  assert (HF2 : F <= 1099511627776).
  { unfold F. change 1099511627776 with (inject_Z (2 ^ 40)).
    rewrite <- Zle_Qle. exact Hf2. }
  set (r := importance_binary64 f) in *.
  pose proof (round_half_even_error (r * 100)) as Hn.
  set (n := round_half_even (r * 100)) in *.
  assert (Hx : n # 100 == inject_Z n * (1 # 100)).
  { rewrite Qmake_Qdiv. unfold Qdiv. reflexivity. }
  pose proof (binary64_bounds (n # 100) ltac:(lra)) as Hv.
  unfold ulp_half in Hv.
  set (v := binary64 (n # 100)) in *.
  clearbody v r F. set (x := n # 100) in *. clearbody x.
  set (z := inject_Z n) in *. clearbody z. clear n.
  split; lra.
Qed.

Lemma stored_binary64_increasing (f g : nat) :
  (f < g)%nat -> (Z.of_nat g <= 2 ^ 40)%Z ->
  round2_binary64 (importance_binary64 f)
  < round2_binary64 (importance_binary64 g).
Proof.
  intros Hfg Hg.
  pose proof (stored_binary64_bounds g ltac:(lia) Hg) as Bg. cbv zeta in Bg.
  assert (HG : inject_Z (Z.of_nat f) + 1 <= inject_Z (Z.of_nat g)).
  { change 1 with (inject_Z 1). rewrite <- inject_Z_plus, <- Zle_Qle. lia. }
  destruct f as [|f].
  - change (round2_binary64 (importance_binary64 0)) with 0.
    change (inject_Z (Z.of_nat 0)) with 0 in HG. lra.
  - pose proof (stored_binary64_bounds (S f) ltac:(lia) ltac:(lia)) as Bf.
    cbv zeta in Bf. lra.
Qed.

(** Up to 2^40 the order of the stored binary64 scores is the order of
    the exact ones: both are the order of the frequencies. *)
Lemma binary64_order_agrees (f g : nat) :
  (Z.of_nat f <= 2 ^ 40)%Z -> (Z.of_nat g <= 2 ^ 40)%Z ->
  (round2_binary64 (importance_binary64 f)
   < round2_binary64 (importance_binary64 g)
   <-> round2 (importance_score f) < round2 (importance_score g)).
Proof.
  intros Hf Hg.
  destruct (Nat.lt_trichotomy f g) as [H | [-> | H]].
  - split; intros _;
      [apply stored_importance_increasing
      | apply stored_binary64_increasing]; assumption.
  - split; intros H; exfalso; revert H; apply Qlt_irrefl.
  - pose proof (stored_importance_increasing g f H).
    pose proof (stored_binary64_increasing g f H Hf).
    split; intros H'; lra.
Qed.

End Binary64.

(** For the frequencies up to 256 the binary64 computation stores the
    binary64 number nearest to the exact two-decimal score, except at
    39 and 199, where the exact score is a tie and binary64 falls
    just below it (39.97 and 199.99 for 39.98 and 200.00); the stored
    numbers grow strictly with the frequency. *)
Lemma binary64_scores :
  forallb
    (fun f =>
       Qeq_bool (round2_binary64 (importance_binary64 f))
         (binary64 (round2 (importance_score f)))
       || (f =? 39) || (f =? 199))
    (seq 0 257) = true
  /\ round2_binary64 (importance_binary64 39) = binary64 (3997 # 100)
  /\ round2_binary64 (importance_binary64 199) = binary64 (19999 # 100)
  /\ forallb
       (fun f =>
          negb
            (Qle_bool (round2_binary64 (importance_binary64 (S f)))
               (round2_binary64 (importance_binary64 f))))
       (seq 0 256) = true.
Proof.
  split; [vm_compute; reflexivity|].
  split; [vm_compute; reflexivity|].
  split; vm_compute; reflexivity.
Qed.

Lemma frequency_theme_of tc cooc (e : str * nat) :
  frequency (theme_of tc cooc e) = snd e.
Proof. destruct e. reflexivity. Qed.

Lemma term_theme_of tc cooc (e : str * nat) :
  term (theme_of tc cooc e) = fst e.
Proof. destruct e. reflexivity. Qed.

Lemma importance_theme_of tc cooc (e : str * nat) :
  importance (theme_of tc cooc e)
  = round2_binary64 (importance_binary64 (snd e)).
Proof. destruct e. reflexivity. Qed.

(** Up to the bound the comparison of the stored scores is the
    comparison of the frequencies. *)
Lemma importance_lt_theme_of tc cooc (x y : str * nat) :
  (Z.of_nat (snd x) <= frequency_bound)%Z ->
  (Z.of_nat (snd y) <= frequency_bound)%Z ->
  importance_lt (theme_of tc cooc x) (theme_of tc cooc y)
  = (snd x <? snd y)%nat.
Proof.
  unfold importance_lt, frequency_bound. rewrite !importance_theme_of.
  destruct x as [t f], y as [t' g]. cbn [snd]. intros Hf Hg.
  destruct (f <? g)%nat eqn:E.
  - apply Nat.ltb_lt in E. apply negb_true_iff.
    destruct (Qle_bool _ _) eqn:E'; [|reflexivity].
    apply Qle_bool_iff in E'.
    pose proof (stored_binary64_increasing f g E Hg). lra.
  - apply Nat.ltb_ge in E. apply negb_false_iff, Qle_bool_iff.
    destruct (Nat.eq_dec g f) as [-> | Hne]; [apply Qle_refl|].
    apply Qlt_le_weak, stored_binary64_increasing; [lia | exact Hf].
Qed.

Lemma importance_lt_asym (x y : Theme) :
  importance_lt x y = true -> importance_lt y x = false.
Proof.
  unfold importance_lt. rewrite negb_true_iff, negb_false_iff.
  intros H. apply Qle_bool_iff.
  destruct (Qlt_le_dec (importance y) (importance x)) as [Hlt | Hle];
    [|exact Hle].
  apply Qlt_le_weak, Qle_bool_iff in Hlt. congruence.
Qed.

Lemma Sorted_map_in {A B : Type} (P : A -> Prop) (R : A -> A -> Prop)
      (R' : B -> B -> Prop) (f : A -> B) (l : list A) :
  (forall x y, P x -> P y -> R x y -> R' (f x) (f y)) ->
  Forall P l -> Sorted R l -> Sorted R' (map f l).
Proof.
  intros Hf HP. induction 1 as [|x l Hl IH Hx]; simpl; constructor.
  - inversion HP; subst. apply IH. assumption.
  - inversion HP as [|? ? Px Pl]; subst.
    destruct Hx as [|y l' Hxy]; simpl; constructor.
    inversion Pl; subst. apply Hf; assumption.
Qed.

Lemma most_common_bounded (n : nat) (tf : Counter) :
  bounded tf -> bounded (most_common n tf).
Proof.
  unfold bounded. rewrite !Forall_forall. intros H e He.
  apply H. eapply most_common_In, He.
Qed.

(** On a table with counts up to the bound the sort by importance
    leaves the frequency order as it is. *)
Lemma ranked_themes_by_frequency tf tc cooc :
  bounded tf ->
  ranked_themes tf tc cooc = map (theme_of tc cooc) (most_common 30 tf).
Proof.
  intros Hb. unfold ranked_themes. apply sort_desc_sorted_id.
  eapply Sorted_map_in;
    [|apply (most_common_bounded 30), Hb | apply most_common_sorted].
  intros x y Hx Hy H. unfold not_lt in *. cbv beta in Hx, Hy.
  rewrite importance_lt_theme_of by assumption. exact H.
Qed.

(** Whatever the counts, the ranking holds the themes of the 30 most
    frequent terms, by descending stored score. *)
Lemma ranked_themes_perm tf tc cooc :
  Permutation (ranked_themes tf tc cooc)
    (map (theme_of tc cooc) (most_common 30 tf)).
Proof. apply sort_desc_perm. Qed.

Lemma ranked_themes_In tf tc cooc (th : Theme) :
  In th (ranked_themes tf tc cooc) ->
  exists e, In e (most_common 30 tf) /\ th = theme_of tc cooc e.
Proof.
  intros H. apply (Permutation_in _ (ranked_themes_perm tf tc cooc)) in H.
  apply in_map_iff in H. destruct H as [e [<- He]]. eauto.
Qed.

(** The dominant and the emerging themes are themes of the ranking. *)
Lemma reported_themes_In tf tc cooc name (th : Theme) :
  In th (dominant_themes (generate_insights tf tc cooc name)
           ++ emerging_themes (generate_insights tf tc cooc name)) ->
  exists e, In e (most_common 30 tf) /\ th = theme_of tc cooc e.
Proof.
  intros Hin. cbn [generate_insights dominant_themes emerging_themes] in Hin.
  apply ranked_themes_In. apply in_app_or in Hin.
  destruct Hin as [Hin | Hin]; apply In_firstn in Hin; [exact Hin|].
  apply filter_In in Hin. tauto.
Qed.

Lemma ranked_themes_sorted tf tc cooc :
  Sorted importance_ge (ranked_themes tf tc cooc).
Proof.
  assert (H : Sorted (not_lt importance_lt) (ranked_themes tf tc cooc)).
  { apply sort_desc_sorted, importance_lt_asym. }
  revert H. generalize (ranked_themes tf tc cooc) as l.
  induction 1 as [|x l Hl IH Hx]; constructor; [exact IH|].
  destruct Hx as [|y l' Hxy]; constructor.
  unfold not_lt, importance_lt in Hxy. apply negb_false_iff in Hxy.
  apply Qle_bool_iff in Hxy. exact Hxy.
Qed.

(** The two frequencies just below 2^53 at which binary64 inverts the
    order of the scores. *)
Lemma binary64_inversion (f g : nat) :
  Z.of_nat f = 9007199254740990%Z ->
  Z.of_nat g = 9007199254740991%Z ->
  (round2_binary64 (importance_binary64 g)
   < round2_binary64 (importance_binary64 f))%Q.
Proof.
  intros Hf Hg. unfold importance_binary64. rewrite Hf, Hg.
  vm_compute. reflexivity.
Qed.

Lemma ranking_inversion (f g : nat) (a b : str) tc cooc :
  Z.of_nat f = 9007199254740990%Z ->
  Z.of_nat g = 9007199254740991%Z ->
  map frequency (ranked_themes [(a, g); (b, f)] tc cooc) = [f; g].
Proof.
  intros Hf Hg. unfold ranked_themes, most_common.
  assert (Hfg : (g <? f)%nat = false) by (apply Nat.ltb_ge; lia).
  assert (Hs : sort_desc count_lt [(a, g); (b, f)] = [(a, g); (b, f)]).
  { cbn [sort_desc fold_right insert_desc]. unfold count_lt. cbn [snd].
    rewrite Hfg. reflexivity. }
  rewrite Hs. cbn [firstn map sort_desc fold_right insert_desc].
  assert (Hlt : importance_lt (theme_of tc cooc (a, g))
                  (theme_of tc cooc (b, f)) = true).
  { unfold importance_lt. rewrite !importance_theme_of. cbn [snd].
    apply negb_true_iff. destruct (Qle_bool _ _) eqn:E; [|reflexivity].
    apply Qle_bool_iff in E.
    pose proof (binary64_inversion f g Hf Hg). lra. }
  rewrite Hlt. cbn [map]. rewrite !frequency_theme_of. reflexivity.
Qed.

(** C4, as amended.  The formula [frequency * (1 + 1/(1 + frequency))]
    grows strictly in exact arithmetic, by at least one half from one
    frequency to the next.  What [generate_insights] stores for a
    theme of frequency [f] is the binary64 value of the formula
    rounded to two decimals: a number between [f + 0.49] and
    [f + 1.01] for [1 <= f <= 2^40] (39.97 for 39 and 199.99 for 199,
    where exact arithmetic gives 39.98 and 200.00), which grows
    strictly with the frequency up to 2^40.  The ranked list always
    holds the themes of the 30 most frequent terms in descending
    order of the stored score, and the dominant themes are its first
    five; when the counts are at most 2^40 the sort leaves the
    frequency order as it was, so no term stands above one of higher
    frequency. *)
Theorem importance_keeps_frequency_order :
  (forall f g : nat,
      f < g -> (1 # 2 <= importance_score g - importance_score f)%Q)
  /\ (forall tf tc cooc th,
         In th (ranked_themes tf tc cooc) ->
         In (term th, frequency th) (most_common 30 tf)
         /\ importance th
            = round2_binary64 (importance_binary64 (frequency th))
         /\ (frequency th = 39 -> importance th = binary64 (3997 # 100))
         /\ (frequency th = 199 -> importance th = binary64 (19999 # 100))
         /\ (1 <= frequency th ->
             (Z.of_nat (frequency th) <= frequency_bound)%Z ->
             (inject_Z (Z.of_nat (frequency th)) + (49 # 100)
              <= importance th
              <= inject_Z (Z.of_nat (frequency th)) + (101 # 100))%Q))
  /\ (forall f g : nat,
         f < g -> (Z.of_nat g <= frequency_bound)%Z ->
         (round2_binary64 (importance_binary64 f)
          < round2_binary64 (importance_binary64 g))%Q)
  /\ forall tf tc cooc,
       let by_frequency := map (theme_of tc cooc) (most_common 30 tf) in
       let ranked := ranked_themes tf tc cooc in
       Permutation ranked by_frequency
       /\ Sorted importance_ge ranked
       /\ (forall name,
              dominant_themes (generate_insights tf tc cooc name)
              = firstn 5 ranked)
       /\ (bounded tf ->
           ranked = by_frequency
           /\ StronglySorted (fun x y => frequency y <= frequency x) ranked).
Proof.
  split; [intros f g H; apply importance_score_gap, H|].
  split.
  { intros tf tc cooc th Hth.
    destruct (ranked_themes_In _ _ _ _ Hth) as [[t f] [He ->]].
    rewrite importance_theme_of. cbn [theme_of term frequency snd].
    split; [exact He|]. split; [reflexivity|].
    split; [intros ->; apply binary64_scores|].
    split; [intros ->; apply binary64_scores|].
    intros H1 H2. apply (stored_binary64_bounds f H1 H2). }
  split; [intros f g; apply stored_binary64_increasing|].
  intros tf tc cooc by_frequency ranked. subst by_frequency ranked.
  split; [apply ranked_themes_perm|].
  split; [apply ranked_themes_sorted|].
  split; [reflexivity|].
  intros Hb. split; [apply ranked_themes_by_frequency, Hb|].
  rewrite ranked_themes_by_frequency by exact Hb.
  apply Sorted_StronglySorted.
  - intros x y z Hxy Hyz. lia.
  - eapply Sorted_map; [|apply most_common_sorted].
    intros x y H. unfold not_lt, count_lt in H. apply Nat.ltb_ge in H.
    rewrite !frequency_theme_of. exact H.
Qed.

Lemma importance_keeps_frequency_order_witness :
  39 < 40
  /\ (round2_binary64 (importance_binary64 39)
      < round2_binary64 (importance_binary64 40))%Q.
Proof.
  split; [lia|].
  apply (proj1 (proj2 (proj2 importance_keeps_frequency_order)) 39 40);
    [lia | vm_compute; discriminate].
Defined.

(** The claim as it stands fails for binary64: from the frequency
    2^53 - 2 to 2^53 - 1 the stored score goes down, from 2^53 to
    2^53 - 1, and in a table with these two counts the sort by
    importance puts the term of lower frequency first. *)
Lemma importance_claim_counterexample :
  Z.to_nat 9007199254740990 < Z.to_nat 9007199254740991
  /\ (round2_binary64 (importance_binary64 (Z.to_nat 9007199254740991))
      < round2_binary64 (importance_binary64 (Z.to_nat 9007199254740990)))%Q
  /\ map frequency
       (ranked_themes
          [(cps "a", Z.to_nat 9007199254740991);
           (cps "b", Z.to_nat 9007199254740990)] [] [])
     = [Z.to_nat 9007199254740990; Z.to_nat 9007199254740991].
Proof.
  assert (Hf : Z.of_nat (Z.to_nat 9007199254740990) = 9007199254740990%Z)
    by (apply Z2Nat.id; discriminate).
  assert (Hg : Z.of_nat (Z.to_nat 9007199254740991) = 9007199254740991%Z)
    by (apply Z2Nat.id; discriminate).
  split; [apply Z2Nat.inj_lt; [discriminate | discriminate | reflexivity]|].
  split; [apply binary64_inversion; assumption|].
  apply ranking_inversion; assumption.
Qed.

(** ** Clusters *)

Section Clusters.
Variable term_frequencies : Counter.

Lemma cluster_step_invariant state theme :
  cluster_invariant term_frequencies state ->
  cluster_invariant term_frequencies
    (cluster_step term_frequencies state theme).
Proof.
  destruct state as [clusters processed]. intros [H1 [H2 H3]].
  unfold cluster_step.
  destruct (str_mem (term theme) processed) eqn:Em; [repeat split; assumption|].
  destruct (related_terms theme) as [|r rs] eqn:Er;
    [repeat split; assumption|].
  destruct (0 <? length (map related_term (firstn 3 (r :: rs)))) eqn:El;
    [|repeat split; assumption].
  unfold cluster_invariant. cbn [fst snd] in *. repeat split.
  - rewrite map_app, H1. reflexivity.
  - constructor; [|exact H2]. rewrite <- str_mem_In, Em. discriminate.
  - apply Forall_app. split; [exact H3|]. constructor; [|constructor].
    unfold well_formed_cluster. cbn [cluster_related_terms cohesion
      total_mentions central_term].
    apply Nat.ltb_lt in El. repeat split; try lia.
    rewrite length_map, length_firstn. lia.
Qed.

Lemma build_clusters_invariant (dominant : list Theme) :
  NoDup (map central_term (build_clusters term_frequencies dominant))
  /\ Forall (well_formed_cluster term_frequencies)
       (build_clusters term_frequencies dominant).
Proof.
  unfold build_clusters.
  assert (H : cluster_invariant term_frequencies
                (fold_left (cluster_step term_frequencies)
                   (firstn 20 dominant) ([], []))).
  { generalize (firstn 20 dominant) as l.
    assert (H0 : cluster_invariant term_frequencies ([], [])).
    { repeat split; constructor. }
    revert H0. generalize (@nil Cluster, @nil str) as state.
    intros state H0 l. revert state H0.
    induction l as [|theme l IH]; intros state H0; simpl; [exact H0|].
    apply IH, cluster_step_invariant, H0. }
  destruct H as [H1 [H2 H3]]. split; [|exact H3].
  rewrite H1. apply NoDup_rev, H2.
Qed.

End Clusters.

(** C5. In the [concept_clusters] of the insights no term is the
    central term of two clusters; there are at most 5 clusters, each
    with 1 to 3 related terms, a cohesion of one more than the number
    of related terms, and [total_mentions] equal to the frequency of the
    central term plus the frequencies of the related terms.  A term can
    be a related term of several clusters: in "foo bar baz" the term
    "baz" is related to the first two clusters. *)
Theorem concept_clusters_shape :
  (forall tf tc cooc name,
      let clusters := concept_clusters (generate_insights tf tc cooc name) in
      NoDup (map central_term clusters)
      /\ length clusters <= 5
      /\ Forall (well_formed_cluster tf) clusters)
  /\ exists insights c1 c2,
       analyze_content (U := Latin) (cps "foo bar baz") (cps "doc.md")
       = Some insights
       /\ nth_error (concept_clusters insights) 0 = Some c1
       /\ nth_error (concept_clusters insights) 1 = Some c2
       /\ In (cps "baz") (cluster_related_terms c1)
       /\ In (cps "baz") (cluster_related_terms c2).
Proof.
  split.
  - intros tf tc cooc name clusters. subst clusters.
    cbn [generate_insights concept_clusters].
    destruct (build_clusters_invariant tf (ranked_themes tf tc cooc))
      as [H1 H2].
    repeat split.
    + rewrite <- firstn_map. apply NoDup_firstn, H1.
    + rewrite length_firstn. lia.
    + apply Forall_forall. intros c Hc. apply In_firstn in Hc.
      rewrite Forall_forall in H2. apply H2, Hc.
  - eexists. eexists. eexists. split; [vm_compute; reflexivity|].
    split; [reflexivity|]. split; [reflexivity|].
    split; simpl; auto.
Qed.

(** ** Context snippets *)

(** C10. The context sampler matches substrings, not words.  In
    [cat_text] the significant term "cat" has frequency 1 and one
    whole-word occurrence, at index 0; [extract_contexts] returns two
    snippets, the second taken around index 67, where "cat" stands
    inside the word "concatenate". *)
Theorem contexts_match_inside_words :
  exists text t p c1 c2,
    In t (significant_terms_of
            (count_terms (extract_terms (U := Latin) text)))
    /\ counter_get (count_terms (extract_terms text)) t = 1
    /\ whole_word_occurrences t (str_lower text) = [0]
    /\ extract_contexts text t = Some [c1; c2]
    /\ find (str_lower text) (str_lower t) (0 + length t) = Some p
    /\ whole_word_at (str_lower text) t p = false
    /\ starts_with t (skipn p (str_lower text)) = true
    /\ c2 = strip (slice text (p - 50)
                     (Nat.min (length text) (p + length t + 50))).
Proof.
  exists cat_text, (cps "cat"), 67.
  eexists. eexists.
  split; [vm_compute; auto|].
  split; [vm_compute; reflexivity|].
  split; [vm_compute; reflexivity|].
  split; [vm_compute; reflexivity|].
  split; [vm_compute; reflexivity|].
  split; [vm_compute; reflexivity|].
  split; vm_compute; reflexivity.
Qed.

(** ** The file system *)

Lemma path_eqb_eq (p q : Path) : path_eqb p q = true <-> p = q.
Proof.
  revert q. induction p as [|a p IH]; intros [|b q]; simpl; split;
    try congruence; try easy.
  - rewrite andb_true_iff, str_eqb_eq, IH. intros [-> ->]. reflexivity.
  - intros [= -> ->]. rewrite str_eqb_refl. apply IH. reflexivity.
Qed.

Lemma nodes_set_node_same p n w : nodes (set_node p n w) p = n.
Proof.
  simpl. replace (path_eqb p p) with true; [reflexivity|].
  symmetry. apply path_eqb_eq. reflexivity.
Qed.

Lemma nodes_set_node_other p n w q :
  q <> p -> nodes (set_node p n w) q = nodes w q.
Proof.
  intros H. simpl. destruct (path_eqb q p) eqn:E; [|reflexivity].
  apply path_eqb_eq in E. congruence.
Qed.

Lemma path_join_neq (d : Path) (name : str) : path_join d name <> d.
Proof.
  unfold path_join. intros H. apply (f_equal (@length str)) in H.
  rewrite length_app in H. simpl in H. lia.
Qed.

Lemma path_join_inj (d : Path) (a b : str) :
  path_join d a = path_join d b -> a = b.
Proof.
  unfold path_join. intros H. apply app_inv_head in H. congruence.
Qed.

Lemma output_paths_differ (d : Path) (base : str) :
  path_join d (base ++ cps "_report.md")
  <> path_join d (base ++ cps "_themes.json").
Proof.
  intros H. apply path_join_inj, app_inv_head in H. discriminate.
Qed.

Lemma same_but_trans ps ps' w1 w2 w3 :
  same_but ps w1 w2 -> same_but ps' w2 w3 -> same_but (ps ++ ps') w1 w3.
Proof.
  intros [H1 H2] [H3 H4]. split; [congruence|].
  intros q Hq. rewrite H4, H2; [reflexivity| |];
    intros Hin; apply Hq, in_or_app; auto.
Qed.

(** *** What [mkdir] changes *)

Lemma ancestors_spec (p q : Path) :
  In q (ancestors p) <->
  exists n, 1 <= n < length p /\ q = firstn n p.
Proof.
  unfold ancestors. rewrite in_map_iff. split.
  - intros [n [<- Hn]]. apply in_seq in Hn. exists n. split; [lia|reflexivity].
  - intros [n [Hn ->]]. exists n. split; [reflexivity|].
    apply in_seq. lia.
Qed.

Lemma on_the_way_length (p q : Path) :
  on_the_way p q -> length q <= length p.
Proof.
  intros [H | ->]; [|lia]. apply ancestors_spec in H.
  destruct H as [n [Hn ->]]. rewrite length_firstn. lia.
Qed.

Lemma path_join_off_the_way (d : Path) (name : str) :
  ~ on_the_way d (path_join d name).
Proof.
  intros H. apply on_the_way_length in H. unfold path_join in H.
  rewrite length_app in H. simpl in H. lia.
Qed.

Lemma make_directory_nodes (w : World) (a q : Path) :
  nodes (make_directory w a) q
  = if path_eqb q a then made (nodes w q) else nodes w q.
Proof.
  unfold make_directory.
  destruct (path_eqb q a) eqn:E.
  - apply path_eqb_eq in E. subst a.
    destruct (nodes w q) eqn:En; cbn [made]; try exact En.
    apply nodes_set_node_same.
  - destruct (nodes w a); try reflexivity.
    apply nodes_set_node_other. intros H. apply path_eqb_eq in H. congruence.
Qed.

Lemma make_directory_fields (w : World) (a : Path) :
  os_error (make_directory w a) = os_error w
  /\ glob_md (make_directory w a) = glob_md w
  /\ clock (make_directory w a) = clock w
  /\ ticks (make_directory w a) = ticks w.
Proof. unfold make_directory. destruct (nodes w a); auto. Qed.

Lemma made_idem (n : Node) : made (made n) = made n.
Proof. destruct n; reflexivity. Qed.

Lemma make_directories_nodes (l : list Path) (w : World) (q : Path) :
  nodes (fold_left make_directory l w) q
  = if existsb (path_eqb q) l then made (nodes w q) else nodes w q.
Proof.
  revert w. induction l as [|a l IH]; intros w; cbn [fold_left existsb];
    [reflexivity|].
  rewrite IH, make_directory_nodes.
  destruct (path_eqb q a); cbn [orb]; [|reflexivity].
  rewrite made_idem. now destruct (existsb (path_eqb q) l).
Qed.

Lemma make_directories_fields (l : list Path) (w : World) :
  os_error (fold_left make_directory l w) = os_error w
  /\ glob_md (fold_left make_directory l w) = glob_md w
  /\ clock (fold_left make_directory l w) = clock w
  /\ ticks (fold_left make_directory l w) = ticks w.
Proof.
  revert w. induction l as [|a l IH]; intros w; cbn [fold_left]; [auto|].
  destruct (IH (make_directory w a)) as [H1 [H2 [H3 H4]]].
  destruct (make_directory_fields w a) as [G1 [G2 [G3 G4]]].
  repeat split; congruence.
Qed.

Lemma existsb_path_In (q : Path) (l : list Path) :
  existsb (path_eqb q) l = true <-> In q l.
Proof.
  rewrite existsb_exists. split.
  - intros [x [Hx E]]. apply path_eqb_eq in E. now subst.
  - intros H. exists q. split; [exact H|]. now apply path_eqb_eq.
Qed.

Lemma mkdir_cases (d : Path) (w w1 : World) :
  mkdir d w = inr w1 ->
  (nodes w d = Directory /\ w1 = w)
  \/ (nodes w d = Missing
      /\ w1 = set_node d Directory
                (fold_left make_directory (ancestors d) w)).
Proof.
  unfold mkdir. destruct (os_error w d); [discriminate|].
  destruct (nodes w d); try discriminate; intros [= <-]; auto.
Qed.

(** A [mkdir] that finds its path missing makes it and its missing
    ancestors, and nothing else. *)
Lemma mkdir_made (d : Path) (w w1 : World) :
  nodes w d = Missing ->
  mkdir d w = inr w1 ->
  forall q,
    nodes w1 q = (if existsb (path_eqb q) (ancestors d ++ [d])
                  then made (nodes w q) else nodes w q).
Proof.
  intros Hd H q. destruct (mkdir_cases _ _ _ H) as [[Hd' _] | [_ ->]];
    [congruence|].
  rewrite existsb_app. cbn [existsb]. rewrite orb_false_r.
  unfold set_node. cbn [nodes]. rewrite make_directories_nodes.
  destruct (path_eqb q d) eqn:E.
  - apply path_eqb_eq in E. subst q. rewrite orb_true_r, Hd. reflexivity.
  - rewrite orb_false_r. reflexivity.
Qed.

(** After a successful [mkdir] the path is a directory; every other
    node is as it was, or was missing on the way to the path and is
    now a directory. *)
Lemma mkdir_nodes (d : Path) (w w1 : World) :
  mkdir d w = inr w1 ->
  nodes w1 d = Directory
  /\ forall q,
      nodes w1 q = nodes w q
      \/ (nodes w q = Missing /\ nodes w1 q = Directory /\ on_the_way d q).
Proof.
  intros H. destruct (mkdir_cases _ _ _ H) as [[Hd E] | [Hd E]].
  - subst w1. split; [exact Hd | auto].
  - pose proof (mkdir_made d w w1 Hd H) as Hq. subst w1.
    split; [apply nodes_set_node_same|]. intros q. rewrite Hq.
    destruct (existsb (path_eqb q) (ancestors d ++ [d])) eqn:Eq;
      [|now left].
    destruct (nodes w q) eqn:En; cbn [made]; try now left.
    right. split; [reflexivity|]. split; [reflexivity|].
    apply existsb_path_In, in_app_or in Eq.
    destruct Eq as [Eq | [<- | []]]; [now left | now right].
Qed.

Lemma mkdir_fields (d : Path) (w w1 : World) :
  mkdir d w = inr w1 ->
  os_error w1 = os_error w /\ glob_md w1 = glob_md w
  /\ clock w1 = clock w /\ ticks w1 = ticks w.
Proof.
  intros H. destruct (mkdir_cases _ _ _ H) as [[_ ->] | [_ ->]]; [auto|].
  apply (make_directories_fields (ancestors d) w).
Qed.

(** Texts are neither made nor lost. *)
Lemma mkdir_text (d : Path) (w w1 : World) (q : Path) (content : str) :
  mkdir d w = inr w1 ->
  (nodes w1 q = Text content <-> nodes w q = Text content).
Proof.
  intros H. destruct (mkdir_nodes _ _ _ H) as [_ Hq].
  destruct (Hq q) as [-> | [H1 [H2 _]]]; [reflexivity|].
  rewrite H1, H2. split; discriminate.
Qed.

Lemma mkdir_off_the_way (d : Path) (w w1 : World) (q : Path) :
  mkdir d w = inr w1 -> ~ on_the_way d q -> nodes w1 q = nodes w q.
Proof.
  intros H Hq. destruct (mkdir_nodes _ _ _ H) as [_ Hn].
  destruct (Hn q) as [E | [_ [_ Hway]]]; [exact E | contradiction].
Qed.

Lemma mkdir_on_the_way (d : Path) (w w1 : World) (q : Path) :
  nodes w d = Missing -> mkdir d w = inr w1 -> on_the_way d q ->
  nodes w1 q = made (nodes w q).
Proof.
  intros Hd H Hq. rewrite (mkdir_made _ _ _ Hd H q).
  replace (existsb (path_eqb q) (ancestors d ++ [d])) with true;
    [reflexivity|].
  symmetry. apply existsb_path_In, in_or_app.
  destruct Hq as [Hq | ->]; [now left | right; now left].
Qed.

Lemma mkdir_succeeds (d : Path) (w : World) :
  os_error w d = None ->
  nodes w d = Missing \/ nodes w d = Directory ->
  exists w', mkdir d w = inr w'.
Proof.
  intros He Hn. unfold mkdir. rewrite He.
  destruct Hn as [-> | ->]; eauto.
Qed.

Lemma write_text_succeeds (p : Path) (content : str) (w : World) :
  os_error w p = None -> nodes w p <> Directory ->
  exists w',
    write_text p content w = inr w'
    /\ same_but [p] w w' /\ nodes w' p = Text content.
Proof.
  intros He Hn. unfold write_text. rewrite He.
  exists (set_node p (Text content) w).
  split; [destruct (nodes w p); congruence|].
  split; [|apply nodes_set_node_same].
  split; [reflexivity|].
  intros q Hq. apply nodes_set_node_other. simpl in Hq. intuition congruence.
Qed.

Section ToolFacts.
Context {U : Unicode}.
Variable json_dump : Insights -> str.
Variable markdown_report : Time -> Insights -> str.

Lemma generate_markdown_report_succeeds insights (p : Path) (w : World) :
  os_error w p = None -> nodes w p <> Directory ->
  exists w',
    generate_markdown_report markdown_report insights p w = inr w'
    /\ same_but [p] w w'
    /\ nodes w' p = Text (markdown_report (clock w (ticks w)) insights).
Proof.
  intros He Hn. unfold generate_markdown_report. rewrite He.
  destruct (write_text_succeeds p
              (markdown_report (clock w (ticks w)) insights) (snd (now w)))
    as [w' [H1 [H2 H3]]]; [exact He | exact Hn|].
  exists w'. unfold now in *. cbn [snd] in *.
  destruct (nodes w p) eqn:E; try congruence; auto.
Qed.

(** When the directory can be made and the two files written, the
    tool succeeds with the insights of the content. *)
Lemma analyze_themes_succeeds (markdown_file output_dir : Path) (w : World)
      (content : str) (insights : Insights) :
  let base_name := path_stem markdown_file in
  let json_path := path_join output_dir (base_name ++ cps "_themes.json") in
  let md_path := path_join output_dir (base_name ++ cps "_report.md") in
  (forall p, os_error w p = None) ->
  nodes w markdown_file = Text content ->
  nodes w output_dir = Missing \/ nodes w output_dir = Directory ->
  nodes w json_path <> Directory ->
  nodes w md_path <> Directory ->
  analyze_content content (path_name markdown_file) = Some insights ->
  exists w',
    analyze_themes json_dump markdown_report markdown_file output_dir w
    = Some (Success insights json_path md_path, w')
    /\ nodes w' json_path = Text (json_dump insights).
Proof.
  intros base_name json_path md_path Hos Hfile Hdir Hjson Hmd Hrun.
  unfold analyze_themes.
  destruct (mkdir_succeeds output_dir w (Hos _) Hdir) as [w1 Em].
  rewrite Em.
  destruct (mkdir_fields _ _ _ Em) as [Ho1 _].
  assert (Hfile1 : nodes w1 markdown_file = Text content).
  { apply (mkdir_text _ _ _ _ _ Em), Hfile. }
  unfold path_exists, read_text. rewrite Hfile1. cbn [negb]. rewrite Hrun.
  fold base_name. fold json_path. fold md_path.
  destruct (write_text_succeeds json_path (json_dump insights) w1)
    as [w2 [-> [[Ho2 Hn2] Hj2]]].
  { rewrite Ho1. apply Hos. }
  { rewrite (mkdir_off_the_way _ _ _ _ Em); [exact Hjson|].
    apply path_join_off_the_way. }
  destruct (generate_markdown_report_succeeds insights md_path w2)
    as [w3 [-> [[Ho3 Hn3] _]]].
  { rewrite Ho2, Ho1. apply Hos. }
  { rewrite Hn2; [|intros [H | []]; symmetry in H;
                   exact (output_paths_differ output_dir base_name H)].
    rewrite (mkdir_off_the_way _ _ _ _ Em); [exact Hmd|].
    apply path_join_off_the_way. }
  exists w3. split; [reflexivity|].
  rewrite Hn3; [exact Hj2|].
  intros [H | []]. exact (output_paths_differ output_dir base_name H).
Qed.

End ToolFacts.

(** ** Empty text *)

Section EmptyText.
Context {U : Unicode} {F : UnicodeFacts U}.

Lemma extract_terms_empty : extract_terms (skip_metadata []) = [].
Proof.
  unfold extract_terms. cbn [skip_metadata marker].
  change (skip_metadata []) with (@nil char). rewrite lower_nil. reflexivity.
Qed.

Lemma analyze_content_no_terms (content name : str) :
  extract_terms (skip_metadata content) = [] ->
  analyze_content content name = Some (empty_insights name).
Proof.
  intros H. unfold analyze_content. rewrite H. reflexivity.
Qed.

(** C6. The empty text has no terms, and a file without terms is
    analysed with success whenever the output directory can be made
    and the two output files written: the insights returned, which
    are also the ones written as JSON, have empty lists of dominant
    themes, emerging themes, clusters and gap examples, a gap count of
    0 and 0 unique and total terms. *)
Theorem empty_text_is_analysed
        (json_dump : Insights -> str) (markdown_report : Time -> Insights -> str)
        (markdown_file output_dir : Path) (w : World) (content : str) :
  let base_name := path_stem markdown_file in
  let json_path := path_join output_dir (base_name ++ cps "_themes.json") in
  let md_path := path_join output_dir (base_name ++ cps "_report.md") in
  let insights :=
    {| source_file := path_name markdown_file;
       dominant_themes := [];
       emerging_themes := [];
       concept_clusters := [];
       potential_gaps := {| count := 0; examples := [] |};
       corpus_statistics := {| unique_terms := 0; total_terms := 0 |} |} in
  (forall p, os_error w p = None) ->
  nodes w markdown_file = Text content ->
  nodes w output_dir = Missing \/ nodes w output_dir = Directory ->
  nodes w json_path <> Directory ->
  nodes w md_path <> Directory ->
  content = [] \/ extract_terms (skip_metadata content) = [] ->
  exists w',
    analyze_themes json_dump markdown_report markdown_file output_dir w
    = Some (Success insights json_path md_path, w')
    /\ nodes w' json_path = Text (json_dump insights).
Proof.
  intros base_name json_path md_path insights Hos Hfile Hdir Hjson Hmd Hc.
  apply (analyze_themes_succeeds json_dump markdown_report markdown_file
           output_dir w content insights); try assumption.
  apply analyze_content_no_terms.
  destruct Hc as [-> | Hc]; [apply extract_terms_empty | exact Hc].
Qed.

End EmptyText.

Lemma empty_text_is_analysed_witness :
  exists w',
    analyze_themes no_json no_report [cps "in"; cps "empty.md"] [cps "out"]
      (empty_world (fun _ => 0%Z))
    = Some
        (Success (empty_insights (cps "empty.md"))
           [cps "out"; cps "empty_themes.json"]
           [cps "out"; cps "empty_report.md"], w')
    /\ nodes w' [cps "out"; cps "empty_themes.json"]
       = Text (no_json (empty_insights (cps "empty.md"))).
Proof.
  apply (empty_text_is_analysed (F := Latin_facts) no_json no_report
           [cps "in"; cps "empty.md"] [cps "out"]
           (empty_world (fun _ => 0%Z)) []).
  - intros p. reflexivity.
  - reflexivity.
  - left. reflexivity.
  - vm_compute. discriminate.
  - vm_compute. discriminate.
  - left. reflexivity.
Defined.

(** ** Two runs on the same text *)

Section Determinism.
Context {U : Unicode}.
Variable json_dump : Insights -> str.
Variable markdown_report : Time -> Insights -> str.

Lemma write_text_inv (p : Path) (content : str) (w w' : World) :
  write_text p content w = inr w' -> w' = set_node p (Text content) w.
Proof.
  unfold write_text. destruct (os_error w p); [discriminate|].
  destruct (nodes w p); congruence.
Qed.

Lemma generate_markdown_report_inv insights (p : Path) (w w' : World) :
  generate_markdown_report markdown_report insights p w = inr w' ->
  forall q, q <> p -> nodes w' q = nodes w q.
Proof.
  unfold generate_markdown_report.
  destruct (os_error w p) eqn:Eo; [discriminate|].
  assert (H : write_text p (markdown_report (fst (now w)) insights)
                (snd (now w)) = inr w' ->
              forall q, q <> p -> nodes w' q = nodes w q).
  { intros H q Hq. apply write_text_inv in H. subst w'.
    rewrite nodes_set_node_other by exact Hq. reflexivity. }
  destruct (nodes w p); try discriminate; exact H.
Qed.

Lemma analyze_themes_success_inv (markdown_file output_dir : Path)
      (w w' : World) (content : str) (insights : Insights)
      (json_path md_path : Path) :
  nodes w markdown_file = Text content ->
  analyze_themes json_dump markdown_report markdown_file output_dir w
  = Some (Success insights json_path md_path, w') ->
  analyze_content content (path_name markdown_file) = Some insights
  /\ json_path
     = path_join output_dir (path_stem markdown_file ++ cps "_themes.json")
  /\ nodes w' json_path = Text (json_dump insights).
Proof.
  intros Hfile. unfold analyze_themes.
  destruct (mkdir output_dir w) as [e | w1] eqn:Em; [discriminate|].
  assert (Hfile1 : nodes w1 markdown_file = Text content).
  { apply (mkdir_text _ _ _ _ _ Em), Hfile. }
  unfold path_exists, read_text. rewrite Hfile1. cbn [negb].
  destruct (analyze_content content (path_name markdown_file)) as [i|];
    [|discriminate].
  destruct (write_text _ _ w1) as [e | w2] eqn:Ew; [discriminate|].
  apply write_text_inv in Ew.
  destruct (generate_markdown_report _ _ _ w2) as [e | w3] eqn:Eg;
    [discriminate|].
  intros [= <- <- <- <-]. split; [reflexivity|]. split; [reflexivity|].
  rewrite (generate_markdown_report_inv _ _ _ _ Eg).
  - subst w2. apply nodes_set_node_same.
  - intros H. symmetry in H.
    exact (output_paths_differ output_dir (path_stem markdown_file) H).
Qed.

(** C9. Two runs of [analyze_themes] on a file with the same text, in
    any two states of the file system and at any two times, that both
    succeed return the same insights (hence the same dominant and
    emerging themes, clusters, gaps and statistics) and leave the same
    JSON file: the payload is a function of the text and the file name
    alone. *)
Theorem analysis_is_deterministic
        (markdown_file output_dir : Path) (w1 w2 w1' w2' : World)
        (content : str) (i1 i2 : Insights) (jp1 jp2 mp1 mp2 : Path) :
  nodes w1 markdown_file = Text content ->
  nodes w2 markdown_file = Text content ->
  analyze_themes json_dump markdown_report markdown_file output_dir w1
  = Some (Success i1 jp1 mp1, w1') ->
  analyze_themes json_dump markdown_report markdown_file output_dir w2
  = Some (Success i2 jp2 mp2, w2') ->
  i1 = i2
  /\ analyze_content content (path_name markdown_file) = Some i1
  /\ jp1 = jp2
  /\ nodes w1' jp1 = Text (json_dump i1)
  /\ nodes w2' jp2 = Text (json_dump i1).
Proof.
  intros H1 H2 R1 R2.
  destruct (analyze_themes_success_inv _ _ _ _ _ _ _ _ H1 R1)
    as [A1 [P1 N1]].
  destruct (analyze_themes_success_inv _ _ _ _ _ _ _ _ H2 R2)
    as [A2 [P2 N2]].
  assert (E : i1 = i2) by congruence. subst i2.
  repeat split; try assumption. congruence.
Qed.

End Determinism.

Lemma analysis_is_deterministic_witness :
  match
    analyze_themes no_json no_report [cps "in"; cps "a.md"] [cps "out"]
      corpus_world,
    analyze_themes no_json no_report [cps "in"; cps "a.md"] [cps "out"]
      other_world
  with
  | Some (Success i1 _ _, _), Some (Success i2 _ _, _) => i1 = i2
  | _, _ => False
  end.
Proof.
  destruct (analyze_themes no_json no_report [cps "in"; cps "a.md"]
              [cps "out"] corpus_world)
    as [[[e1 | i1 jp1 mp1] w1'] |] eqn:R1;
    [vm_compute in R1; discriminate | | vm_compute in R1; discriminate].
  destruct (analyze_themes no_json no_report [cps "in"; cps "a.md"]
              [cps "out"] other_world)
    as [[[e2 | i2 jp2 mp2] w2'] |] eqn:R2;
    [vm_compute in R2; discriminate | | vm_compute in R2; discriminate].
  apply (analysis_is_deterministic (U := Latin) no_json no_report
           [cps "in"; cps "a.md"] [cps "out"] corpus_world other_world
           w1' w2' democracy_5 i1 i2 jp1 jp2 mp1 mp2);
    [reflexivity | reflexivity | exact R1 | exact R2].
Defined.

(** ** The corpus ranking *)

Lemma counter_add_NoDup (c : Counter) (k : str) (n : nat) :
  NoDup (map fst c) -> NoDup (map fst (counter_add c k n)).
Proof.
  intros H. rewrite counter_add_keys.
  destruct (str_mem k (map fst c)) eqn:E; [rewrite app_nil_r; exact H|].
  apply NoDup_app; [exact H | repeat constructor; simpl; tauto|].
  intros x Hx [<- | []]. apply str_mem_In in Hx. congruence.
Qed.

Lemma counter_add_key_In (c : Counter) (k : str) (n : nat) (t : str) :
  In t (map fst (counter_add c k n)) <-> In t (map fst c) \/ t = k.
Proof.
  rewrite counter_add_keys, in_app_iff.
  destruct (str_mem k (map fst c)) eqn:E; simpl.
  - apply str_mem_In in E. intuition congruence.
  - intuition congruence.
Qed.

Lemma add_themes_get (themes : list Theme) (c : Counter) (t : str) :
  counter_get (fold_left add_theme themes c) t
  = counter_get c t
    + list_sum
        (map frequency (filter (fun theme => str_eqb (term theme) t) themes)).
Proof.
  revert c. induction themes as [|th themes IH]; intros c; simpl; [lia|].
  rewrite IH. unfold add_theme. rewrite counter_get_add.
  rewrite (str_eqb_sym t). destruct (str_eqb (term th) t); simpl; lia.
Qed.

Lemma add_themes_NoDup (themes : list Theme) (c : Counter) :
  NoDup (map fst c) -> NoDup (map fst (fold_left add_theme themes c)).
Proof.
  revert c. induction themes as [|th themes IH]; intros c H; simpl;
    [exact H|].
  apply IH, counter_add_NoDup, H.
Qed.

Lemma add_themes_key_In (themes : list Theme) (c : Counter) (t : str) :
  In t (map fst (fold_left add_theme themes c))
  <-> In t (map fst c) \/ exists theme, In theme themes /\ term theme = t.
Proof.
  revert c. induction themes as [|th themes IH]; intros c; simpl.
  - split; [auto | intros [H | [th [[] _]]]; exact H].
  - rewrite IH. unfold add_theme. rewrite counter_add_key_In. split.
    + intros [[H | ->] | [th' [H1 H2]]]; eauto.
    + intros [H | [th' [[<- | H1] H2]]]; eauto.
Qed.

Lemma corpus_get_from (ds : list Processed) (c : Counter) (t : str) :
  counter_get (fold_left add_document ds c) t
  = counter_get c t + summed_frequency t ds.
Proof.
  revert c. induction ds as [|d ds IH]; intros c; unfold summed_frequency;
    simpl; [lia|].
  rewrite IH. unfold add_document. rewrite add_themes_get.
  unfold summed_frequency, theme_frequency. lia.
Qed.

Lemma corpus_NoDup_from (ds : list Processed) (c : Counter) :
  NoDup (map fst c) -> NoDup (map fst (fold_left add_document ds c)).
Proof.
  revert c. induction ds as [|d ds IH]; intros c H; simpl; [exact H|].
  apply IH, add_themes_NoDup, H.
Qed.

Lemma corpus_key_In_from (ds : list Processed) (c : Counter) (t : str) :
  In t (map fst (fold_left add_document ds c))
  <-> In t (map fst c) \/ is_dominant_in ds t.
Proof.
  revert c. induction ds as [|d ds IH]; intros c; simpl.
  - split; [auto | intros [H | [d [th [[] _]]]]; exact H].
  - rewrite IH. unfold add_document. rewrite add_themes_key_In.
    unfold is_dominant_in. split.
    + intros [[H | [th [H1 H2]]] | [d' [th [H1 [H2 H3]]]]]; eauto.
      * right. exists d, th. simpl. auto.
      * right. exists d', th. simpl. auto.
    + intros [H | [d' [th [[<- | H1] [H2 H3]]]]]; eauto.
      right. exists d', th. auto.
Qed.

Lemma StronglySorted_app_rel {A : Type} (R : A -> A -> Prop)
      (l1 l2 : list A) :
  StronglySorted R (l1 ++ l2) ->
  forall x y, In x l1 -> In y l2 -> R x y.
Proof.
  induction l1 as [|a l1 IH]; intros H x y Hx Hy; [destruct Hx|].
  simpl in H. inversion H as [|? ? Hs Hf]; subst.
  destruct Hx as [<- | Hx].
  - rewrite Forall_forall in Hf. apply Hf, in_or_app. now right.
  - apply IH; assumption.
Qed.

Lemma most_common_strongly_sorted (n : nat) (c : Counter) :
  StronglySorted (fun x y => snd y <= snd x) (most_common n c).
Proof.
  apply Sorted_StronglySorted.
  - intros x y z Hxy Hyz. lia.
  - rewrite <- (map_id (most_common n c)).
    eapply Sorted_map; [|apply most_common_sorted].
    intros x y H. unfold not_lt, count_lt in H. apply Nat.ltb_ge in H.
    exact H.
Qed.

(** What is left out of the first [n] is not above what is kept. *)
Lemma most_common_rest (n : nat) (c : Counter) (e : str * nat) :
  In e c -> ~ In e (most_common n c) ->
  length (most_common n c) = n
  /\ forall e', In e' (most_common n c) -> snd e <= snd e'.
Proof.
  intros Hin Hout. unfold most_common in *.
  set (sorted := sort_desc count_lt c) in *.
  assert (Hs : In e sorted) by (apply sort_desc_In, Hin).
  rewrite <- (firstn_skipn n sorted) in Hs. apply in_app_or in Hs.
  destruct Hs as [Hs | Hs]; [tauto|].
  split.
  - apply firstn_length_le.
    destruct (Nat.le_gt_cases n (length sorted)) as [H | H]; [exact H|].
    rewrite skipn_all2 in Hs by lia. destruct Hs.
  - intros e' He'.
    assert (Hss : StronglySorted (fun x y => snd y <= snd x)
                    (firstn n sorted ++ skipn n sorted)).
    { rewrite firstn_skipn.
      replace sorted with (most_common (length sorted) c).
      - apply most_common_strongly_sorted.
      - unfold most_common. fold sorted. apply firstn_all. }
    exact (StronglySorted_app_rel _ _ _ Hss e' e He' Hs).
Qed.

Section Batch.
Context {U : Unicode}.
Variable json_dump : Insights -> str.
Variable markdown_report : Time -> Insights -> str.

Lemma accumulate_add_document (c : Counter) (name : str) (i : Insights) :
  accumulate c i
  = add_document c {| filename := name; document_insights := i |}.
Proof. reflexivity. Qed.

Lemma batch_loop_frequencies (md_files : list Path) (output_dir : Path) :
  forall st st',
    batch_loop json_dump markdown_report md_files output_dir st = Some st' ->
    st_frequencies st = fold_left add_document (st_processed st) [] ->
    st_frequencies st' = fold_left add_document (st_processed st') [].
Proof.
  induction md_files as [|md_file rest IH]; intros st st'; simpl.
  - intros [= <-] H. exact H.
  - destruct (analyze_themes _ _ md_file output_dir (st_world st))
      as [[[e | i jp mp] w1] |]; [| |discriminate]; intros Hl Hinv;
      apply (IH _ _ Hl); cbn [st_frequencies st_processed].
    + exact Hinv.
    + rewrite fold_left_app. cbn [fold_left]. rewrite <- Hinv.
      apply accumulate_add_document.
Qed.

Lemma batch_ranking (input_dir output_dir : Path) (w w' : World)
      processed failed combined stats :
  analyze_themes_batch json_dump markdown_report input_dir output_dir w
  = Some (BatchSuccess processed failed combined stats, w') ->
  top_themes_across_corpus combined
  = most_common 20 (corpus_frequencies processed).
Proof.
  unfold analyze_themes_batch.
  destruct (mkdir output_dir w) as [e | w1]; [discriminate|].
  destruct (negb (path_exists w1 input_dir)); [discriminate|].
  destruct (glob_md w1 input_dir) as [|f fs] eqn:Eg; [discriminate|].
  destruct (batch_loop _ _ (f :: fs) output_dir _) as [st|] eqn:El;
    [|discriminate].
  intros [= <- <- <- <- <-]. cbn [top_themes_across_corpus].
  apply batch_loop_frequencies in El; [|reflexivity].
  rewrite El. reflexivity.
Qed.

(** C8. In a successful batch run the combined ranking holds at most
    20 distinct terms in descending order of their totals; every term
    in it is a dominant theme of some document analysed with success,
    and its total is the sum, over these documents, of the frequency
    recorded for it in their dominant themes; a dominant theme that is
    left out has a total no greater than any of the 20 that are kept.
    In [corpus_world] the two documents record "democracy" with
    frequencies 5 and 3 and the ranking starts with ("democracy", 8);
    "fairly", a term of the second document that is not among its
    dominant themes, is not ranked. *)
Theorem corpus_ranking_sums_dominant_themes :
  (forall (input_dir output_dir : Path) (w w' : World)
          processed failed combined stats,
      analyze_themes_batch json_dump markdown_report input_dir output_dir w
      = Some (BatchSuccess processed failed combined stats, w') ->
      let top := top_themes_across_corpus combined in
      length top <= 20
      /\ NoDup (map fst top)
      /\ StronglySorted (fun x y => snd y <= snd x) top
      /\ (forall t n,
             In (t, n) top ->
             is_dominant_in processed t
             /\ n = summed_frequency t processed)
      /\ (forall t,
             is_dominant_in processed t ->
             In (t, summed_frequency t processed) top
             \/ (length top = 20
                 /\ forall e, In e top ->
                              summed_frequency t processed <= snd e)))
  /\ exists processed failed combined stats w',
       analyze_themes_batch (U := Latin) no_json no_report [cps "in"]
         [cps "out"] corpus_world
       = Some (BatchSuccess processed failed combined stats, w')
       /\ map (fun d => theme_frequency (cps "democracy")
                          (document_insights d)) processed = [5; 3]
       /\ top_themes_across_corpus combined
          = [(cps "democracy", 8); (cps "votes", 2); (cps "needs", 1);
             (cps "debate", 1); (cps "counts", 1); (cps "wins", 1);
             (cps "elections", 1)].
Proof.
  split.
  - intros input_dir output_dir w w' processed failed combined stats H top.
    subst top. rewrite (batch_ranking _ _ _ _ _ _ _ _ H).
    set (totals := corpus_frequencies processed).
    assert (Hnd : NoDup (map fst totals)).
    { apply corpus_NoDup_from. constructor. }
    assert (Hkey : forall t, In t (map fst totals)
                             <-> is_dominant_in processed t).
    { intros t. unfold totals, corpus_frequencies.
      rewrite corpus_key_In_from. simpl. tauto. }
    assert (Hget : forall t n, In (t, n) totals
                               -> n = summed_frequency t processed).
    { intros t n Hin. rewrite <- (alist_get_In 0 t n totals Hnd Hin).
      change (alist_get 0 t totals) with (counter_get totals t).
      unfold totals, corpus_frequencies. rewrite corpus_get_from.
      reflexivity. }
    split; [unfold most_common; rewrite length_firstn; lia|].
    split; [apply most_common_NoDup, Hnd|].
    split; [apply most_common_strongly_sorted|].
    split.
    + intros t n Hin. apply most_common_In in Hin. split.
      * apply Hkey. apply in_map_iff. exists (t, n). auto.
      * apply Hget, Hin.
    + intros t Ht. apply Hkey in Ht. apply in_map_iff in Ht.
      destruct Ht as [[t' n] [E Hin]]. simpl in E. subst t'.
      rewrite <- (Hget t n Hin).
      assert (Hdec : forall x y : str * nat, {x = y} + {x <> y}).
      { decide equality; [apply Nat.eq_dec | apply str_eq_dec]. }
      destruct (in_dec Hdec (t, n) (most_common 20 totals)) as [Hi | Hi];
        [now left|].
      right. exact (most_common_rest 20 totals (t, n) Hin Hi).
  - do 5 eexists. split; [vm_compute; reflexivity|].
    split; vm_compute; reflexivity.
Qed.

End Batch.

Lemma corpus_ranking_sums_dominant_themes_witness :
  match
    analyze_themes_batch no_json no_report [cps "in"] [cps "out"] corpus_world
  with
  | Some (BatchSuccess _ _ combined _, _) =>
      length (top_themes_across_corpus combined) <= 20
  | _ => False
  end.
Proof.
  destruct (analyze_themes_batch no_json no_report [cps "in"] [cps "out"]
              corpus_world)
    as [[[e | processed failed combined stats] w'] |] eqn:R;
    [vm_compute in R; discriminate | | vm_compute in R; discriminate].
  apply (proj1 (corpus_ranking_sums_dominant_themes no_json no_report)
           [cps "in"] [cps "out"] corpus_world w' processed failed combined
           stats R).
Defined.

(** ** The examples of the specification *)

Example spec_example_frequencies :
  count_terms
    (extract_terms
       (cps "Democracy requires participation. Participation strengthens democracy. Freedom enables participation."))
  = [(cps "democracy", 2); (cps "requires", 1); (cps "participation", 3);
     (cps "strengthens", 1); (cps "freedom", 1); (cps "enables", 1)].
Proof. vm_compute. reflexivity. Qed.

Example spec_example_first_theme :
  option_map
    (fun i => map (fun t => (term t, frequency t, importance t))
                (firstn 1 (dominant_themes i)))
    (analyze_content
       (cps "Democracy requires participation. Participation strengthens democracy. Freedom enables participation.")
       (cps "doc.md"))
  = Some [(cps "participation", 3, binary64 (375 # 100))].
Proof. vm_compute. reflexivity. Qed.

Example spec_example_single_term :
  option_map concept_clusters
    (analyze_content (cps "freedom, Freedom; FREEDOM!") (cps "doc.md"))
  = Some [].
Proof. vm_compute. reflexivity. Qed.

(** * Further properties of the analysis functions *)

(** ** [skip_metadata] *)

Lemma starts_with_app (p s : str) : starts_with p (p ++ s) = true.
Proof.
  induction p as [|c p IH]; simpl; [reflexivity|].
  rewrite Z.eqb_refl. exact IH.
Qed.

Lemma skipn_app_length {A : Type} (a : list A) (n : nat) (l : list A) :
  skipn (length a + n) (a ++ l) = skipn n l.
Proof. induction a as [|x a IH]; simpl; [reflexivity | exact IH]. Qed.

(** [find_from] returns the first index at which [sub] starts. *)
Lemma find_from_first (sub s : str) (k : nat) :
  starts_with sub (skipn k s) = true ->
  (forall j, j < k -> starts_with sub (skipn j s) = false) ->
  forall i, find_from sub s i = Some (i + k).
Proof.
  revert s. induction k as [|k IH]; intros s Hk Hlt i.
  - rewrite skipn_O in Hk. rewrite Nat.add_0_r.
    destruct s; simpl in *; rewrite Hk; reflexivity.
  - assert (H0 := Hlt 0 ltac:(lia)). rewrite skipn_O in H0.
    destruct s as [|c s]; [rewrite skipn_nil in Hk; congruence|].
    cbn [find_from]. rewrite H0. rewrite (IH s).
    + f_equal. lia.
    + exact Hk.
    + intros j Hj. apply (Hlt (S j)). lia.
Qed.

Lemma find_from_absent (sub s : str) :
  (forall j, starts_with sub (skipn j s) = false) ->
  forall i, find_from sub s i = None.
Proof.
  induction s as [|c s IH]; intros H i.
  - assert (H0 := H 0). simpl in *. rewrite H0. reflexivity.
  - assert (H0 := H 0). rewrite skipn_O in H0. cbn [find_from]. rewrite H0.
    apply IH. intros j. apply (H (S j)).
Qed.

Lemma skip_metadata_found (pre post : str) :
  (forall j, j < length pre ->
             starts_with marker (skipn j (pre ++ marker ++ post)) = false) ->
  skip_metadata (pre ++ marker ++ post) = post.
Proof.
  intros H. unfold skip_metadata.
  rewrite (find_from_first marker (pre ++ marker ++ post) (length pre)).
  - rewrite Nat.add_0_l, skipn_app_length.
    rewrite <- (Nat.add_0_r (length marker)), skipn_app_length.
    reflexivity.
  - rewrite <- (Nat.add_0_r (length pre)), skipn_app_length.
    apply starts_with_app.
  - exact H.
Qed.

Lemma skip_metadata_absent (content : str) :
  (forall j, starts_with marker (skipn j content) = false) ->
  skip_metadata content = content.
Proof.
  intros H. unfold skip_metadata. rewrite find_from_absent by exact H.
  reflexivity.
Qed.

(** X1. [skip_metadata] returns the text behind the first occurrence
    of the marker "## Extracted Text", whatever follows it (a second
    marker stays in the text), and returns the content unchanged when
    the marker does not occur. *)
Theorem skip_metadata_first_marker (pre post : str) :
  (forall j, j < length pre ->
             starts_with marker (skipn j (pre ++ marker ++ post)) = false) ->
  skip_metadata (pre ++ marker ++ post) = post
  /\ ((forall j, starts_with marker (skipn j pre) = false) ->
      skip_metadata pre = pre).
Proof.
  intros H. split; [apply skip_metadata_found, H|].
  apply skip_metadata_absent.
Qed.

Lemma skip_metadata_first_marker_witness :
  skip_metadata (cps "title: x" ++ marker ++ cps " text ## Extracted Text end")
  = cps " text ## Extracted Text end".
Proof.
  apply (skip_metadata_first_marker (cps "title: x")
           (cps " text ## Extracted Text end")).
  intros j Hj. simpl in Hj.
  do 8 (destruct j as [|j]; [reflexivity|]). lia.
Defined.

(** X2. A metadata header does not reach the analysis: a file that
    consists of a header without marker, the marker and a body without
    marker has the insights of the body alone. *)
Theorem header_is_ignored {U : Unicode} (pre body name : str) :
  (forall j, j < length pre ->
             starts_with marker (skipn j (pre ++ marker ++ body)) = false) ->
  (forall j, starts_with marker (skipn j body) = false) ->
  analyze_content (pre ++ marker ++ body) name = analyze_content body name.
Proof.
  intros Hpre Hbody. unfold analyze_content.
  rewrite (skip_metadata_found pre body Hpre).
  rewrite !(skip_metadata_absent body Hbody). reflexivity.
Qed.

Lemma header_is_ignored_witness :
  analyze_content (U := Latin) (cps "# T" ++ marker ++ cps " a cat") (cps "d.md")
  = analyze_content (cps " a cat") (cps "d.md").
Proof.
  apply (header_is_ignored (U := Latin) (cps "# T") (cps " a cat")).
  - intros j Hj. simpl in Hj.
    do 3 (destruct j as [|j]; [reflexivity|]). lia.
  - intros j. do 7 (destruct j as [|j]; [reflexivity|]).
    rewrite skipn_all2 by (simpl; lia). reflexivity.
Defined.

(** ** The statistics and the themes of a text *)

Lemma counter_add_sum (c : Counter) (k : str) (n : nat) :
  list_sum (map snd (counter_add c k n)) = list_sum (map snd c) + n.
Proof.
  unfold counter_add. induction c as [|[k0 v] c IH]; simpl; [lia|].
  destruct (str_eqb k k0); simpl; lia.
Qed.

Lemma count_terms_sum_from (terms : list str) (c : Counter) :
  list_sum (map snd (fold_left add_one terms c))
  = list_sum (map snd c) + length terms.
Proof.
  revert c. induction terms as [|t terms IH]; intros c; simpl; [lia|].
  rewrite IH. unfold add_one. rewrite counter_add_sum. lia.
Qed.

Lemma count_terms_sum (terms : list str) :
  list_sum (map snd (count_terms terms)) = length terms.
Proof.
  unfold count_terms. change (fun c t => counter_add c t 1) with add_one.
  rewrite count_terms_sum_from. reflexivity.
Qed.

Lemma first_occurrences_length (l : list str) :
  length (first_occurrences l) <= length l.
Proof.
  induction l as [|x l IH]; simpl; [lia|].
  pose proof (filter_length_le (fun y => negb (str_eqb y x))
                (first_occurrences l)). lia.
Qed.

Section TextThemes.
Context {U : Unicode}.

(** X3. In the insights of a text [total_terms] is the number of terms
    extracted (the sum of the frequency table), and [unique_terms] the
    number of distinct ones. *)
Theorem corpus_statistics_count (content name : str) :
  exists insights,
    analyze_content content name = Some insights
    /\ let terms := extract_terms (skip_metadata content) in
       total_terms (corpus_statistics insights) = length terms
       /\ list_sum (map snd (count_terms terms)) = length terms
       /\ unique_terms (corpus_statistics insights)
          = length (first_occurrences terms)
       /\ unique_terms (corpus_statistics insights)
          <= total_terms (corpus_statistics insights).
Proof.
  destruct (analyze_content_returns content name) as [tc [_ H]].
  eexists. split; [exact H|]. cbv zeta.
  cbn [generate_insights corpus_statistics total_terms unique_terms].
  rewrite count_terms_sum.
  rewrite <- (length_map fst (count_terms _)), count_terms_keys.
  repeat split. apply first_occurrences_length.
Qed.

End TextThemes.

Lemma alist_In_get {V : Type} (d : V) (k : str) (m : list (str * V)) :
  In k (map fst m) -> In (k, alist_get d k m) m.
Proof.
  induction m as [|[k0 v] m IH]; simpl; [easy|].
  destruct (str_eqb k k0) eqn:E.
  - apply str_eqb_eq in E. subst. auto.
  - intros [H | H]; [apply str_eqb_neq in E; congruence|]. right. apply IH, H.
Qed.

Lemma occurrences_pos (t : str) (l : list str) :
  In t l -> 1 <= occurrences t l.
Proof.
  unfold occurrences. intros H.
  destruct (filter (str_eqb t) l) as [|x r] eqn:E; [|simpl; lia].
  assert (Hin : In t (filter (str_eqb t) l)).
  { apply filter_In. split; [exact H | apply str_eqb_refl]. }
  rewrite E in Hin. destruct Hin.
Qed.

Lemma count_terms_NoDup (terms : list str) :
  NoDup (map fst (count_terms terms)).
Proof. rewrite count_terms_keys. apply first_occurrences_NoDup. Qed.

(** The entries of the frequency table are the terms with their
    numbers of occurrences. *)
Lemma count_terms_entries (terms : list str) (t : str) (n : nat) :
  In (t, n) (count_terms terms) <-> In t terms /\ n = occurrences t terms.
Proof.
  split.
  - intros H. split.
    + apply first_occurrences_In. rewrite <- count_terms_keys.
      apply in_map_iff. exists (t, n). auto.
    + rewrite <- count_terms_get. symmetry.
      apply (alist_get_In 0 t n _ (count_terms_NoDup terms) H).
  - intros [H ->]. rewrite <- count_terms_get.
    apply (alist_In_get 0). rewrite count_terms_keys.
    apply first_occurrences_In, H.
Qed.

Lemma StronglySorted_map {A B : Type} (R : A -> A -> Prop)
      (R' : B -> B -> Prop) (f : A -> B) (l : list A) :
  (forall x y, R x y -> R' (f x) (f y)) ->
  StronglySorted R l -> StronglySorted R' (map f l).
Proof.
  intros Hf. induction 1 as [|x l Hs IH Hall]; simpl; constructor.
  - exact IH.
  - apply Forall_forall. intros y Hy. apply in_map_iff in Hy.
    destruct Hy as [y' [<- Hy']]. rewrite Forall_forall in Hall.
    apply Hf, Hall, Hy'.
Qed.

Lemma dominant_themes_most_common tf tc cooc name :
  bounded tf ->
  dominant_themes (generate_insights tf tc cooc name)
  = map (theme_of tc cooc) (most_common 5 tf).
Proof.
  intros Hb. cbn [generate_insights dominant_themes].
  rewrite ranked_themes_by_frequency by exact Hb.
  rewrite firstn_map. unfold most_common.
  rewrite firstn_firstn. reflexivity.
Qed.

Lemma occurrences_le_length (t : str) (l : list str) :
  occurrences t l <= length l.
Proof. unfold occurrences. apply filter_length_le. Qed.

(** A text with at most 2^40 terms has a bounded table. *)
Lemma count_terms_bounded (terms : list str) :
  (Z.of_nat (length terms) <= frequency_bound)%Z ->
  bounded (count_terms terms).
Proof.
  intros H. apply Forall_forall. intros [t n] He.
  apply count_terms_entries in He. destruct He as [_ ->]. cbn [snd].
  pose proof (occurrences_le_length t terms). lia.
Qed.

(** The terms of the ranked themes are distinct, whatever the order. *)
Lemma ranked_themes_terms_NoDup tf tc cooc :
  NoDup (map fst tf) -> NoDup (map term (ranked_themes tf tc cooc)).
Proof.
  intros H.
  apply (Permutation_NoDup
           (l := map term (map (theme_of tc cooc) (most_common 30 tf)))).
  - symmetry. apply Permutation_map, ranked_themes_perm.
  - rewrite map_map.
    rewrite (map_ext _ fst) by (intros e; apply term_theme_of).
    apply most_common_NoDup, H.
Qed.

Section TextDominant.
Context {U : Unicode}.

(** X4. The dominant themes of a text are at most 5 themes with
    distinct terms, each with the number of occurrences of its term
    as frequency.  For a text of at most 2^40 terms they are its five
    most frequent terms: they stand in descending order of frequency,
    and a term of the text that is no dominant theme occurs no more
    often than any of the five. *)
Theorem dominant_themes_most_frequent (content name : str) :
  exists insights,
    analyze_content content name = Some insights
    /\ let terms := extract_terms (skip_metadata content) in
       let dominant := dominant_themes insights in
       length dominant <= 5
       /\ NoDup (map term dominant)
       /\ Forall
            (fun th => In (term th) terms
                       /\ frequency th = occurrences (term th) terms
                       /\ 1 <= frequency th)
            dominant
       /\ ((Z.of_nat (length terms) <= frequency_bound)%Z ->
           StronglySorted (fun x y => frequency y <= frequency x) dominant
           /\ forall t,
               In t terms -> ~ In t (map term dominant) ->
               length dominant = 5
               /\ Forall (fun th => occurrences t terms <= frequency th)
                    dominant).
Proof.
  destruct (analyze_content_returns content name) as [tc [_ H]].
  eexists. split; [exact H|]. cbv zeta.
  set (terms := extract_terms (skip_metadata content)).
  set (tf := count_terms terms).
  set (cooc := find_cooccurrences _ _ _).
  split; [cbn [generate_insights dominant_themes];
          rewrite length_firstn; lia|].
  split.
  { cbn [generate_insights dominant_themes]. rewrite <- firstn_map.
    apply NoDup_firstn, ranked_themes_terms_NoDup, count_terms_NoDup. }
  split.
  { apply Forall_forall. intros th Hth.
    cbn [generate_insights dominant_themes] in Hth.
    apply In_firstn, ranked_themes_In in Hth.
    destruct Hth as [[t n] [Hin ->]]. apply most_common_In in Hin.
    apply count_terms_entries in Hin. destruct Hin as [Hin ->].
    cbn [theme_of term frequency]. repeat split; try assumption.
    apply occurrences_pos, Hin. }
  intros Hlen. apply count_terms_bounded in Hlen. fold tf in Hlen.
  rewrite dominant_themes_most_common by exact Hlen.
  assert (Hterm : map term (map (theme_of tc cooc) (most_common 5 tf))
                  = map fst (most_common 5 tf)).
  { rewrite map_map. apply map_ext. intros e. apply term_theme_of. }
  split.
  { eapply StronglySorted_map; [|apply most_common_strongly_sorted].
    intros x y Hxy. rewrite !frequency_theme_of. exact Hxy. }
  intros t Ht Hout. rewrite Hterm in Hout.
  assert (Hin : In (t, occurrences t terms) tf).
  { apply count_terms_entries. auto. }
  destruct (most_common_rest 5 tf _ Hin) as [Hl Hle].
  { intros Hc. apply Hout. apply in_map_iff. eexists. split; [|exact Hc].
    reflexivity. }
  split; [rewrite length_map; exact Hl|].
  apply Forall_forall. intros th Hth. apply in_map_iff in Hth.
  destruct Hth as [e [<- He]]. rewrite frequency_theme_of.
  apply (Hle e He).
Qed.

End TextDominant.

Lemma dominant_themes_most_frequent_witness :
  exists insights,
    analyze_content (U := Latin) democracy_3 (cps "b.md") = Some insights
    /\ StronglySorted (fun x y => frequency y <= frequency x)
         (dominant_themes insights).
Proof.
  destruct (dominant_themes_most_frequent (U := Latin) democracy_3
              (cps "b.md")) as [insights [H [_ [_ [_ Hb]]]]].
  exists insights. split; [exact H|].
  apply Hb. vm_compute. discriminate.
Defined.

Lemma NoDup_map_filter {A B : Type} (g : A -> B) (p : A -> bool)
      (l : list A) :
  NoDup (map g l) -> NoDup (map g (filter p l)).
Proof.
  induction l as [|x l IH]; simpl; [auto|]. intros H.
  inversion H as [|? ? Hx Hl]; subst.
  destruct (p x); [|apply IH, Hl]. simpl. constructor; [|apply IH, Hl].
  intros Hin. apply Hx. apply in_map_iff in Hin.
  destruct Hin as [y [E Hy]]. apply filter_In in Hy.
  apply in_map_iff. exists y. tauto.
Qed.

Lemma StronglySorted_filter {A : Type} (R : A -> A -> Prop) (p : A -> bool)
      (l : list A) :
  StronglySorted R l -> StronglySorted R (filter p l).
Proof.
  induction 1 as [|x l Hs IH Hall]; simpl; [constructor|].
  destruct (p x); [|exact IH]. constructor; [exact IH|].
  apply Forall_forall. intros y Hy. apply filter_In in Hy.
  rewrite Forall_forall in Hall. apply Hall. tauto.
Qed.

Lemma StronglySorted_firstn {A : Type} (R : A -> A -> Prop) (n : nat)
      (l : list A) :
  StronglySorted R l -> StronglySorted R (firstn n l).
Proof.
  intros H. revert n. induction H as [|x l Hs IH Hall]; intros [|n]; simpl;
    try constructor.
  - apply IH.
  - apply Forall_forall. intros y Hy. apply In_firstn in Hy.
    rewrite Forall_forall in Hall. apply Hall, Hy.
Qed.

Section TextEmerging.
Context {U : Unicode}.

(** X5. The emerging themes of a text are taken from its 30 most
    frequent terms: at most 5 themes with distinct terms, each
    occurring between 3 and 10 times in the text; when fewer than 5
    are reported, every one of the 30 most frequent terms that occurs
    3 to 10 times is among them.  For a text of at most 2^40 terms
    they stand in descending order of frequency. *)
Theorem emerging_themes_moderate (content name : str) :
  exists insights,
    analyze_content content name = Some insights
    /\ let terms := extract_terms (skip_metadata content) in
       let emerging := emerging_themes insights in
       length emerging <= 5
       /\ NoDup (map term emerging)
       /\ Forall
            (fun th => In (term th, frequency th)
                          (most_common 30 (count_terms terms))
                       /\ frequency th = occurrences (term th) terms
                       /\ 3 <= frequency th <= 10)
            emerging
       /\ (length emerging < 5 ->
           forall t n,
             In (t, n) (most_common 30 (count_terms terms)) ->
             3 <= n <= 10 -> In t (map term emerging))
       /\ ((Z.of_nat (length terms) <= frequency_bound)%Z ->
           StronglySorted (fun x y => frequency y <= frequency x) emerging).
Proof.
  destruct (analyze_content_returns content name) as [tc [_ H]].
  eexists. split; [exact H|]. cbv zeta.
  cbn [generate_insights emerging_themes].
  set (terms := extract_terms (skip_metadata content)).
  set (tf := count_terms terms).
  set (cooc := find_cooccurrences _ _ _).
  split; [rewrite length_firstn; lia|].
  split.
  { rewrite <- firstn_map. apply NoDup_firstn, NoDup_map_filter.
    apply ranked_themes_terms_NoDup, count_terms_NoDup. }
  split.
  { apply Forall_forall. intros th Hth. apply In_firstn in Hth.
    apply filter_In in Hth. destruct Hth as [Hth Hem].
    apply ranked_themes_In in Hth. destruct Hth as [[t n] [Hin ->]].
    unfold is_emerging in Hem. cbn [theme_of term frequency] in *.
    apply andb_true_iff in Hem. rewrite !Nat.leb_le in Hem.
    split; [exact Hin|].
    apply most_common_In, count_terms_entries in Hin. tauto. }
  split.
  { intros Hlen t n Hin Hn.
    rewrite firstn_all2.
    - apply in_map_iff. exists (theme_of tc cooc (t, n)).
      split; [reflexivity|].
      apply filter_In. split.
      + apply (Permutation_in _
                 (Permutation_sym (ranked_themes_perm tf tc cooc))).
        apply in_map, Hin.
      + unfold is_emerging. cbn [theme_of frequency].
        apply andb_true_iff. rewrite !Nat.leb_le. exact Hn.
    - rewrite length_firstn in Hlen. lia. }
  intros Hlen. apply count_terms_bounded in Hlen. fold tf in Hlen.
  rewrite ranked_themes_by_frequency by exact Hlen.
  apply StronglySorted_firstn, StronglySorted_filter.
  eapply StronglySorted_map; [|apply most_common_strongly_sorted].
  intros x y Hxy. rewrite !frequency_theme_of. exact Hxy.
Qed.

End TextEmerging.

Lemma emerging_themes_moderate_witness :
  exists insights,
    analyze_content (U := Latin) democracy_3 (cps "b.md") = Some insights
    /\ StronglySorted (fun x y => frequency y <= frequency x)
         (emerging_themes insights).
Proof.
  destruct (emerging_themes_moderate (U := Latin) democracy_3 (cps "b.md"))
    as [insights [H [_ [_ [_ [_ Hb]]]]]].
  exists insights. split; [exact H|].
  apply Hb. vm_compute. discriminate.
Defined.

(** ** More on the co-occurrence graph *)

Section GraphEdges.
Context {U : Unicode}.

Lemma pair_events_distinct window text text_lower terms x y :
  NoDup terms ->
  In (x, y) (pair_events window text text_lower terms) -> x <> y.
Proof.
  induction terms as [|term1 later IH]; simpl; [easy|].
  intros Hnd. inversion Hnd as [|? ? Hnotin Hnd']; subst.
  rewrite in_app_iff, in_flat_map. intros [[pos [_ H]] | H].
  - apply in_map_iff in H. destruct H as [t [[= <- <-] Ht]].
    apply filter_In in Ht. intros ->. tauto.
  - apply IH; assumption.
Qed.

Lemma filter_nonempty_In {A : Type} (p : A -> bool) (l : list A) :
  length (filter p l) <> 0 -> exists x, In x l /\ p x = true.
Proof.
  destruct (filter p l) as [|x r] eqn:E; [easy|]. intros _.
  assert (H : In x (filter p l)) by (rewrite E; now left).
  apply filter_In in H. exists x. exact H.
Qed.

Lemma graph_edge_terms (text : str) (terms : list str) (a b : str) :
  NoDup terms ->
  graph_get (find_cooccurrences text terms []) a b <> 0 ->
  In a terms /\ In b terms /\ a <> b.
Proof.
  intros Hnd. unfold find_cooccurrences, find_cooccurrences_in.
  rewrite loop_events, graph_get_events.
  change (graph_get [] a b) with 0. intros H.
  set (events := pair_events 100 text (str_lower text) terms) in *.
  assert (Hev : exists e, In e events
                          /\ (is_pair a b e = true \/ is_pair b a e = true)).
  { destruct (length (filter (is_pair a b) events)) eqn:E1.
    - destruct (filter_nonempty_In (is_pair b a) events) as [e [He Hp]];
        [lia|]. exists e. auto.
    - destruct (filter_nonempty_In (is_pair a b) events) as [e [He Hp]];
        [lia|]. exists e. auto. }
  destruct Hev as [[x y] [He Hp]].
  pose proof (pair_events_fst _ _ _ _ _ _ He) as Hx.
  pose proof (pair_events_snd _ _ _ _ _ _ He) as Hy.
  pose proof (pair_events_distinct _ _ _ _ _ _ Hnd He) as Hxy.
  unfold is_pair in Hp. cbn [fst snd] in Hp.
  rewrite !andb_true_iff, !str_eqb_eq in Hp.
  destruct Hp as [[-> ->] | [-> ->]]; auto.
Qed.

(** X6. The graph built from a list of distinct terms only joins two
    different terms of the list: an entry that is not 0 links two
    listed terms, and no term co-occurs with itself. *)
Theorem cooccurrences_join_distinct_terms (text : str) (terms : list str)
        (a b : str) :
  NoDup terms ->
  graph_get (find_cooccurrences text terms []) a b <> 0 ->
  In a terms /\ In b terms /\ a <> b.
Proof. apply graph_edge_terms. Qed.

End GraphEdges.

Lemma cooccurrences_join_distinct_terms_witness :
  In (cps "foo") [cps "foo"; cps "bar"]
  /\ In (cps "bar") [cps "foo"; cps "bar"]
  /\ cps "foo" <> cps "bar".
Proof.
  apply (cooccurrences_join_distinct_terms (U := Latin) (cps "foo bar")).
  - repeat constructor; simpl; intuition discriminate.
  - vm_compute. discriminate.
Defined.

(** ** Texts with a single term *)

Lemma scan_window_no_later {U : Unicode} window text text_lower term1
      (positions : list nat) (g : Graph) :
  fold_left (scan_window window text text_lower term1 []) positions g = g.
Proof.
  revert g. induction positions as [|p ps IH]; intros g; simpl; auto.
Qed.

Lemma no_cooccurrences_no_clusters (tf : Counter)
      (tc : list (str * list str)) (name : str) :
  concept_clusters (generate_insights tf tc [] name) = []
  /\ Forall (fun th => related_terms th = [])
       (dominant_themes (generate_insights tf tc [] name)).
Proof.
  assert (Hrel : Forall (fun th => related_terms th = [])
                   (ranked_themes tf tc [])).
  { apply Forall_forall. intros th Hth. apply ranked_themes_In in Hth.
    destruct Hth as [[t n] [_ ->]]. reflexivity. }
  rewrite Forall_forall in Hrel.
  split.
  - cbn [generate_insights concept_clusters]. unfold build_clusters.
    assert (Hfold : forall l st,
               Forall (fun th => related_terms th = []) l ->
               fold_left (cluster_step tf) l st = st).
    { induction l as [|th l IH]; intros st Hl; simpl; [reflexivity|].
      inversion Hl as [|? ? Hth Hl']; subst.
      assert (E : cluster_step tf st th = st).
      { unfold cluster_step. destruct st as [clusters processed].
        rewrite Hth. now destruct (str_mem (term th) processed). }
      rewrite E. apply IH, Hl'. }
    rewrite Hfold; [reflexivity|].
    apply Forall_forall. intros th Hth. apply In_firstn in Hth.
    apply Hrel, Hth.
  - apply Forall_forall. intros th Hth.
    cbn [generate_insights dominant_themes] in Hth.
    apply In_firstn in Hth. apply Hrel, Hth.
Qed.

Section SingleTerm.
Context {U : Unicode}.

(** X7. A text with a single distinct term has one dominant theme, for
    that term, with no related terms, and no concept cluster: there
    is no second term to co-occur with. *)
Theorem single_term_has_no_cluster (content name t : str) :
  first_occurrences (extract_terms (skip_metadata content)) = [t] ->
  exists insights,
    analyze_content content name = Some insights
    /\ map term (dominant_themes insights) = [t]
    /\ Forall (fun th => related_terms th = []) (dominant_themes insights)
    /\ concept_clusters insights = [].
Proof.
  intros Hone.
  destruct (analyze_content_returns content name) as [tc [_ H]].
  eexists. split; [exact H|].
  set (terms := extract_terms (skip_metadata content)) in *.
  pose proof (count_terms_keys terms) as Hkeys. rewrite Hone in Hkeys.
  destruct (count_terms terms) as [|[t' n] [|e tf]] eqn:Etf;
    try discriminate Hkeys.
  injection Hkeys as ->.
  assert (Hsig : significant_terms_of [(t, n)] = [t]) by reflexivity.
  rewrite Hsig. unfold find_cooccurrences, find_cooccurrences_in.
  cbn [cooccurrences_loop]. rewrite scan_window_no_later.
  destruct (no_cooccurrences_no_clusters [(t, n)] tc name) as [Hc Hr].
  split; [|split; [exact Hr | exact Hc]].
  reflexivity.
Qed.

End SingleTerm.

Lemma single_term_has_no_cluster_witness :
  exists insights,
    analyze_content (U := Latin) (cps "the cat and the cat") (cps "a.md")
    = Some insights
    /\ map term (dominant_themes insights) = [cps "cat"]
    /\ Forall (fun th => related_terms th = []) (dominant_themes insights)
    /\ concept_clusters insights = [].
Proof.
  apply (single_term_has_no_cluster (U := Latin)). vm_compute. reflexivity.
Defined.

(** ** The context snippets *)

Section Snippets.
Context {U : Unicode}.

Lemma lstrip_suffix (s : str) :
  exists p, s = p ++ lstrip s.
Proof.
  induction s as [|c s [p IH]]; simpl.
  - now exists [].
  - destruct (is_space c).
    + exists (c :: p). simpl. now rewrite <- IH.
    + now exists [].
Qed.

Lemma lstrip_length (s : str) : length (lstrip s) <= length s.
Proof.
  destruct (lstrip_suffix s) as [p H]. rewrite H at 2.
  rewrite length_app. lia.
Qed.

Lemma lstrip_head (s : str) (c : char) (r : str) :
  lstrip s = c :: r -> is_space c = false.
Proof.
  induction s as [|d s IH]; simpl; [discriminate|].
  destruct (is_space d) eqn:E; [exact IH|]. now intros [= <- _].
Qed.

Lemma strip_length (s : str) : length (strip s) <= length s.
Proof.
  unfold strip. rewrite length_rev.
  pose proof (lstrip_length (rev (lstrip s))) as H1.
  pose proof (lstrip_length s) as H2. rewrite length_rev in H1. lia.
Qed.

Lemma strip_stripped (s : str) : stripped (strip s).
Proof.
  unfold stripped, strip. split; intros c r H.
  - destruct (lstrip_suffix (rev (lstrip s))) as [p Hp].
    apply (f_equal (@rev char)) in H. rewrite rev_involutive in H.
    cbn [rev] in H. rewrite H in Hp.
    apply (f_equal (@rev char)) in Hp. rewrite rev_involutive in Hp.
    rewrite !rev_app_distr in Hp. cbn [rev app] in Hp.
    rewrite rev_involutive in Hp.
    eapply lstrip_head. exact Hp.
  - apply (f_equal (@rev char)) in H. rewrite rev_involutive in H.
    rewrite rev_app_distr in H. cbn [rev app] in H.
    eapply lstrip_head. exact H.
Qed.

Lemma slice_length (s : str) (a b : nat) : length (slice s a b) <= b - a.
Proof. unfold slice. rewrite length_firstn. lia. Qed.

Lemma snippet_at_length window text term pos :
  length (snippet_at window text term pos) <= length term + 2 * window.
Proof.
  unfold snippet_at.
  pose proof (strip_length
                (slice text (pos - window)
                   (Nat.min (length text) (pos + length term + window)))).
  pose proof (slice_length text (pos - window)
                (Nat.min (length text) (pos + length term + window))).
  lia.
Qed.

Lemma find_from_sound (sub s : str) (i p : nat) :
  find_from sub s i = Some p ->
  i <= p /\ starts_with sub (skipn (p - i) s) = true.
Proof.
  revert i. induction s as [|c s IH]; intros i; simpl.
  - destruct (starts_with sub []) eqn:E; [|discriminate].
    intros [= <-]. rewrite Nat.sub_diag. simpl. auto.
  - destruct (starts_with sub (c :: s)) eqn:E.
    + intros [= <-]. rewrite Nat.sub_diag. simpl. auto.
    + intros H. apply IH in H. destruct H as [Hle H]. split; [lia|].
      replace (p - i) with (S (p - S i)) by lia. exact H.
Qed.

Lemma find_sound (s sub : str) (pos p : nat) :
  find s sub pos = Some p ->
  pos <= p /\ starts_with sub (skipn p s) = true.
Proof.
  unfold find. destruct (length s <? pos); [discriminate|].
  intros H. apply find_from_sound in H. destruct H as [Hle H].
  split; [exact Hle|]. rewrite skipn_skipn in H.
  replace (p - pos + pos) with p in H by lia. exact H.
Qed.

(** The snippets collected by the loop are cut around occurrences of
    the lowered term in the lowered text. *)
Lemma contexts_loop_snippets window text term (P : str -> Prop) :
  (forall pos,
      starts_with (str_lower term) (skipn pos (str_lower text)) = true ->
      P (snippet_at window text term pos)) ->
  forall fuel pos contexts r,
    Forall P contexts ->
    contexts_loop fuel window text (str_lower text) term (str_lower term)
      pos contexts = Some r ->
    Forall P r.
Proof.
  intros HP. induction fuel as [|fuel IH]; intros pos contexts r Hc;
    cbn [contexts_loop]; [discriminate|].
  destruct (find (str_lower text) (str_lower term) pos) as [p|] eqn:E.
  - intros H. eapply IH; [|exact H].
    apply Forall_app. split; [exact Hc|]. constructor; [|constructor].
    apply find_sound in E. apply HP, E.
  - now intros [= <-].
Qed.

(** X8. For a term that is not empty [extract_contexts] returns at most
    three snippets; each is the text around one occurrence of the
    lowered term in the lowered text, with the white space at its ends
    removed, and so is at most 100 characters longer than the term. *)
Theorem extract_contexts_snippets (text term : str) :
  term <> [] ->
  exists contexts,
    extract_contexts text term = Some contexts
    /\ length contexts <= 3
    /\ Forall
         (fun c =>
            (exists pos,
                starts_with (str_lower term) (skipn pos (str_lower text))
                = true
                /\ c = snippet_at 50 text term pos)
            /\ length c <= length term + 100
            /\ stripped c)
         contexts.
Proof.
  intros Hterm.
  destruct (extract_contexts_returns text term Hterm) as [r Hr].
  exists r. split; [exact Hr|].
  unfold extract_contexts, extract_contexts_in in Hr.
  destruct (contexts_loop _ _ _ _ _ _ _ _) as [raw|] eqn:E;
    [|discriminate]. cbn [option_map] in Hr.
  assert (Er : r = firstn 3 raw) by congruence. rewrite Er. clear Hr Er.
  split; [rewrite length_firstn; lia|].
  apply Forall_forall. intros c Hc. apply In_firstn in Hc. revert c Hc.
  apply Forall_forall.
  eapply contexts_loop_snippets; [|constructor|exact E].
  intros pos Hpos. split; [exists pos; auto|]. split.
  - apply (snippet_at_length 50).
  - apply strip_stripped.
Qed.

End Snippets.

Lemma extract_contexts_snippets_witness :
  exists contexts,
    extract_contexts (U := Latin) (cps "a cat sat") (cps "cat")
    = Some contexts
    /\ length contexts <= 3
    /\ Forall
         (fun c =>
            (exists pos,
                starts_with (str_lower (cps "cat"))
                  (skipn pos (str_lower (cps "a cat sat"))) = true
                /\ c = snippet_at 50 (cps "a cat sat") (cps "cat") pos)
            /\ length c <= length (cps "cat") + 100
            /\ stripped c)
         contexts.
Proof.
  apply (extract_contexts_snippets (U := Latin)). discriminate.
Defined.

Section EmptyTerm.
Context {U : Unicode} {F : UnicodeFacts U}.

Lemma find_empty (s : str) (pos : nat) :
  pos <= length s -> find s [] pos = Some pos.
Proof.
  intros H. unfold find.
  destruct (length s <? pos) eqn:E; [apply Nat.ltb_lt in E; lia|].
  now destruct (skipn pos s).
Qed.

Lemma contexts_loop_empty_term window text (fuel pos : nat)
      (contexts : list str) :
  pos <= length (str_lower text) ->
  contexts_loop fuel window text (str_lower text) [] (str_lower []) pos
    contexts = None.
Proof.
  intros Hpos. rewrite lower_nil. revert contexts.
  induction fuel as [|fuel IH]; intros contexts; cbn [contexts_loop];
    [reflexivity|].
  rewrite find_empty by exact Hpos. cbn [length]. rewrite Nat.add_0_r.
  apply IH.
Qed.

(** X9. The search loop of [extract_contexts] ends exactly when the
    term is not empty: for the empty term the position never advances
    and the loop returns after no number of rounds, for every other
    term the function returns. *)
Theorem extract_contexts_ends_iff_term_not_empty (text : str) :
  (forall fuel,
      contexts_loop fuel 50 text (str_lower text) [] (str_lower []) 0 []
      = None)
  /\ forall term, extract_contexts text term = None <-> term = [].
Proof.
  split.
  - intros fuel. apply contexts_loop_empty_term. lia.
  - intros term. split.
    + intros H. destruct term as [|c term]; [reflexivity|].
      destruct (extract_contexts_returns text (c :: term)) as [r Hr];
        [discriminate|]. congruence.
    + intros ->. unfold extract_contexts, extract_contexts_in.
      rewrite contexts_loop_empty_term by lia. reflexivity.
Qed.

End EmptyTerm.

Lemma extract_contexts_ends_iff_term_not_empty_witness :
  extract_contexts (U := Latin) (cps "a cat") [] = None
  /\ extract_contexts (U := Latin) (cps "a cat") (cps "cat") <> None.
Proof.
  destruct (extract_contexts_ends_iff_term_not_empty
              (F := Latin_facts) (cps "a cat")) as [_ H].
  split.
  - apply H. reflexivity.
  - intros E. apply H in E. discriminate E.
Defined.

(** ** The files that [analyze_themes] touches *)

Lemma rfind_dot_nth (s : str) (i j : nat) :
  rfind_dot s i = Some j -> i <= j /\ nth_error s (j - i) = Some 46%Z.
Proof.
  revert i. induction s as [|c s IH]; intros i; cbn [rfind_dot];
    [discriminate|].
  destruct (rfind_dot s (S i)) as [k|] eqn:E.
  - intros [= <-]. apply IH in E. destruct E as [Hle E]. split; [lia|].
    replace (k - i) with (S (k - S i)) by lia. exact E.
  - destruct (Z.eqb c 46) eqn:Ec; [|discriminate]. intros [= <-].
    apply Z.eqb_eq in Ec. subst c. rewrite Nat.sub_diag. auto.
Qed.

Lemma nth_error_hd_skipn {A : Type} (l : list A) (n : nat) :
  nth_error l n = hd_error (skipn n l).
Proof.
  revert l. induction n as [|n IH]; intros [|x l]; simpl; auto.
Qed.

(** The stem of a name followed by a suffix that does not begin with
    a dot is not the name itself. *)
Lemma path_stem_suffix_neq (p : Path) (sfx : str) (c : char) :
  hd_error sfx = Some c -> c <> 46%Z -> path_stem p ++ sfx <> path_name p.
Proof.
  intros Hhd Hc. unfold path_stem.
  assert (Hlen : path_name p ++ sfx <> path_name p).
  { intros H. apply (f_equal (@length char)) in H.
    rewrite length_app in H. destruct sfx; [discriminate|]. simpl in H. lia. }
  destruct (rfind_dot (path_name p) 0) as [i|] eqn:E; [|exact Hlen].
  destruct ((0 <? i) && (i <? length (path_name p) - 1)); [|exact Hlen].
  intros H. apply rfind_dot_nth in E. destruct E as [_ E].
  rewrite Nat.sub_0_r, nth_error_hd_skipn in E.
  rewrite <- (firstn_skipn i (path_name p)) in H at 2.
  apply app_inv_head in H. rewrite <- H in E. congruence.
Qed.

Lemma output_path_neq_input (markdown_file output_dir : Path) (sfx : str)
      (c : char) :
  hd_error sfx = Some c -> c <> 46%Z ->
  path_join output_dir (path_stem markdown_file ++ sfx) <> markdown_file.
Proof.
  intros Hhd Hc H.
  apply (path_stem_suffix_neq markdown_file sfx c Hhd Hc).
  rewrite <- H at 2. unfold path_join, path_name. now rewrite last_last.
Qed.

Section ToolFrame.
Context {U : Unicode}.
Variable json_dump : Insights -> str.
Variable markdown_report : Time -> Insights -> str.

(** [analyze_themes] catches what it raises and its loops end: it
    returns a response in every state of the file system. *)
Lemma analyze_themes_returns (markdown_file output_dir : Path) (w : World) :
  exists r w',
    analyze_themes json_dump markdown_report markdown_file output_dir w
    = Some (r, w').
Proof.
  unfold analyze_themes.
  destruct (mkdir output_dir w) as [e|w1]; [eauto|].
  destruct (negb (path_exists w1 markdown_file)); [eauto|].
  destruct (read_text markdown_file w1) as [e|content]; [eauto|].
  destruct (analyze_content_returns content (path_name markdown_file))
    as [tc [_ ->]].
  destruct (write_text _ _ w1) as [e|w2]; [eauto|].
  destruct (generate_markdown_report _ _ _ w2) as [e|w3]; eauto.
Qed.

(** After the directory is made, only the two output files change. *)
Lemma analyze_themes_nodes (markdown_file output_dir : Path) (w w' : World)
      (r : Response) :
  analyze_themes json_dump markdown_report markdown_file output_dir w
  = Some (r, w') ->
  exists w1,
    (mkdir output_dir w = inr w1 \/ w1 = w)
    /\ forall q,
        q <> path_join output_dir
               (path_stem markdown_file ++ cps "_themes.json") ->
        q <> path_join output_dir
               (path_stem markdown_file ++ cps "_report.md") ->
        nodes w' q = nodes w1 q.
Proof.
  unfold analyze_themes.
  destruct (mkdir output_dir w) as [e|w1] eqn:Em.
  { intros [= _ <-]. exists w. auto. }
  intros H. exists w1. split; [auto|]. intros q Hj Hm. revert H.
  destruct (negb (path_exists w1 markdown_file)); [now intros [= _ <-]|].
  destruct (read_text markdown_file w1) as [e|content];
    [now intros [= _ <-]|].
  destruct (analyze_content content (path_name markdown_file))
    as [insights|]; [|discriminate].
  destruct (write_text _ _ w1) as [e|w2] eqn:Ew; [now intros [= _ <-]|].
  apply write_text_inv in Ew.
  assert (H2 : nodes w2 q = nodes w1 q).
  { rewrite Ew. apply nodes_set_node_other, Hj. }
  destruct (generate_markdown_report _ _ _ w2) as [e|w3] eqn:Er;
    intros [= _ <-]; [exact H2|].
  rewrite <- H2. eapply generate_markdown_report_inv; eauto.
Qed.

(** X10. A markdown file that does not exist is reported as not
    found, and the output directory is made all the same, with its
    missing ancestors: the directories are created before the file is
    looked for, and nothing else changes.  When the file path is the
    output directory or one of its ancestors and is created on the
    way, it is a directory by then and the error is that of opening a
    directory. *)
Theorem missing_file_is_reported (markdown_file output_dir : Path)
        (w : World) :
  os_error w output_dir = None ->
  nodes w output_dir = Missing \/ nodes w output_dir = Directory ->
  nodes w markdown_file = Missing ->
  exists r w',
    analyze_themes json_dump markdown_report markdown_file output_dir w
    = Some (Failure r, w')
    /\ (nodes w output_dir = Directory
        \/ ~ on_the_way output_dir markdown_file ->
        r = MarkdownNotFound markdown_file)
    /\ (nodes w output_dir = Missing ->
        on_the_way output_dir markdown_file ->
        r = Raised (IsADirectoryError markdown_file))
    /\ nodes w' output_dir = Directory
    /\ (nodes w output_dir = Missing ->
        forall q, on_the_way output_dir q -> nodes w' q = made (nodes w q))
    /\ (nodes w output_dir = Directory -> forall q, nodes w' q = nodes w q)
    /\ forall q, ~ on_the_way output_dir q -> nodes w' q = nodes w q.
Proof.
  intros Herr Hout Hin. unfold analyze_themes.
  destruct (mkdir_succeeds output_dir w Herr Hout) as [w1 Em]. rewrite Em.
  destruct (mkdir_nodes _ _ _ Em) as [Hd Hn].
  assert (Hworld :
            nodes w1 output_dir = Directory
            /\ (nodes w output_dir = Missing ->
                forall q, on_the_way output_dir q ->
                          nodes w1 q = made (nodes w q))
            /\ (nodes w output_dir = Directory ->
                forall q, nodes w1 q = nodes w q)
            /\ forall q, ~ on_the_way output_dir q ->
                         nodes w1 q = nodes w q).
  { split; [exact Hd|]. split.
    - intros Hmiss q Hq. apply (mkdir_on_the_way _ _ _ _ Hmiss Em Hq).
    - split.
      + intros Hdir q.
        destruct (mkdir_cases _ _ _ Em) as [[_ ->] | [Hmiss _]];
          [reflexivity | congruence].
      + intros q Hq. apply (mkdir_off_the_way _ _ _ _ Em Hq). }
  unfold path_exists, read_text.
  destruct (Hn markdown_file) as [E | [_ [E Hway]]]; rewrite E.
  - rewrite Hin. cbn [negb]. eexists _, _. split; [reflexivity|].
    split; [reflexivity|]. split; [|exact Hworld].
    intros Hmiss Hway. exfalso.
    pose proof (mkdir_on_the_way _ _ _ _ Hmiss Em Hway) as Hm.
    rewrite Hin in Hm. cbn [made] in Hm. congruence.
  - cbn [negb]. eexists _, _. split; [reflexivity|].
    split; [|split; [reflexivity | exact Hworld]].
    intros [Hdir | Hnot]; [|contradiction]. exfalso.
    destruct (mkdir_cases _ _ _ Em) as [[_ ->] | [Hmiss _]]; congruence.
Qed.

(** X11. [analyze_themes] always returns a response, and in the file
    system it changes at most the output directory and its ancestors,
    which it creates when they are missing, and the JSON and report
    files in the output directory.  In particular the text of the
    input file is never overwritten, even when the input lies in the
    output directory. *)
Theorem analyze_themes_keeps_other_files (markdown_file output_dir : Path)
        (w : World) :
  let json_path :=
    path_join output_dir (path_stem markdown_file ++ cps "_themes.json") in
  let md_path :=
    path_join output_dir (path_stem markdown_file ++ cps "_report.md") in
  exists r w',
    analyze_themes json_dump markdown_report markdown_file output_dir w
    = Some (r, w')
    /\ (forall q, ~ on_the_way output_dir q ->
                  q <> json_path -> q <> md_path ->
                  nodes w' q = nodes w q)
    /\ (forall q, on_the_way output_dir q ->
                  nodes w' q = nodes w q
                  \/ nodes w q = Missing /\ nodes w' q = Directory)
    /\ forall content,
        nodes w markdown_file = Text content ->
        nodes w' markdown_file = Text content.
Proof.
  intros json_path md_path.
  destruct (analyze_themes_returns markdown_file output_dir w)
    as [r [w' H]].
  exists r, w'. split; [exact H|].
  destruct (analyze_themes_nodes _ _ _ _ _ H) as [w1 [Hm Hframe]].
  fold json_path md_path in Hframe.
  assert (Hin1 : markdown_file <> json_path).
  { intros E. symmetry in E. revert E.
    apply (output_path_neq_input _ _ _ 95%Z); [reflexivity | discriminate]. }
  assert (Hin2 : markdown_file <> md_path).
  { intros E. symmetry in E. revert E.
    apply (output_path_neq_input _ _ _ 95%Z); [reflexivity | discriminate]. }
  assert (Hway : forall q, on_the_way output_dir q ->
                           q <> json_path /\ q <> md_path).
  { intros q Hq. split; intros ->;
      exact (path_join_off_the_way _ _ Hq). }
  destruct Hm as [Hm | ->].
  - destruct (mkdir_nodes _ _ _ Hm) as [_ Hn].
    split.
    { intros q Hq Hq1 Hq2. rewrite Hframe by assumption.
      apply (mkdir_off_the_way _ _ _ _ Hm Hq). }
    split.
    { intros q Hq. destruct (Hway q Hq) as [Hq1 Hq2].
      rewrite Hframe by assumption.
      destruct (Hn q) as [E | [E1 [E2 _]]]; auto. }
    intros content Hc. rewrite Hframe by assumption.
    apply (mkdir_text _ _ _ _ _ Hm), Hc.
  - split; [intros q _ Hq1 Hq2; now apply Hframe|].
    split.
    { intros q Hq. destruct (Hway q Hq) as [Hq1 Hq2]. left.
      now apply Hframe. }
    intros content Hc. rewrite Hframe by assumption. exact Hc.
Qed.

End ToolFrame.

Lemma missing_file_is_reported_witness :
  exists r w',
    analyze_themes (U := Latin) no_json no_report
      [cps "in"; cps "missing.md"] [cps "out"; cps "themes"]
      (empty_world (fun _ => 0%Z))
    = Some (Failure r, w')
    /\ r = MarkdownNotFound [cps "in"; cps "missing.md"]
    /\ nodes w' [cps "out"] = Directory
    /\ nodes w' [cps "out"; cps "themes"] = Directory.
Proof.
  destruct (missing_file_is_reported (U := Latin) no_json no_report
              [cps "in"; cps "missing.md"] [cps "out"; cps "themes"]
              (empty_world (fun _ => 0%Z)))
    as [r [w' [H [Hr [_ [Hd [Hway _]]]]]]];
    [reflexivity | left; reflexivity | reflexivity |].
  exists r, w'. split; [exact H|]. split.
  - apply Hr. right. intros [Hin | Hin]; [|discriminate Hin].
    vm_compute in Hin. destruct Hin as [Hin | []]. discriminate Hin.
  - split; [|exact Hd].
    apply (Hway eq_refl [cps "out"]). left. vm_compute. left. reflexivity.
Defined.

(** ** The batch *)

Section BatchFacts.
Context {U : Unicode}.
Variable json_dump : Insights -> str.
Variable markdown_report : Time -> Insights -> str.

(** The loop over the files ends, as every single analysis does. *)
Lemma batch_loop_returns (md_files : list Path) (output_dir : Path) :
  forall st,
  exists st',
    batch_loop json_dump markdown_report md_files output_dir st = Some st'.
Proof.
  induction md_files as [|f files IH]; intros st; cbn [batch_loop];
    [eauto|].
  destruct (analyze_themes_returns json_dump markdown_report f output_dir
              (st_world st)) as [r [w' ->]].
  destruct r; apply IH.
Qed.

Lemma batch_loop_names (md_files : list Path) (output_dir : Path) :
  forall st st',
    batch_loop json_dump markdown_report md_files output_dir st = Some st' ->
    Permutation
      (map filename (st_processed st')
         ++ map failed_filename (st_failed st'))
      ((map filename (st_processed st)
          ++ map failed_filename (st_failed st))
         ++ map path_name md_files).
Proof.
  induction md_files as [|f files IH]; intros st st'; cbn [batch_loop].
  - intros [= <-]. cbn [map]. now rewrite app_nil_r.
  - destruct (analyze_themes json_dump markdown_report f output_dir
                (st_world st)) as [[[e | i jp mp] w']|]; [| |discriminate];
      intros H; apply IH in H; cbn [st_processed st_failed] in H;
      (etransitivity; [exact H|]); clear H; rewrite !map_app;
      cbn [map filename failed_filename]; rewrite <- !app_assoc;
      do 2 (try apply Permutation_app_head).
    + reflexivity.
    + cbn [app]. apply Permutation_middle.
Qed.

(** X12. In a batch that succeeds every markdown file of the input
    directory is recorded once, either as processed or as failed:
    the recorded names are the names of the files, and the counts of
    [stats] and [combined_insights] add up to the number of files,
    which is at least 1. *)
Theorem batch_counts_every_file (input_dir output_dir : Path)
        (w w' : World) processed failed combined stats :
  analyze_themes_batch json_dump markdown_report input_dir output_dir w
  = Some (BatchSuccess processed failed combined stats, w') ->
  Permutation (map filename processed ++ map failed_filename failed)
    (map path_name (glob_md w input_dir))
  /\ total_files stats = length (glob_md w input_dir)
  /\ successful stats = length processed
  /\ failed_count stats = length failed
  /\ total_files stats = successful stats + failed_count stats
  /\ 1 <= total_files stats
  /\ total_documents combined = total_files stats
  /\ successful_analyses combined = successful stats.
Proof.
  unfold analyze_themes_batch.
  destruct (mkdir output_dir w) as [e|w1] eqn:Em; [discriminate|].
  assert (Hglob : glob_md w1 = glob_md w).
  { apply (mkdir_fields _ _ _ Em). }
  rewrite Hglob.
  destruct (negb (path_exists w1 input_dir)); [discriminate|].
  destruct (glob_md w input_dir) as [|f files] eqn:Eg; [discriminate|].
  destruct (batch_loop _ _ _ _ _) as [st|] eqn:El; [|discriminate].
  intros [= <- <- <- <- _].
  apply batch_loop_names in El. cbn [st_processed st_failed map app] in El.
  split; [exact El|].
  apply Permutation_length in El.
  rewrite length_app, !length_map in El. cbn [length] in El.
  cbn [total_files successful failed_count total_documents
       successful_analyses length].
  rewrite length_map in El. repeat split; lia.
Qed.

(** X13. The batch answers whenever the output directory can be made.
    The input directory exists when the check is made if it existed
    before or was created on the way to the output directory; if not,
    the answer is "Input directory not found".  If it exists, the
    answer is "No markdown files found" when the listing is empty, and
    otherwise a success, whatever happens to the single files: a file
    that cannot be read or written never fails the batch. *)
Theorem batch_outcomes (input_dir output_dir : Path) (w : World) :
  os_error w output_dir = None ->
  nodes w output_dir = Missing \/ nodes w output_dir = Directory ->
  exists r w',
    analyze_themes_batch json_dump markdown_report input_dir output_dir w
    = Some (r, w')
    /\ (path_exists w input_dir = false ->
        nodes w output_dir = Directory
        \/ ~ on_the_way output_dir input_dir ->
        r = BatchFailure (DirectoryNotFound input_dir))
    /\ (path_exists w input_dir = true
        \/ (nodes w output_dir = Missing
            /\ on_the_way output_dir input_dir) ->
        (glob_md w input_dir = [] ->
         r = BatchFailure (NoMarkdownFiles input_dir))
        /\ (glob_md w input_dir <> [] ->
            exists processed failed combined stats,
              r = BatchSuccess processed failed combined stats)).
Proof.
  intros Herr Hout. unfold analyze_themes_batch.
  destruct (mkdir_succeeds output_dir w Herr Hout) as [w1 Em].
  rewrite Em.
  assert (Hglob : glob_md w1 = glob_md w).
  { apply (mkdir_fields _ _ _ Em). }
  destruct (mkdir_nodes _ _ _ Em) as [_ Hn].
  assert (Hex : path_exists w1 input_dir = true <->
                path_exists w input_dir = true
                \/ (nodes w output_dir = Missing
                    /\ on_the_way output_dir input_dir)).
  { unfold path_exists. split.
    - intros H. destruct (Hn input_dir) as [E | [E1 [E2 Hway]]].
      + left. now rewrite <- E.
      + right. split; [|exact Hway].
        destruct (mkdir_cases _ _ _ Em) as [[_ ->] | [Hmiss _]];
          [congruence | exact Hmiss].
    - intros [H | [Hmiss Hway]].
      + destruct (Hn input_dir) as [-> | [_ [-> _]]]; [exact H|reflexivity].
      + rewrite (mkdir_on_the_way _ _ _ _ Hmiss Em Hway).
        now destruct (nodes w input_dir). }
  rewrite Hglob.
  destruct (path_exists w1 input_dir) eqn:E.
  - cbn [negb]. apply proj1 in Hex. specialize (Hex eq_refl).
    destruct (glob_md w input_dir) as [|f files] eqn:Eg.
    + eexists _, _. split; [reflexivity|]. split.
      * intros H1 H2. exfalso.
        destruct Hex as [Hex | [Hmiss Hway]]; [congruence|].
        destruct H2 as [H2 | H2]; [congruence | contradiction].
      * intros _. split; [reflexivity|]. intros H. now elim H.
    + destruct (batch_loop_returns (f :: files) output_dir
                  {| st_world := w1; st_processed := []; st_failed := [];
                     st_frequencies := [] |}) as [st ->].
      eexists _, _. split; [reflexivity|]. split.
      * intros H1 H2. exfalso.
        destruct Hex as [Hex | [Hmiss Hway]]; [congruence|].
        destruct H2 as [H2 | H2]; [congruence | contradiction].
      * intros _. split; [discriminate|]. intros _. eauto.
  - cbn [negb]. eexists _, _. split; [reflexivity|].
    split; [reflexivity|].
    intros H. apply Hex in H. discriminate.
Qed.

End BatchFacts.

Lemma batch_counts_every_file_witness :
  match
    analyze_themes_batch (U := Latin) no_json no_report [cps "in"]
      [cps "out"] corpus_world
  with
  | Some (BatchSuccess processed failed combined stats, _) =>
      Permutation (map filename processed ++ map failed_filename failed)
        [cps "a.md"; cps "b.md"]
      /\ total_files stats = 2
  | _ => False
  end.
Proof.
  destruct (analyze_themes_batch (U := Latin) no_json no_report [cps "in"]
              [cps "out"] corpus_world)
    as [[[e | processed failed combined stats] w']|] eqn:R;
    [vm_compute in R; discriminate | | vm_compute in R; discriminate].
  destruct (batch_counts_every_file (U := Latin) no_json no_report
              [cps "in"] [cps "out"] corpus_world w' processed failed
              combined stats R) as [Hp [Ht _]].
  split; [exact Hp | exact Ht].
Defined.

Lemma batch_outcomes_witness :
  exists r w',
    analyze_themes_batch (U := Latin) no_json no_report [cps "in"]
      [cps "out"] corpus_world = Some (r, w')
    /\ exists processed failed combined stats,
        r = BatchSuccess processed failed combined stats.
Proof.
  destruct (batch_outcomes (U := Latin) no_json no_report [cps "in"]
              [cps "out"] corpus_world)
    as [r [w' [H [_ Hs]]]]; [reflexivity | left; reflexivity |].
  exists r, w'. split; [exact H|].
  apply Hs; [left; reflexivity | vm_compute; discriminate].
Defined.

Section BatchDocuments.
Context {U : Unicode}.
Variable json_dump : Insights -> str.
Variable markdown_report : Time -> Insights -> str.

Lemma analyze_themes_success_reads (markdown_file output_dir : Path)
      (w w' : World) (insights : Insights) (json_path md_path : Path) :
  nodes w output_dir = Directory ->
  analyze_themes json_dump markdown_report markdown_file output_dir w
  = Some (Success insights json_path md_path, w') ->
  exists content,
    nodes w markdown_file = Text content
    /\ analyze_content content (path_name markdown_file) = Some insights.
Proof.
  intros Hd. unfold analyze_themes, mkdir.
  destruct (os_error w output_dir); [discriminate|]. rewrite Hd.
  destruct (negb (path_exists w markdown_file)); [discriminate|].
  unfold read_text. destruct (nodes w markdown_file) as [| |e|content];
    try discriminate.
  exists content. split; [reflexivity|].
  destruct (analyze_content content (path_name markdown_file)) as [i|];
    [|discriminate].
  destruct (write_text _ _ w) as [e|w2]; [discriminate|].
  destruct (generate_markdown_report _ _ _ w2) as [e|w3]; [discriminate|].
  intros; congruence.
Qed.

Lemma analyze_themes_directory_frame (markdown_file output_dir : Path)
      (w w' : World) (r : Response) :
  nodes w output_dir = Directory ->
  analyze_themes json_dump markdown_report markdown_file output_dir w
  = Some (r, w') ->
  forall q, (forall name, q <> path_join output_dir name) ->
            nodes w' q = nodes w q.
Proof.
  intros Hd H q Hq.
  destruct (analyze_themes_nodes _ _ _ _ _ _ _ H) as [w1 [Hm Hframe]].
  rewrite Hframe by apply Hq.
  destruct Hm as [Hm | ->]; [|reflexivity].
  destruct (mkdir_cases _ _ _ Hm) as [[_ ->] | [Hmiss _]];
    [reflexivity | congruence].
Qed.

Lemma batch_loop_documents (w0 : World) (all : list Path)
      (output_dir : Path) :
  forall md_files st st',
    batch_loop json_dump markdown_report md_files output_dir st = Some st' ->
    incl md_files all ->
    (forall f name, In f md_files -> f <> path_join output_dir name) ->
    nodes (st_world st) output_dir = Directory ->
    (forall f, In f md_files -> nodes (st_world st) f = nodes w0 f) ->
    Forall (analysis_of w0 all) (st_processed st) ->
    Forall (analysis_of w0 all) (st_processed st').
Proof.
  induction md_files as [|f files IH]; intros st st'; cbn [batch_loop].
  - now intros [= <-].
  - intros H Hincl Hout Hd Hsame HP.
    destruct (analyze_themes json_dump markdown_report f output_dir
                (st_world st)) as [[r w']|] eqn:R; [|discriminate].
    pose proof (analyze_themes_directory_frame _ _ _ _ _ Hd R) as Hframe.
    assert (Hd' : nodes w' output_dir = Directory).
    { rewrite Hframe; [exact Hd|]. intros name E. symmetry in E.
      exact (path_join_neq _ _ E). }
    assert (Hsame' : forall g, In g files -> nodes w' g = nodes w0 g).
    { intros g Hg. rewrite Hframe.
      - apply Hsame. now right.
      - intros name. apply Hout. now right. }
    assert (Hincl' : incl files all).
    { intros g Hg. apply Hincl. now right. }
    assert (Hout' : forall g name,
               In g files -> g <> path_join output_dir name).
    { intros g name Hg. apply Hout. now right. }
    destruct r as [e | i jp mp].
    + eapply IH; [exact H | | | | |]; cbn [st_world st_processed];
        assumption.
    + eapply IH; [exact H | | | | |]; cbn [st_world st_processed];
        try assumption.
      apply Forall_app. split; [exact HP|]. constructor; [|constructor].
      destruct (analyze_themes_success_reads _ _ _ _ _ _ _ Hd R)
        as [content [Hc Ha]].
      exists f, content. cbn [filename document_insights].
      split; [apply Hincl; now left|]. split; [reflexivity|].
      split; [|exact Ha]. rewrite <- Hsame by now left. exact Hc.
Qed.

(** X14. When no markdown file of the input lies in the output
    directory, each entry of [processed] of a batch is what
    [analyze_themes] computes on one file alone: it carries the name
    of one of the files and the insights of the text that this file
    had before the batch, so the reports written for the earlier
    files do not reach the later analyses. *)
Theorem batch_documents_are_analysed (input_dir output_dir : Path)
        (w w' : World) processed failed combined stats :
  (forall f name,
      In f (glob_md w input_dir) -> f <> path_join output_dir name) ->
  analyze_themes_batch json_dump markdown_report input_dir output_dir w
  = Some (BatchSuccess processed failed combined stats, w') ->
  Forall (analysis_of w (glob_md w input_dir)) processed.
Proof.
  intros Hout. unfold analyze_themes_batch.
  destruct (mkdir output_dir w) as [e|w1] eqn:Em; [discriminate|].
  assert (Hglob : glob_md w1 = glob_md w).
  { apply (mkdir_fields _ _ _ Em). }
  assert (Hd : nodes w1 output_dir = Directory).
  { apply (mkdir_nodes _ _ _ Em). }
  assert (Hnodes : forall q content,
             nodes w1 q = Text content -> nodes w q = Text content).
  { intros q content. apply (mkdir_text _ _ _ _ _ Em). }
  rewrite Hglob.
  destruct (negb (path_exists w1 input_dir)); [discriminate|].
  destruct (glob_md w input_dir) as [|f files] eqn:Eg; [discriminate|].
  destruct (batch_loop _ _ _ _ _) as [st|] eqn:El; [|discriminate].
  intros [= <- _ _ _ _].
  apply (batch_loop_documents w1 (f :: files)) in El;
    cbn [st_world st_processed]; auto.
  - revert El. apply Forall_impl. intros p [g [content [Hg [Hn [Hc Ha]]]]].
    exists g, content. auto.
  - apply incl_refl.
Qed.

End BatchDocuments.

Lemma batch_documents_are_analysed_witness :
  match
    analyze_themes_batch (U := Latin) no_json no_report [cps "in"]
      [cps "out"] corpus_world
  with
  | Some (BatchSuccess processed _ _ _, _) =>
      Forall (analysis_of corpus_world (glob_md corpus_world [cps "in"]))
        processed
  | _ => False
  end.
Proof.
  destruct (analyze_themes_batch (U := Latin) no_json no_report [cps "in"]
              [cps "out"] corpus_world)
    as [[[e | processed failed combined stats] w']|] eqn:R;
    [vm_compute in R; discriminate | | vm_compute in R; discriminate].
  apply (batch_documents_are_analysed (U := Latin) no_json no_report
           [cps "in"] [cps "out"] corpus_world w' processed failed
           combined stats); [|exact R].
  intros f name Hf E. subst f. vm_compute in Hf.
  destruct Hf as [Hf | [Hf | []]]; discriminate Hf.
Defined.

(** ** Related terms and clusters in terms of the graph *)

Section AListUpdate.
Context {V : Type}.

Lemma alist_update_NoDup (d : V) (f : V -> V) (k : str)
      (m : list (str * V)) :
  NoDup (map fst m) -> NoDup (map fst (alist_update d f k m)).
Proof.
  intros H. rewrite alist_update_keys.
  destruct (alist_mem k m) eqn:E; [exact H|].
  apply NoDup_app; [exact H | repeat constructor; simpl; tauto|].
  intros x Hx [<- | []]. apply alist_mem_In in Hx. congruence.
Qed.

Lemma alist_update_Forall (P : V -> Prop) (d : V) (f : V -> V) (k : str)
      (m : list (str * V)) :
  P (f d) -> (forall v, P v -> P (f v)) ->
  Forall (fun e => P (snd e)) m ->
  Forall (fun e => P (snd e)) (alist_update d f k m).
Proof.
  intros Hd Hf. induction m as [|[k0 v] m IH]; intros H; simpl.
  - constructor; [exact Hd | constructor].
  - inversion H as [|? ? Hv Hm]; subst.
    destruct (str_eqb k k0); constructor; cbn [snd] in *; auto.
Qed.

End AListUpdate.

Lemma counter_add_positive (c : Counter) (k : str) :
  positive_counter c -> positive_counter (counter_add c k 1).
Proof.
  intros [H1 H2]. split.
  - apply counter_add_NoDup, H1.
  - apply (alist_update_Forall (fun v => 1 <= v)); [lia | intros; lia|].
    exact H2.
Qed.

Lemma graph_incr_invariant (g : Graph) (a b : str) :
  graph_invariant g -> graph_invariant (graph_incr g a b).
Proof.
  intros [H1 H2]. split.
  - apply alist_update_NoDup, H1.
  - apply (alist_update_Forall positive_counter).
    + apply counter_add_positive. split; constructor.
    + intros c. apply counter_add_positive.
    + exact H2.
Qed.

Lemma find_cooccurrences_invariant {U : Unicode} (text : str)
      (terms : list str) :
  graph_invariant (find_cooccurrences text terms []).
Proof.
  unfold find_cooccurrences, find_cooccurrences_in. rewrite loop_events.
  assert (H0 : graph_invariant []) by (split; constructor).
  revert H0. generalize (@nil (str * Counter)) as g.
  induction (pair_events 100 text (str_lower text) terms) as [|e es IH];
    intros g Hg; simpl; [exact Hg|].
  apply IH. unfold incr_pair. now do 2 apply graph_incr_invariant.
Qed.

(** The entries of [cooccurrences[a]] are the counts of the graph. *)
Lemma neighbours_entries (g : Graph) (a t : str) (n : nat) :
  graph_invariant g ->
  In (t, n) (neighbours g a) ->
  positive_counter (neighbours g a) /\ n = graph_get g a t /\ 1 <= n.
Proof.
  intros [H1 H2] Hin. unfold neighbours in *.
  destruct (in_dec str_eq_dec a (map fst g)) as [E | E].
  - apply (alist_In_get []) in E.
    rewrite Forall_forall in H2. specialize (H2 _ E). cbn [snd] in H2.
    split; [exact H2|]. destruct H2 as [Hnd Hpos]. split.
    + unfold graph_get, counter_get. symmetry.
      apply alist_get_In; assumption.
    + rewrite Forall_forall in Hpos. apply (Hpos _ Hin).
  - rewrite alist_get_notin in Hin; [destruct Hin | exact E].
Qed.

Lemma neighbours_complete (g : Graph) (a t : str) :
  graph_get g a t <> 0 -> In (t, graph_get g a t) (neighbours g a).
Proof.
  intros H. unfold graph_get, counter_get in *. apply alist_In_get.
  destruct (in_dec str_eq_dec t (map fst (neighbours g a))) as [E | E];
    [exact E|].
  exfalso. apply H. apply alist_get_notin, E.
Qed.

Lemma theme_of_related tc cooc (e : str * nat) :
  related_terms (theme_of tc cooc e)
  = map related_of (most_common 5 (neighbours cooc (fst e))).
Proof.
  destruct e as [t n]. cbn [theme_of related_terms fst].
  destruct (alist_mem t cooc) eqn:E; [reflexivity|].
  unfold neighbours. rewrite alist_get_notin; [reflexivity|].
  rewrite <- alist_mem_In. apply not_true_iff_false. exact E.
Qed.

Section RelatedTerms.
Context {U : Unicode}.

(** X15. The related terms of a dominant or emerging theme are the
    (at most five) terms that co-occur most often with its term:
    distinct significant terms other than the term itself, each with
    the count of the graph as its strength, which is at least 1, in
    descending order of strength; a co-occurring term that is left
    out is no stronger than the five that are listed. *)
Theorem related_terms_are_strongest_neighbours (content name : str) :
  exists insights,
    analyze_content content name = Some insights
    /\ let text := skip_metadata content in
       let terms := significant_terms_of (count_terms (extract_terms text)) in
       let cooc := find_cooccurrences text terms [] in
       Forall
         (fun th =>
            let related := related_terms th in
            length related <= 5
            /\ NoDup (map related_term related)
            /\ Forall
                 (fun r =>
                    In (related_term r) terms
                    /\ related_term r <> term th
                    /\ strength r = graph_get cooc (term th) (related_term r)
                    /\ 1 <= strength r)
                 related
            /\ StronglySorted (fun x y => strength y <= strength x) related
            /\ forall t,
                graph_get cooc (term th) t <> 0 ->
                ~ In t (map related_term related) ->
                length related = 5
                /\ Forall
                     (fun r => graph_get cooc (term th) t <= strength r)
                     related)
         (dominant_themes insights ++ emerging_themes insights).
Proof.
  destruct (analyze_content_returns content name) as [tc [_ H]].
  eexists. split; [exact H|]. cbv zeta.
  set (text := skip_metadata content).
  set (tf := count_terms (extract_terms text)).
  set (terms := significant_terms_of tf).
  set (cooc := find_cooccurrences text terms []).
  assert (Hnd : NoDup terms).
  { apply most_common_NoDup, count_terms_NoDup. }
  pose proof (find_cooccurrences_invariant text terms) as Hinv.
  fold cooc in Hinv.
  assert (Hth : forall th,
             In th (dominant_themes (generate_insights tf tc cooc name)
                      ++ emerging_themes (generate_insights tf tc cooc name))
             -> exists e, th = theme_of tc cooc e).
  { intros th Hin. apply reported_themes_In in Hin.
    destruct Hin as [e [_ ->]]. now exists e. }
  apply Forall_forall. intros th Hin. destruct (Hth th Hin) as [e ->].
  rewrite theme_of_related, term_theme_of.
  set (c := neighbours cooc (fst e)).
  assert (Hc : forall x, In x (most_common 5 c) ->
                         positive_counter c
                         /\ snd x = graph_get cooc (fst e) (fst x)
                         /\ 1 <= snd x).
  { intros [t n] Hx. apply most_common_In in Hx.
    apply (neighbours_entries cooc (fst e) t n Hinv Hx). }
  split; [rewrite length_map; unfold most_common; rewrite length_firstn; lia|].
  split.
  { rewrite map_map. cbn [related_of related_term].
    destruct (most_common 5 c) as [|x l] eqn:E; [constructor|].
    destruct (Hc x) as [[Hk _] _]; [now left|]. rewrite <- E.
    apply most_common_NoDup, Hk. }
  split.
  { apply Forall_forall. intros r Hr. apply in_map_iff in Hr.
    destruct Hr as [x [<- Hx]]. cbn [related_of related_term strength].
    destruct (Hc x Hx) as [_ [Hs Hpos]].
    destruct (graph_edge_terms text terms (fst e) (fst x) Hnd)
      as [_ [Hin2 Hne]].
    { fold cooc. rewrite <- Hs. lia. }
    repeat split; auto. }
  split.
  { eapply StronglySorted_map; [|apply most_common_strongly_sorted].
    intros x y Hxy. exact Hxy. }
  intros t Ht Hnot.
  apply neighbours_complete in Ht. fold c in Ht.
  destruct (most_common_rest 5 c _ Ht) as [Hlen Hle].
  { intros Hmc. apply Hnot. rewrite map_map. cbn [related_of related_term].
    apply in_map_iff. exists (t, graph_get cooc (fst e) t). auto. }
  split; [rewrite length_map; exact Hlen|].
  apply Forall_forall. intros r Hr. apply in_map_iff in Hr.
  destruct Hr as [x [<- Hx]]. cbn [related_of strength].
  apply (Hle x Hx).
Qed.

End RelatedTerms.

Section GraphAccumulates.
Context {U : Unicode}.

(** X16. [find_cooccurrences] adds to the graph it is given: every
    entry of the result is the entry of the given graph plus the count
    that the same call puts into an empty graph.  No entry decreases,
    and a symmetric graph stays symmetric. *)
Theorem find_cooccurrences_accumulates (text : str) (terms : list str)
        (g : Graph) :
  (forall a b,
      graph_get (find_cooccurrences text terms g) a b
      = graph_get g a b
        + graph_get (find_cooccurrences text terms []) a b)
  /\ (symmetric g -> symmetric (find_cooccurrences text terms g)).
Proof.
  assert (H : forall a b,
             graph_get (find_cooccurrences text terms g) a b
             = graph_get g a b
               + graph_get (find_cooccurrences text terms []) a b).
  { intros a b. unfold find_cooccurrences, find_cooccurrences_in.
    rewrite !loop_events, !graph_get_events.
    change (graph_get [] a b) with 0. lia. }
  split; [exact H|].
  intros Hg a b. rewrite (H a b), (H b a), (Hg a b).
  unfold find_cooccurrences, find_cooccurrences_in.
  rewrite !loop_events, !graph_get_events.
  change (graph_get [] a b) with 0. change (graph_get [] b a) with 0. lia.
Qed.

End GraphAccumulates.

(** ** The clusters of a text *)

Lemma filter_map_comm {A B : Type} (f : A -> B) (p : B -> bool)
      (l : list A) :
  filter p (map f l) = map f (filter (fun x => p (f x)) l).
Proof.
  induction l as [|x l IH]; simpl; [reflexivity|].
  destruct (p (f x)); simpl; now rewrite IH.
Qed.

Lemma insert_desc_not_nil {A : Type} (lt : A -> A -> bool) (x : A)
      (l : list A) :
  insert_desc lt x l <> [].
Proof. destruct l as [|y l]; simpl; [|destruct (lt x y)]; discriminate. Qed.

Lemma has_related_theme_of tc cooc (e : str * nat) :
  has_related (theme_of tc cooc e) = has_neighbours cooc (fst e).
Proof.
  unfold has_related, has_neighbours. rewrite theme_of_related.
  destruct (neighbours cooc (fst e)) as [|x c]; [reflexivity|].
  unfold most_common. cbn [sort_desc fold_right].
  pose proof (insert_desc_not_nil count_lt x (fold_right (insert_desc count_lt) [] c)).
  destruct (insert_desc count_lt x _); [congruence | reflexivity].
Qed.

Section ClusterFold.
Variable term_frequencies : Counter.

Lemma cluster_step_new (clusters : list Cluster) (processed : list str)
      (theme : Theme) :
  ~ In (term theme) processed ->
  cluster_step term_frequencies (clusters, processed) theme
  = if has_related theme
    then (clusters ++ [cluster_of term_frequencies theme],
          term theme :: processed)
    else (clusters, processed).
Proof.
  intros H. unfold cluster_step, has_related, cluster_of.
  destruct (str_mem (term theme) processed) eqn:E;
    [apply str_mem_In in E; contradiction|].
  destruct (related_terms theme); reflexivity.
Qed.

(** On themes with distinct terms the loop makes one cluster for each
    theme that has related terms, in the order of the themes. *)
Lemma cluster_fold (themes : list Theme) :
  forall clusters processed,
    NoDup (map term themes) ->
    (forall th, In th themes -> ~ In (term th) processed) ->
    fst (fold_left (cluster_step term_frequencies) themes
           (clusters, processed))
    = clusters
        ++ map (cluster_of term_frequencies) (filter has_related themes).
Proof.
  induction themes as [|th themes IH]; intros clusters processed Hnd Hp;
    cbn [fold_left filter map fst]; [now rewrite app_nil_r|].
  inversion Hnd as [|? ? Hth Hnd']; subst.
  rewrite cluster_step_new by (apply Hp; now left).
  destruct (has_related th).
  - rewrite IH; [cbn [map]; now rewrite <- app_assoc | exact Hnd' |].
    intros th' Hin [E | Hin'].
    + apply Hth. rewrite E. now apply in_map.
    + apply (Hp th'); [now right | exact Hin'].
  - apply IH; [exact Hnd'|]. intros th' Hin. apply Hp. now right.
Qed.

End ClusterFold.

Section TextClusters.
Context {U : Unicode}.

(** X17. The concept clusters of a text are read off the graph: the
    related terms of each cluster are the (at most three) terms that
    co-occur most often with its central term, and for a text of at
    most 2^40 terms the central terms are, in rank order, the first
    five of the 20 most frequent terms that co-occur with some other
    term. *)
Theorem clusters_follow_the_graph (content name : str) :
  exists insights,
    analyze_content content name = Some insights
    /\ let text := skip_metadata content in
       let tf := count_terms (extract_terms text) in
       let cooc := find_cooccurrences text (significant_terms_of tf) [] in
       ((Z.of_nat (length (extract_terms text)) <= frequency_bound)%Z ->
        map central_term (concept_clusters insights)
        = firstn 5
            (filter (has_neighbours cooc) (map fst (most_common 20 tf))))
       /\ Forall
            (fun c =>
               cluster_related_terms c
               = map fst (most_common 3 (neighbours cooc (central_term c))))
            (concept_clusters insights).
Proof.
  destruct (analyze_content_returns content name) as [tc [_ H]].
  eexists. split; [exact H|]. cbv zeta.
  set (text := skip_metadata content).
  set (tf := count_terms (extract_terms text)).
  set (cooc := find_cooccurrences text (significant_terms_of tf) []).
  assert (Hcl : concept_clusters (generate_insights tf tc cooc name)
                = firstn 5
                    (map (cluster_of tf)
                       (filter has_related
                          (firstn 20 (ranked_themes tf tc cooc))))).
  { cbn [generate_insights concept_clusters]. unfold build_clusters.
    rewrite cluster_fold; [reflexivity | | intros th _ []].
    rewrite <- firstn_map.
    apply NoDup_firstn, ranked_themes_terms_NoDup, count_terms_NoDup. }
  rewrite Hcl. split.
  - intros Hlen. apply count_terms_bounded in Hlen. fold text tf in Hlen.
    rewrite ranked_themes_by_frequency by exact Hlen.
    assert (H20 : firstn 20 (map (theme_of tc cooc) (most_common 30 tf))
                  = map (theme_of tc cooc) (most_common 20 tf)).
    { rewrite firstn_map. unfold most_common. rewrite firstn_firstn.
      reflexivity. }
    rewrite H20, filter_map_comm, <- firstn_map, !map_map. f_equal.
    rewrite (map_ext _ fst)
      by (intros e; cbn [cluster_of central_term]; apply term_theme_of).
    rewrite (filter_ext _ (fun e => has_neighbours cooc (fst e)))
      by (intros e; apply has_related_theme_of).
    symmetry. apply (filter_map_comm fst (has_neighbours cooc)).
  - apply Forall_forall. intros c Hc. apply In_firstn in Hc.
    apply in_map_iff in Hc. destruct Hc as [th [<- Hth]].
    apply filter_In in Hth. destruct Hth as [Hth _].
    apply In_firstn, ranked_themes_In in Hth. destruct Hth as [e [_ ->]].
    unfold cluster_of. cbn [cluster_related_terms central_term].
    rewrite theme_of_related, term_theme_of, firstn_map, map_map.
    unfold most_common. rewrite firstn_firstn. reflexivity.
Qed.

End TextClusters.

Lemma clusters_follow_the_graph_witness :
  exists insights,
    analyze_content (U := Latin) democracy_3 (cps "b.md") = Some insights
    /\ map central_term (concept_clusters insights)
       = [cps "democracy"; cps "votes"; cps "counts"; cps "wins";
          cps "elections"].
Proof.
  destruct (clusters_follow_the_graph (U := Latin) democracy_3 (cps "b.md"))
    as [insights [H [Hb _]]].
  exists insights. split; [exact H|].
  rewrite Hb; [vm_compute; reflexivity | vm_compute; discriminate].
Defined.

(** ** The sample contexts of a theme *)

Section SampleContexts.
Context {U : Unicode}.

Lemma extract_contexts_length (text term : str) (contexts : list str) :
  extract_contexts text term = Some contexts -> length contexts <= 3.
Proof.
  unfold extract_contexts, extract_contexts_in.
  destruct (contexts_loop _ _ _ _ _ _ _ _) as [raw|]; [|discriminate].
  cbn [option_map]. intros H.
  assert (E : contexts = firstn 3 raw) by congruence.
  rewrite E, length_firstn. lia.
Qed.

(** After the loop over distinct terms the table holds, for each of
    them that was not in the table before, what [extract_contexts]
    returned for it. *)
Lemma collect_contexts_get (content : str) (terms : list str) :
  forall acc r,
    NoDup terms ->
    collect_contexts content terms acc = Some r ->
    forall t,
      (In t terms -> ~ In t (map fst acc) ->
       extract_contexts content t = Some (alist_get [] t r))
      /\ (~ In t terms -> alist_get [] t r = alist_get [] t acc).
Proof.
  induction terms as [|term rest IH]; intros acc r Hnd; cbn [collect_contexts].
  - intros [= <-] t. split; [intros []|reflexivity].
  - inversion Hnd as [|? ? Hterm Hnd']; subst.
    destruct (extract_contexts content term) as [contexts|] eqn:E;
      [|discriminate].
    intros H t. destruct (IH _ _ Hnd' H t) as [IH1 IH2]. split.
    + intros [<- | Hin] Hacc.
      * rewrite IH2 by exact Hterm. rewrite alist_get_update, str_eqb_refl.
        rewrite alist_get_notin by exact Hacc. exact E.
      * apply IH1; [exact Hin|]. rewrite alist_update_keys.
        destruct (alist_mem term acc); [exact Hacc|].
        rewrite in_app_iff. intros [Hk | [<- | []]]; tauto.
    + intros Hnot. rewrite IH2 by (intros Hin; apply Hnot; now right).
      rewrite alist_get_update.
      destruct (str_eqb t term) eqn:Et; [|reflexivity].
      apply str_eqb_eq in Et. subst. exfalso. apply Hnot. now left.
Qed.

(** X18. The sample contexts of a dominant or emerging theme are
    exactly what [extract_contexts] returns for the term of the theme
    on the text of the file. *)
Theorem sample_contexts_are_extracted (content name : str) :
  exists insights,
    analyze_content content name = Some insights
    /\ Forall
         (fun th =>
            extract_contexts (skip_metadata content) (term th)
            = Some (sample_contexts th))
         (dominant_themes insights ++ emerging_themes insights).
Proof.
  destruct (analyze_content_returns content name) as [tc [Hc H]].
  eexists. split; [exact H|].
  set (text := skip_metadata content) in *.
  set (tf := count_terms (extract_terms text)) in *.
  set (cooc := find_cooccurrences text (significant_terms_of tf) []).
  apply Forall_forall. intros th Hin.
  apply reported_themes_In in Hin. destruct Hin as [[t n] [He ->]].
  cbn [theme_of term sample_contexts].
  assert (Hsig : In t (significant_terms_of tf)).
  { unfold significant_terms_of. apply in_map_iff. exists (t, n).
    split; [reflexivity|]. unfold most_common in *.
    change 30 with (Nat.min 30 50) in He.
    rewrite <- firstn_firstn in He. apply In_firstn in He. exact He. }
  assert (Hnd : NoDup (significant_terms_of tf)).
  { apply most_common_NoDup, count_terms_NoDup. }
  destruct (collect_contexts_get text _ _ _ Hnd Hc t) as [Hget _].
  specialize (Hget Hsig (fun x => x)). rewrite Hget. f_equal.
  symmetry. apply firstn_all2. apply (extract_contexts_length _ _ _ Hget).
Qed.

End SampleContexts.

(** ** What a success of [analyze_themes] means *)

Section ToolSuccess.
Context {U : Unicode}.
Variable json_dump : Insights -> str.
Variable markdown_report : Time -> Insights -> str.

Lemma generate_markdown_report_written insights (p : Path) (w w' : World) :
  generate_markdown_report markdown_report insights p w = inr w' ->
  nodes w' p = Text (markdown_report (clock w (ticks w)) insights)
  /\ ticks w' = S (ticks w)
  /\ forall q, q <> p -> nodes w' q = nodes w q.
Proof.
  unfold generate_markdown_report.
  destruct (os_error w p) eqn:Eo; [discriminate|].
  assert (H : forall w0,
             write_text p (markdown_report (clock w (ticks w)) insights)
               (snd (now w)) = inr w0 ->
             nodes w0 p = Text (markdown_report (clock w (ticks w)) insights)
             /\ ticks w0 = S (ticks w)
             /\ forall q, q <> p -> nodes w0 q = nodes w q).
  { intros w0 Hw. apply write_text_inv in Hw. subst w0.
    split; [apply nodes_set_node_same|]. split; [reflexivity|].
    intros q Hq. now rewrite nodes_set_node_other. }
  destruct (nodes w p); try discriminate; apply H.
Qed.

(** X19. When [analyze_themes] reports success, the input was a
    readable text and the insights are those of this text; the two
    returned paths are [<stem>_themes.json] and [<stem>_report.md] in
    the output directory, which exists; the first holds the dump of
    the insights, the second the report of the insights stamped with
    the time at which the call read the clock, which it did once. *)
Theorem success_means_files_written (markdown_file output_dir : Path)
        (w w' : World) (insights : Insights) (json_path md_path : Path) :
  analyze_themes json_dump markdown_report markdown_file output_dir w
  = Some (Success insights json_path md_path, w') ->
  json_path
  = path_join output_dir (path_stem markdown_file ++ cps "_themes.json")
  /\ md_path
     = path_join output_dir (path_stem markdown_file ++ cps "_report.md")
  /\ (exists content,
         nodes w markdown_file = Text content
         /\ analyze_content content (path_name markdown_file)
            = Some insights)
  /\ nodes w' output_dir = Directory
  /\ nodes w' json_path = Text (json_dump insights)
  /\ nodes w' md_path
     = Text (markdown_report (clock w (ticks w)) insights)
  /\ ticks w' = S (ticks w).
Proof.
  unfold analyze_themes.
  destruct (mkdir output_dir w) as [e|w1] eqn:Em; [discriminate|].
  assert (Hw1 : clock w1 = clock w /\ ticks w1 = ticks w
                /\ nodes w1 output_dir = Directory
                /\ forall q c, nodes w1 q = Text c -> nodes w q = Text c).
  { destruct (mkdir_fields _ _ _ Em) as [_ [_ [Hc Ht]]].
    split; [exact Hc|]. split; [exact Ht|].
    split; [apply (mkdir_nodes _ _ _ Em)|].
    intros q c. apply (mkdir_text _ _ _ _ _ Em). }
  destruct Hw1 as [Hclock [Hticks [Hdir Htext]]].
  destruct (negb (path_exists w1 markdown_file)); [discriminate|].
  destruct (read_text markdown_file w1) as [e|content] eqn:Er;
    [discriminate|].
  destruct (analyze_content content (path_name markdown_file)) as [i|] eqn:Ea;
    [|discriminate].
  set (jp := path_join output_dir
               (path_stem markdown_file ++ cps "_themes.json")).
  set (mp := path_join output_dir
               (path_stem markdown_file ++ cps "_report.md")).
  destruct (write_text jp (json_dump i) w1) as [e|w2] eqn:Ew;
    [discriminate|].
  destruct (generate_markdown_report markdown_report i mp w2) as [e|w3]
    eqn:Eg; [discriminate|].
  intros H.
  assert (Ei : i = insights) by congruence.
  assert (Ej : jp = json_path) by congruence.
  assert (Em' : mp = md_path) by congruence.
  assert (Ew' : w3 = w') by congruence.
  subst insights json_path md_path w'. clear H.
  apply write_text_inv in Ew.
  apply generate_markdown_report_written in Eg.
  destruct Eg as [Hmd [Ht Hframe]].
  assert (Hjm : jp <> mp).
  { intros E. symmetry in E. exact (output_paths_differ _ _ E). }
  assert (Hoj : output_dir <> jp).
  { intros E. symmetry in E. exact (path_join_neq _ _ E). }
  assert (Hom : output_dir <> mp).
  { intros E. symmetry in E. exact (path_join_neq _ _ E). }
  split; [reflexivity|]. split; [reflexivity|]. split.
  { exists content. split; [|exact Ea]. apply Htext.
    unfold read_text in Er.
    destruct (nodes w1 markdown_file); try discriminate. congruence. }
  split.
  { rewrite Hframe by exact Hom. rewrite Ew.
    rewrite nodes_set_node_other by exact Hoj. exact Hdir. }
  split.
  { rewrite Hframe by exact Hjm. rewrite Ew. apply nodes_set_node_same. }
  split.
  { rewrite Hmd, Ew. cbn [set_node clock ticks].
    rewrite Hclock, Hticks. reflexivity. }
  rewrite Ht, Ew. cbn [set_node ticks]. now rewrite Hticks.
Qed.

End ToolSuccess.

Lemma success_means_files_written_witness :
  match
    analyze_themes (U := Latin) no_json no_report [cps "in"; cps "a.md"]
      [cps "out"] corpus_world
  with
  | Some (Success insights json_path md_path, w') =>
      json_path = [cps "out"; cps "a_themes.json"]
      /\ md_path = [cps "out"; cps "a_report.md"]
      /\ nodes w' json_path = Text (no_json insights)
      /\ nodes w' md_path = Text (no_report 0%Z insights)
      /\ ticks w' = 1
  | _ => False
  end.
Proof.
  destruct (analyze_themes (U := Latin) no_json no_report
              [cps "in"; cps "a.md"] [cps "out"] corpus_world)
    as [[[e | insights json_path md_path] w']|] eqn:R;
    [vm_compute in R; discriminate | | vm_compute in R; discriminate].
  destruct (success_means_files_written (U := Latin) no_json no_report
              [cps "in"; cps "a.md"] [cps "out"] corpus_world w' insights
              json_path md_path R)
    as [Hj [Hm [_ [_ [Hnj [Hnm Ht]]]]]].
  repeat split; assumption.
Defined.
